(** * minijson: a shallow embedding of the parser, the value model and the
    diagnostics of [minijson.cpp] / [minijson.hpp].

    Buffers ([std::string_view], [std::string]) are lists of characters,
    cursors ([size_t]) are natural numbers (no buffer is long enough for a
    cursor to wrap), [JsonValue::Number] is a binary64 float.  A function
    that takes [size_t& cursor] returns the new cursor next to its result. *)

From Stdlib Require Import String Ascii List Arith Bool Lia ZArith Sorted.
From Stdlib Require Import Floats.PrimFloat Floats.SpecFloat Floats.FloatOps.
Import ListNotations.

Set Warnings "-register-all".

Local Open Scope char_scope.
Local Open Scope list_scope.
Local Open Scope nat_scope.

(** ** Characters and buffers *)

Definition text := list ascii.

(** A string literal of the source as a buffer. *)
Definition lit (s : string) : text := list_ascii_of_string s.

Definition text_eqb (a b : text) : bool :=
  if list_eq_dec ascii_dec a b then true else false.

(** The control characters the source writes as escapes. *)
Definition ch_nul : ascii := "000".
Definition ch_bs : ascii := "008".
Definition ch_tab : ascii := "009".
Definition ch_nl : ascii := "010".
Definition ch_ff : ascii := "012".
Definition ch_cr : ascii := "013".
Definition ch_quote : ascii := "034".
Definition ch_backslash : ascii := "\".

(** A buffer written with an apostrophe wherever it holds a quotation
    mark. *)
Definition json (s : string) : text :=
  map (fun c => if Ascii.eqb c "'" then ch_quote else c) (lit s).

(** ** Ways a run can go wrong

    What C++ leaves undefined or aborts on is an outcome of its own: an
    out-of-range read of a buffer, a failed [assert], a [std::get] on the
    wrong alternative.  [OutOfFuel] belongs to the embedding only: it is
    what a recursion on fuel answers when the fuel does not suffice. *)

Inductive fault : Type :=
| OutOfRange
| AssertFailed
| BadVariantAccess
| OutOfFuel.

Inductive exec (A : Type) : Type :=
| Ret (a : A)
| Fault (f : fault).

Arguments Ret {A} a.
Arguments Fault {A} f.

Definition bind {A B : Type} (m : exec A) (k : A -> exec B) : exec B :=
  match m with
  | Ret a => k a
  | Fault f => Fault f
  end.

Notation "x <- m ;; k" := (bind m (fun x => k))
  (at level 61, m at next level, right associativity).
Notation "' p <- m ;; k" := (bind m (fun x => let p := x in k))
  (at level 61, p pattern, m at next level, right associativity).

(** [std::string_view::operator[]]: defined below [size()] only. *)
Definition view_at (str : text) (pos : nat) : exec ascii :=
  match nth_error str pos with
  | Some c => Ret c
  | None => Fault OutOfRange
  end.

(** [std::string::operator[]]: the character at [pos], the terminating
    null character at [pos == size()], undefined beyond. *)
Definition string_at (str : text) (pos : nat) : exec ascii :=
  match nth_error str pos with
  | Some c => Ret c
  | None => if pos =? length str then Ret ch_nul else Fault OutOfRange
  end.

(** [std::string_view::substr(pos, n)] for [pos <= size()]. *)
Definition substr (str : text) (pos n : nat) : text :=
  firstn n (skipn pos str).

(** ** The value model (minijson.hpp) *)

Definition Number := float.

(** [std::less<>] on [std::string]: lexicographic, characters compared as
    unsigned. *)
Fixpoint key_compare (a b : text) : comparison :=
  match a, b with
  | [], [] => Eq
  | [], _ :: _ => Lt
  | _ :: _, [] => Gt
  | x :: a', y :: b' =>
      match Nat.compare (nat_of_ascii x) (nat_of_ascii y) with
      | Eq => key_compare a' b'
      | c => c
      end
  end.

(** [Object] is a [std::map]: its members are kept in increasing key
    order, one per key. *)
Inductive JsonValue : Type :=
| Invalid
| Null
| Bool (b : bool)
| Num (n : Number)
| String (s : text)
| Array (values : list JsonValue)
| Object (members : list (text * JsonValue)).

Inductive Type_ : Type :=
| TInvalid | TNull | TBool | TNumber | TString | TArray | TObject.

Definition type (v : JsonValue) : Type_ :=
  match v with
  | Invalid => TInvalid
  | Null => TNull
  | Bool _ => TBool
  | Num _ => TNumber
  | String _ => TString
  | Array _ => TArray
  | Object _ => TObject
  end.

Definition isValid (v : JsonValue) : bool :=
  match v with Invalid => false | _ => true end.
Definition isNull (v : JsonValue) : bool :=
  match v with Null => true | _ => false end.
Definition isArray (v : JsonValue) : bool :=
  match v with Array _ => true | _ => false end.
Definition isObject (v : JsonValue) : bool :=
  match v with Object _ => true | _ => false end.

(** [as<T>()] is [std::get<T>], which throws on another alternative. *)
Definition asArray (v : JsonValue) : exec (list JsonValue) :=
  match v with Array a => Ret a | _ => Fault BadVariantAccess end.
Definition asObject (v : JsonValue) : exec (list (text * JsonValue)) :=
  match v with Object o => Ret o | _ => Fault BadVariantAccess end.

(** [std::map::find]. *)
Fixpoint find (key : text) (obj : list (text * JsonValue)) : option JsonValue :=
  match obj with
  | [] => None
  | (k, v) :: rest => if text_eqb k key then Some v else find key rest
  end.

(** [std::map::emplace]: nothing happens when the key is there already,
    otherwise the member goes to its place in the key order. *)
Fixpoint emplace (key : text) (value : JsonValue)
    (obj : list (text * JsonValue)) : list (text * JsonValue) :=
  match obj with
  | [] => [(key, value)]
  | (k, v) :: rest =>
      match key_compare key k with
      | Lt => (key, value) :: (k, v) :: rest
      | Eq => (k, v) :: rest
      | Gt => (k, v) :: emplace key value rest
      end
  end.

(** [std::vector::operator[]]. *)
Definition vector_at (a : list JsonValue) (index : nat) : exec JsonValue :=
  match nth_error a index with
  | Some v => Ret v
  | None => Fault OutOfRange
  end.

Definition size (v : JsonValue) : nat :=
  if negb (isValid v) || isNull v then 0
  else match v with
       | Array a => length a
       | Object o => length o
       | _ => 1
       end.

(** The static invalid value behind every missed lookup. *)
Definition getNonExistent : JsonValue := Invalid.

(** [operator[](std::string_view key)] *)
Definition index_key (v : JsonValue) (key : text) : exec JsonValue :=
  if isObject v then
    obj <- asObject v ;;
    match find key obj with
    | None => Ret getNonExistent
    | Some second => Ret second
    end
  else Ret getNonExistent.

(** [operator[](size_t index)] *)
Definition index_pos (v : JsonValue) (index : nat) : exec JsonValue :=
  if isArray v && (index <? size v) then
    a <- asArray v ;; vector_at a index
  else Ret getNonExistent.

(** ** Errors and results (minijson.hpp) *)

Record Error : Type := mkError { cursor : nat; message : string }.

Inductive Result (T : Type) : Type :=
| Ok (t : T)
| Err (e : Error).

Arguments Ok {T} t.
Arguments Err {T} e.

(** ** The parser (minijson.cpp, anonymous namespace)

    A sub-parser gets the buffer and the cursor and answers with its
    [Result] and the cursor it leaves.  Loops and the mutual recursion go
    by fuel: one unit per call and per turn of a loop. *)

(** The [escapes] table of [parseString]. *)
Definition escapes (c : ascii) : option text :=
  if Ascii.eqb c ch_quote then Some [ch_quote]
  else if Ascii.eqb c ch_backslash then Some [ch_backslash]
  else if Ascii.eqb c "/" then Some ["/"]
  else if Ascii.eqb c "b" then Some [ch_bs]
  else if Ascii.eqb c "f" then Some [ch_ff]
  else if Ascii.eqb c "n" then Some [ch_nl]
  else if Ascii.eqb c "r" then Some [ch_cr]
  else if Ascii.eqb c "t" then Some [ch_tab]
  else None.

(** The [while] loop of [parseString]; [str] is the string built so far.
    The escape selector is read from [str], as the source has it. *)
Fixpoint parseString_loop (fuel : nat) (source : text) (cursor : nat)
    (str : text) : exec (Result text * nat) :=
  match fuel with
  | O => Fault OutOfFuel
  | S fuel =>
      match nth_error source cursor with
      | None => Ret (Err (mkError cursor "Unterminated string"), cursor)
      | Some ch =>
          if Ascii.eqb ch ch_backslash then
            let cursor := S cursor in
            if length source <=? cursor then
              Ret (Err (mkError cursor "Incomplete character escape"), cursor)
            else
              c <- string_at str cursor ;;
              if Ascii.eqb c "u" then
                Ret (Err (mkError cursor
                            "Unicode escapes are not implemented yet"), cursor)
              else
                match escapes c with
                | None =>
                    Ret (Err (mkError cursor "Invalid character escape"),
                         cursor)
                | Some second =>
                    parseString_loop fuel source (S cursor) (str ++ second)
                end
          else if Ascii.eqb ch ch_quote then
            Ret (Ok str, S cursor)
          else
            parseString_loop fuel source (S cursor) (str ++ [ch])
      end
  end.

Definition parseString (fuel : nat) (source : text) (cursor : nat)
    : exec (Result text * nat) :=
  match nth_error source cursor with
  | None => Fault AssertFailed
  | Some ch =>
      if Ascii.eqb ch ch_quote then parseString_loop fuel source (S cursor) []
      else Fault AssertFailed
  end.

(** The guarded test [cursor < source.size() && source[cursor] == c]. *)
Definition peek_is (source : text) (cursor : nat) (c : ascii) : bool :=
  match nth_error source cursor with
  | Some ch => Ascii.eqb ch c
  | None => false
  end.

Definition isWhitespace (ch : ascii) : bool :=
  Ascii.eqb ch " " || Ascii.eqb ch ch_tab || Ascii.eqb ch ch_nl
  || Ascii.eqb ch ch_tab.

(** The loop of [skipWhitespace] turns at most [size - cursor] times. *)
Fixpoint skipWhitespace_loop (n : nat) (source : text) (cursor : nat) : nat :=
  match n with
  | O => cursor
  | S n =>
      match nth_error source cursor with
      | Some ch =>
          if isWhitespace ch then skipWhitespace_loop n source (S cursor)
          else cursor
      | None => cursor
      end
  end.

Definition skipWhitespace (source : text) (cursor : nat) : nat :=
  skipWhitespace_loop (length source - cursor) source cursor.

(** [skipSeparator]: whether a comma was found, and the cursor left. *)
Definition skipSeparator (source : text) (cursor : nat) : bool * nat :=
  let cursor := skipWhitespace source cursor in
  if peek_is source cursor "," then (true, skipWhitespace source (S cursor))
  else (false, cursor).

Definition in_chars (ch : ascii) (chars : text) : bool :=
  existsb (Ascii.eqb ch) chars.

(** [std::string_view::find_first_not_of(chars, pos)]; [None] is [npos]. *)
Fixpoint find_not_of (rest chars : text) (pos : nat) : option nat :=
  match rest with
  | [] => None
  | ch :: rest' =>
      if in_chars ch chars then find_not_of rest' chars (S pos)
      else Some pos
  end.

Definition find_first_not_of (source chars : text) (pos : nat) : option nat :=
  find_not_of (skipn pos source) chars pos.

Definition valueChars : text :=
  lit "0123456789abcdefghijlmnopqrstuvwxyzABCDEFGHIJKLMNOPQRSTUVWXYZ.+-".

(** [std::errc] as far as [std::from_chars] answers with it. *)
Inductive errc : Type :=
| errc_ok
| invalid_argument
| result_out_of_range.

Definition errc_eqb (a b : errc) : bool :=
  match a, b with
  | errc_ok, errc_ok => true
  | invalid_argument, invalid_argument => true
  | result_out_of_range, result_out_of_range => true
  | _, _ => false
  end.

(** What the cursor stands on, as the loops test it: a white space
    character, respectively a character of the literal scan. *)
Definition peek_ws (source : text) (cursor : nat) : bool :=
  match nth_error source cursor with
  | Some ch => isWhitespace ch
  | None => false
  end.

Definition peek_value (source : text) (cursor : nat) : bool :=
  match nth_error source cursor with
  | Some ch => in_chars ch valueChars
  | None => false
  end.

(** Where the literal scan of [parseValue] ends. *)
Definition scan_end (source : text) (cursor : nat) : nat :=
  match find_first_not_of source valueChars cursor with
  | None => length source
  | Some valueEnd => valueEnd
  end.

(** A run that has an outcome of the program: it did not stop for lack of
    fuel. *)
Definition terminates {A : Type} (m : exec A) : Prop :=
  m <> Fault OutOfFuel.

(** [m'] is what [m] becomes with more fuel: the same outcome, unless [m]
    ran out of fuel. *)
Definition approx {A : Type} (m m' : exec A) : Prop :=
  m = Fault OutOfFuel \/ m = m'.

Section Parser.

(** [std::from_chars] for [double] belongs to the C++ library, not to
    minijson: given the characters and the value held by the variable it
    answers with how many characters it consumed ([ptr - first]), the
    error code, and the value the variable holds afterwards. *)
Variable from_chars : text -> Number -> nat * errc * Number.

Definition parseNumber (str : text) : option Number :=
  let value := 0%float in
  let '(ptr, ec, value) := from_chars str value in
  if negb (errc_eqb ec errc_ok) || negb (ptr =? length str) then None
  else Some value.

(** The last branch of [parseValue]: null, bool or number. *)
Definition parseLiteral (source : text) (cursor : nat)
    : Result JsonValue * nat :=
  let valueEnd :=
    match find_first_not_of source valueChars cursor with
    | None => length source
    | Some valueEnd => valueEnd
    end in
  let value := substr source cursor (valueEnd - cursor) in
  if length value =? 0 then
    (Err (mkError cursor "Value must not be empty"), cursor)
  else if text_eqb value (lit "null") then
    (Ok Null, cursor + length value)
  else if text_eqb value (lit "true") then
    (Ok (Bool true), cursor + length value)
  else if text_eqb value (lit "false") then
    (Ok (Bool false), cursor + length value)
  else
    match parseNumber value with
    | None => (Err (mkError cursor "Invalid number"), cursor)
    | Some number => (Ok (Num number), cursor + length value)
    end.

(** [parseValue], and the loops of [parseArray] and [parseObject] with
    the container built so far. *)
Fixpoint parseValue (fuel : nat) (source : text) (cursor : nat)
    {struct fuel} : exec (Result JsonValue * nat) :=
  match fuel with
  | O => Fault OutOfFuel
  | S fuel =>
      let cursor := skipWhitespace source cursor in
      match nth_error source cursor with
      | None => Ret (Err (mkError cursor "Expected value"), cursor)
      | Some ch =>
          if Ascii.eqb ch "{" then
            parseObject fuel source (S cursor) []
          else if Ascii.eqb ch "[" then
            parseArray fuel source (S cursor) []
          else if Ascii.eqb ch ch_quote then
            '(res, cursor) <- parseString fuel source cursor ;;
            match res with
            | Err e => Ret (Err e, cursor)
            | Ok s => Ret (Ok (String s), cursor)
            end
          else Ret (parseLiteral source cursor)
      end
  end

with parseArray (fuel : nat) (source : text) (cursor : nat)
    (values : list JsonValue) {struct fuel}
    : exec (Result JsonValue * nat) :=
  match fuel with
  | O => Fault OutOfFuel
  | S fuel =>
      if cursor <? length source then
        let cursor := skipWhitespace source cursor in
        match nth_error source cursor with
        | None => Ret (Err (mkError cursor "Unterminated array"), cursor)
        | Some ch =>
            if Ascii.eqb ch "]" then Ret (Ok (Array values), S cursor)
            else
              '(value, cursor) <- parseValue fuel source cursor ;;
              match value with
              | Err e => Ret (Err e, cursor)
              | Ok value =>
                  let values := values ++ [value] in
                  let '(separatorFound, cursor) :=
                    skipSeparator source cursor in
                  if peek_is source cursor "]" then
                    Ret (Ok (Array values), S cursor)
                  else if separatorFound then
                    parseArray fuel source cursor values
                  else
                    Ret (Err (mkError cursor "Expected separator"), cursor)
              end
        end
      else Ret (Ok (Array values), cursor)
  end

with parseObject (fuel : nat) (source : text) (cursor : nat)
    (obj : list (text * JsonValue)) {struct fuel}
    : exec (Result JsonValue * nat) :=
  match fuel with
  | O => Fault OutOfFuel
  | S fuel =>
      if cursor <? length source then
        let cursor := skipWhitespace source cursor in
        match nth_error source cursor with
        | None => Ret (Err (mkError cursor "Unterminated object"), cursor)
        | Some ch =>
            if Ascii.eqb ch "}" then Ret (Ok (Object obj), S cursor)
            else if negb (Ascii.eqb ch ch_quote) then
              Ret (Err (mkError cursor "Expected key"), cursor)
            else
              '(key, cursor) <- parseString fuel source cursor ;;
              match key with
              | Err e => Ret (Err e, cursor)
              | Ok key =>
                  let cursor := skipWhitespace source cursor in
                  if negb (peek_is source cursor ":") then
                    Ret (Err (mkError cursor "Expected colon"), cursor)
                  else
                    let cursor := S cursor in
                    let cursor := skipWhitespace source cursor in
                    if length source <=? cursor then
                      Ret (Err (mkError cursor "Expected value"), cursor)
                    else
                      '(value, cursor) <- parseValue fuel source cursor ;;
                      match value with
                      | Err e => Ret (Err e, cursor)
                      | Ok value =>
                          let obj := emplace key value obj in
                          let '(separatorFound, cursor) :=
                            skipSeparator source cursor in
                          if peek_is source cursor "}" then
                            Ret (Ok (Object obj), S cursor)
                          else if separatorFound then
                            parseObject fuel source cursor obj
                          else
                            Ret (Err (mkError cursor "Expected separator"),
                                 cursor)
                      end
              end
        end
      else Ret (Ok (Object obj), cursor)
  end.

(** Fuel that no buffer exhausts (shown below). *)
Definition parse_fuel (source : text) : nat := 2 * length source + 1.

(** [minijson::parse] *)
Definition parse (source : text) : exec (Result JsonValue) :=
  '(res, _) <- parseValue (parse_fuel source) source 0 ;;
  Ret res.

End Parser.

(** ** Serialization (minijson.cpp, [JsonValue::dump]) *)

Fixpoint repeat_text (t : text) (n : nat) : text :=
  match n with
  | O => []
  | S n => t ++ repeat_text t n
  end.

(** The two [for] loops of [dump], with the index and the text appended
    so far.  [dump_value] is the recursive call
    [dump(indent, indentLevel + 1)] and [n] is [arr.size()], respectively
    [obj.size()]. *)
Section DumpLoops.

Variable dump_value : JsonValue -> exec text.
Variables indentStr indent : text.
Variable n : nat.

Fixpoint dump_elements (i : nat) (rest : list JsonValue) (ret : text)
    {struct rest} : exec text :=
  match rest with
  | [] => Ret ret
  | x :: rest =>
      let ret := ret ++ indentStr in
      let ret := ret ++ indent in
      d <- dump_value x ;;
      let ret := ret ++ d in
      let ret := if i <? n - 1 then ret ++ lit "," else ret in
      let ret := ret ++ [ch_nl] in
      dump_elements (S i) rest ret
  end.

Fixpoint dump_members (idx : nat) (rest : list (text * JsonValue))
    (ret : text) {struct rest} : exec text :=
  match rest with
  | [] => Ret ret
  | (key, value) :: rest =>
      let ret := ret ++ indentStr in
      let ret := ret ++ indent in
      let ret := ret ++ [ch_quote] in
      let ret := ret ++ key in
      let ret := ret ++ ch_quote :: lit ": " in
      d <- dump_value value ;;
      let ret := ret ++ d in
      let ret := if idx <? n - 1 then ret ++ lit "," else ret in
      let ret := ret ++ [ch_nl] in
      dump_members (S idx) rest ret
  end.

End DumpLoops.

Section Dump.

(** [std::to_string(double)] belongs to the C++ library. *)
Variable to_string : Number -> text.

Fixpoint dump (indent : text) (indentLevel : nat) (v : JsonValue)
    {struct v} : exec text :=
  let indentStr := repeat_text indent indentLevel in
  match v with
  | Invalid => Fault AssertFailed
  | Null => Ret (lit "null")
  | Bool b => Ret (if b then lit "true" else lit "false")
  | Num n => Ret (to_string n)
  | String s => Ret ([ch_quote] ++ s ++ [ch_quote])
  | Array arr =>
      ret <- dump_elements (dump indent (indentLevel + 1)) indentStr indent
               (length arr) 0 arr (lit "[" ++ [ch_nl]) ;;
      let ret := ret ++ indentStr in
      Ret (ret ++ lit "]")
  | Object obj =>
      ret <- dump_members (dump indent (indentLevel + 1)) indentStr indent
               (length obj) 0 obj (lit "{" ++ [ch_nl]) ;;
      let ret := ret ++ indentStr in
      Ret (ret ++ lit "}")
  end.

End Dump.

(** ** What the round trip is stated over *)

Definition is_control (c : ascii) : bool :=
  (nat_of_ascii c <? 32) || (nat_of_ascii c =? 127).

(** A character that is no quotation mark, no backslash and no control
    character. *)
Definition plain_char (c : ascii) : bool :=
  negb (Ascii.eqb c ch_quote) && negb (Ascii.eqb c ch_backslash)
  && negb (is_control c).

Definition plain_text (s : text) : bool := forallb plain_char s.

(** [key] comes before every key of [rest] in the order of the map. *)
Definition keys_above (key : text) (rest : list (text * JsonValue)) : Prop :=
  Forall (fun m => key_compare key (fst m) = Lt) rest.

(** A tree of [Null], [Bool], [Number], [Array], [Object] and plain
    strings, keys included, whose numbers satisfy [number_ok].  The
    members of an [Object] are in the increasing key order that a
    [std::map] keeps. *)
Fixpoint plain_tree (number_ok : Number -> Prop) (v : JsonValue) : Prop :=
  match v with
  | Invalid => False
  | Null => True
  | Bool _ => True
  | Num n => number_ok n
  | String s => plain_text s = true
  | Array arr =>
      (fix all (l : list JsonValue) : Prop :=
         match l with
         | [] => True
         | x :: l => plain_tree number_ok x /\ all l
         end) arr
  | Object obj =>
      (fix all (l : list (text * JsonValue)) : Prop :=
         match l with
         | [] => True
         | (key, x) :: l =>
             plain_text key = true /\ keys_above key l
             /\ plain_tree number_ok x /\ all l
         end) obj
  end.

Definition any_number (n : Number) : Prop := True.

(** A number whose text is read back as the same number: the text is a
    token of the literal scan, none of the three literals, and
    [parseNumber] turns it into the number it came from. *)
Definition number_survives
    (from_chars : text -> Number -> nat * errc * Number)
    (to_string : Number -> text) (n : Number) : Prop :=
  to_string n <> []
  /\ forallb (fun c => in_chars c valueChars) (to_string n) = true
  /\ to_string n <> lit "null"
  /\ to_string n <> lit "true"
  /\ to_string n <> lit "false"
  /\ parseNumber from_chars (to_string n) = Some n.

(** The text after the first element of a container, up to the end of
    the last line: each further item on a line of its own after a comma. *)
Fixpoint tail_text (indentStr indent : text) (items : list text) : text :=
  match items with
  | [] => [ch_nl]
  | item :: items =>
      lit "," ++ [ch_nl] ++ indentStr ++ indent ++ item
      ++ tail_text indentStr indent items
  end.

(** The lines of a container. *)
Definition lines_text (indentStr indent : text) (items : list text) : text :=
  match items with
  | [] => []
  | item :: items =>
      indentStr ++ indent ++ item ++ tail_text indentStr indent items
  end.

Definition member_text (key d : text) : text :=
  [ch_quote] ++ key ++ ch_quote :: lit ": " ++ d.

(** What [skipWhitespace] stops at: the end of the buffer or a character
    that is no white space. *)
Definition not_ws_head (r : text) : Prop :=
  match r with
  | [] => True
  | ch :: _ => isWhitespace ch = false
  end.

(** What may follow a value in the buffer for the literal scan to stop
    there: nothing, or a character that is not scanned. *)
Definition stops_scan (rest : text) : Prop :=
  match rest with
  | [] => True
  | ch :: _ => in_chars ch valueChars = false
  end.

(** A text that starts a value: its first character is no white space
    and no closing bracket. *)
Definition clean_start (d : text) : Prop :=
  match d with
  | [] => False
  | ch :: _ => isWhitespace ch = false /\ Ascii.eqb ch "]" = false
  end.

(** [d] is read back as [x] wherever it stands in a buffer, provided the
    scan can stop after it. *)
Definition parses_back (from_chars : text -> Number -> nat * errc * Number)
    (x : JsonValue) (d : text) : Prop :=
  clean_start d
  /\ forall source cursor r,
       skipn cursor source = d ++ r ->
       stops_scan r ->
       exists fuel,
         parseValue from_chars fuel source cursor
         = Ret (Ok x, cursor + length d).

(** The order of the members of a [std::map]. *)
Definition key_lt (a b : text * JsonValue) : Prop :=
  key_compare (fst a) (fst b) = Lt.

(** The values that the literal scan produces. *)
Definition is_scalar (v : JsonValue) : bool :=
  match v with
  | Null => true
  | Bool _ => true
  | Num _ => true
  | _ => false
  end.

(** Two buffers with the same characters below position [n]. *)
Definition agree (s1 s2 : text) (n : nat) : Prop :=
  forall i, i < n -> nth_error s2 i = nth_error s1 i.

(** A text with no backslash and no quotation mark: what the loop of
    [parseString] copies character by character. *)
Definition escape_free (body : text) : bool :=
  forallb (fun ch => negb (Ascii.eqb ch ch_backslash)
                     && negb (Ascii.eqb ch ch_quote)) body.

(** ** Diagnostics (minijson.cpp, [getContext]) *)

(** [while (lineStart > 0 && str[lineStart] != '\n') lineStart--;] *)
Fixpoint lineStart_loop (str : text) (lineStart : nat) : exec nat :=
  match lineStart with
  | O => Ret lineStart
  | S prev =>
      c <- view_at str lineStart ;;
      if negb (Ascii.eqb c ch_nl) then lineStart_loop str prev
      else Ret lineStart
  end.

(** [while (lineEnd < str.size() && str[lineEnd] != '\n') lineEnd++;],
    which turns at most [size - lineEnd] times. *)
Fixpoint lineEnd_loop (n : nat) (str : text) (lineEnd : nat) : nat :=
  match n with
  | O => lineEnd
  | S n =>
      match nth_error str lineEnd with
      | Some ch =>
          if negb (Ascii.eqb ch ch_nl) then lineEnd_loop n str (S lineEnd)
          else lineEnd
      | None => lineEnd
      end
  end.

Definition getContext (str : text) (cursor : nat) : exec text :=
  lineStart <- lineStart_loop str cursor ;;
  lineStart <-
    (if lineStart <? cursor then
       c <- view_at str lineStart ;;
       Ret (if Ascii.eqb c ch_nl then S lineStart else lineStart)
     else Ret lineStart) ;;
  let lineEnd := lineEnd_loop (length str - lineStart) str lineStart in
  Ret (substr str lineStart (lineEnd - lineStart) ++ [ch_nl]
       ++ repeat " " (cursor - lineStart) ++ lit "^").

(** ** The two conversions of the C++ library

    Neither is code of minijson.  They are written out here after the C++
    standard, so that the parser and the serializer can be run on concrete
    inputs: [std::to_string(double)] prints as [printf("%f")] does, and
    [std::from_chars] reads the longest prefix of the form [strtod] takes,
    less leading white space, a leading plus sign and the hexadecimal
    form, and rounds to the nearest binary64 value. *)

Module Std.

Local Open Scope Z_scope.

Definition digit_char (d : Z) : ascii := ascii_of_nat (48 + Z.to_nat d).

(** The decimal digits of [n], most significant first, appended to [acc];
    [fuel] bounds their number. *)
Fixpoint digits_acc (fuel : nat) (n : Z) (acc : text) : text :=
  match fuel with
  | O => acc
  | S fuel =>
      let acc := digit_char (n mod 10) :: acc in
      if n / 10 =? 0 then acc else digits_acc fuel (n / 10) acc
  end.

Definition decimal (n : Z) : text :=
  digits_acc (S (Z.to_nat (Z.log2 n))) n [].

(** [n] with six digits, for [0 <= n < 10^6]. *)
Definition six_digits (n : Z) : text := tl (decimal (1000000 + n)).

(** [p / q] rounded to the nearest integer, ties to even, for [0 < q]. *)
Definition div_nearest_even (p q : Z) : Z :=
  let d := p / q in
  let r := p mod q in
  match 2 * r ?= q with
  | Lt => d
  | Gt => d + 1
  | Eq => if Z.even d then d else d + 1
  end.

Definition sign_text (s : bool) : text := if s then lit "-" else [].

(** [printf("%f")]: six digits after the point, the value rounded to
    them.  The sign of a NaN is not part of [float]; it prints as [nan]. *)
Definition to_string (x : Number) : text :=
  match Prim2SF x with
  | S754_zero s => sign_text s ++ lit "0.000000"
  | S754_infinity s => sign_text s ++ lit "inf"
  | S754_nan => lit "nan"
  | S754_finite s m e =>
      let scaled :=
        if 0 <=? e then Z.pos m * 2 ^ e * 1000000
        else div_nearest_even (Z.pos m * 1000000) (2 ^ (- e)) in
      sign_text s ++ decimal (scaled / 1000000) ++ lit "."
      ++ six_digits (scaled mod 1000000)
  end.

Definition is_digit (c : ascii) : bool :=
  (48 <=? nat_of_ascii c)%nat && (nat_of_ascii c <=? 57)%nat.

Definition to_lower (c : ascii) : ascii :=
  if (65 <=? nat_of_ascii c)%nat && (nat_of_ascii c <=? 90)%nat
  then ascii_of_nat (nat_of_ascii c + 32) else c.

Definition is_letter (c : ascii) : bool :=
  (97 <=? nat_of_ascii (to_lower c))%nat
  && (nat_of_ascii (to_lower c) <=? 122)%nat.

(** Whether [str] starts with [word], letter case ignored. *)
Fixpoint starts_with (word str : text) : bool :=
  match word, str with
  | [], _ => true
  | _ :: _, [] => false
  | w :: word, c :: str => Ascii.eqb (to_lower c) w && starts_with word str
  end.

(** The leading digits of [str] read onto [acc], and how many they are. *)
Fixpoint read_digits (str : text) (acc : Z) (count : nat) : Z * nat * text :=
  match str with
  | c :: rest =>
      if is_digit c
      then read_digits rest (10 * acc + Z.of_nat (nat_of_ascii c - 48))
                       (S count)
      else (acc, count, str)
  | [] => (acc, count, str)
  end.

(** The exponent part, if [str] starts with a whole one: its value and
    its length. *)
Definition read_exponent (str : text) : Z * nat :=
  match str with
  | c :: rest =>
      if Ascii.eqb (to_lower c) "e" then
        let '(neg, signed, rest) :=
          match rest with
          | "-"%char :: rest' => (true, 1%nat, rest')
          | "+"%char :: rest' => (false, 1%nat, rest')
          | _ => (false, 0%nat, rest)
          end in
        let '(e, count, _) := read_digits rest 0 0 in
        if (count =? 0)%nat then (0, 0%nat)
        else (if neg then - e else e, (1 + signed + count)%nat)
      else (0, 0%nat)
  | [] => (0, 0%nat)
  end.

(** [m * 10^e10] rounded to binary64, to nearest, ties to even. *)
Definition round_decimal (neg : bool) (m e10 : Z) : spec_float :=
  match m with
  | Z0 => S754_zero neg
  | Z.pos mp =>
      if 0 <=? e10 then
        binary_normalize prec emax
          ((if neg then -1 else 1) * (m * 10 ^ e10)) 0 neg
      else
        SFdiv prec emax (S754_finite neg mp 0)
          (S754_finite false (Z.to_pos (10 ^ (- e10))) 0)
  | Z.neg _ => S754_nan
  end.

(** The optional [(n-char-sequence)] after [nan]: its length. *)
Fixpoint read_nchars (str : text) (count : nat) : nat :=
  match str with
  | c :: rest =>
      if Ascii.eqb c ")" then S count
      else if is_digit c || is_letter c || Ascii.eqb c "_"
      then read_nchars rest (S count)
      else O
  | [] => O
  end.

(** A leading minus sign, how many characters it takes, and the rest. *)
Definition split_sign (str : text) : bool * nat * text :=
  match str with
  | c :: rest =>
      if Ascii.eqb c "-" then (true, 1%nat, rest) else (false, 0%nat, str)
  | [] => (false, 0%nat, str)
  end.

Definition from_chars (str : text) (value : Number)
    : nat * errc * Number :=
  let '(neg, signed, body) := split_sign str in
  if starts_with (lit "infinity") body then
    ((signed + 8)%nat, errc_ok, if neg then neg_infinity else infinity)
  else if starts_with (lit "inf") body then
    ((signed + 3)%nat, errc_ok, if neg then neg_infinity else infinity)
  else if starts_with (lit "nan") body then
    let paren :=
      match skipn 3 body with
      | "("%char :: rest => read_nchars rest 1
      | _ => O
      end in
    ((signed + 3 + paren)%nat, errc_ok, nan)
  else
    let '(int_part, int_count, rest) := read_digits body 0 0 in
    let '(mant, frac_count, point, rest) :=
      match rest with
      | "."%char :: rest' =>
          let '(m, c, r) := read_digits rest' int_part 0 in
          (m, c, 1%nat, r)
      | _ => (int_part, 0%nat, 0%nat, rest)
      end in
    if (int_count + frac_count =? 0)%nat then
      (0%nat, invalid_argument, value)
    else
      let '(e, exp_count) := read_exponent rest in
      let ptr := (signed + int_count + point + frac_count + exp_count)%nat in
      let r := round_decimal neg mant (e - Z.of_nat frac_count) in
      match r with
      | S754_infinity _ => (ptr, result_out_of_range, value)
      | S754_zero _ =>
          if mant =? 0 then (ptr, errc_ok, SF2Prim r)
          else (ptr, result_out_of_range, value)
      | _ => (ptr, errc_ok, SF2Prim r)
      end.

(** The tokens [inf], [infinity] and [nan], in any letter case and after
    an optional minus sign, and the numbers they stand for. *)
Definition special_number (t : text) : option Number :=
  let '(neg, _, body) := split_sign t in
  let word := map to_lower body in
  if text_eqb word (lit "inf") || text_eqb word (lit "infinity") then
    Some (if neg then neg_infinity else infinity)
  else if text_eqb word (lit "nan") then Some nan
  else None.

End Std.

(** ** What the further properties are stated over *)

(** A tree as [parse] builds it: no [Invalid] anywhere, the members of
    every [Object] in strictly increasing key order. *)
Fixpoint well_formed (v : JsonValue) : Prop :=
  match v with
  | Invalid => False
  | Array arr =>
      (fix all (l : list JsonValue) : Prop :=
         match l with
         | [] => True
         | x :: l => well_formed x /\ all l
         end) arr
  | Object obj =>
      StronglySorted key_lt obj
      /\ (fix all (l : list (text * JsonValue)) : Prop :=
            match l with
            | [] => True
            | (_, x) :: l => well_formed x /\ all l
            end) obj
  | _ => True
  end.

(** No [Invalid] at the top nor below: what [dump] asserts, level by
    level. *)
Fixpoint valid_tree (v : JsonValue) : bool :=
  match v with
  | Invalid => false
  | Array arr => forallb valid_tree arr
  | Object obj => forallb (fun m => valid_tree (snd m)) obj
  | _ => true
  end.

(** A backslash at or after [from] that is not the last character of the
    buffer: what takes [parseString] to its read of [str[cursor]]. *)
Definition escape_ahead (source : text) (from : nat) : Prop :=
  exists i, from <= i /\ nth_error source i = Some ch_backslash
            /\ S i < length source.

(** The messages of the errors that [parse] can return. *)
Definition parse_messages : list string :=
  ["Expected value"; "Expected key"; "Expected colon"; "Expected separator";
   "Value must not be empty"; "Unterminated string"; "Unterminated array";
   "Unterminated object"; "Incomplete character escape";
   "Invalid number"]%string.

(** The messages raised only behind a test [cursor >= source.size()]. *)
Definition end_messages : list string :=
  ["Expected value"; "Unterminated string"; "Unterminated array";
   "Unterminated object"; "Incomplete character escape"]%string.

(** The messages raised only after [source[cursor]] has been read. *)
Definition inner_messages : list string :=
  ["Expected key"; "Value must not be empty"; "Invalid number"]%string.

(** An outcome of a sub-parser on [source] that is either a value, or an
    error with one of these messages and its cursor inside the buffer or
    at its end, as its message tells, or the out-of-range read of an escape
    selector, which takes a backslash before the last character of the
    buffer. *)
Definition sound_outcome {T : Type} (source : text)
    (m : exec (Result T * nat)) : Prop :=
  match m with
  | Ret (Ok _, _) => True
  | Ret (Err e, _) =>
      In (message e) parse_messages
      /\ cursor e <= length source
      /\ (In (message e) end_messages -> cursor e = length source)
      /\ (In (message e) inner_messages -> cursor e < length source)
  | Fault f => f = OutOfFuel \/ (f = OutOfRange /\ escape_ahead source 0)
  end.

(** An outcome with its cursors moved [n] characters to the right: what
    a sub-parser answers when [n] characters are put before the buffer. *)
Definition shift_result {T : Type} (n : nat) (r : Result T) : Result T :=
  match r with
  | Ok v => Ok v
  | Err e => Err (mkError (n + cursor e) (message e))
  end.

Definition shift_outcome {T : Type} (n : nat) (m : exec (Result T * nat))
    : exec (Result T * nat) :=
  match m with
  | Ret (r, stop) => Ret (shift_result n r, n + stop)
  | Fault f => Fault f
  end.

Definition shift_parse (n : nat) (m : exec (Result JsonValue))
    : exec (Result JsonValue) :=
  match m with
  | Ret r => Ret (shift_result n r)
  | Fault f => Fault f
  end.

(** The characters on which [parseValue] goes on past its test for an
    empty literal: an opening bracket or brace, a quotation mark, or a
    character of the literal scan. *)
Definition starts_value (ch : ascii) : bool :=
  Ascii.eqb ch "{" || Ascii.eqb ch "[" || Ascii.eqb ch ch_quote
  || in_chars ch valueChars.

(** * Properties *)

(** ** Lookup *)

Lemma find_present : forall key obj second,
  find key obj = Some second -> In (key, second) obj.
Proof.
  induction obj as [|[k v] rest IH]; simpl; intros second H.
  - discriminate.
  - unfold text_eqb in H. destruct (list_eq_dec ascii_dec k key) as [->|_].
    + injection H as ->. now left.
    + right. now apply IH.
Qed.

(** In an object that holds every key once, as a [std::map] does, the
    member of a key is the one found. *)
Lemma find_member : forall key x obj,
  NoDup (map fst obj) -> In (key, x) obj -> find key obj = Some x.
Proof.
  induction obj as [|[k v] rest IH]; simpl; intros Hnd Hin; [contradiction|].
  inversion Hnd as [|k' keys Hk Hrest]; subst.
  unfold text_eqb. destruct (list_eq_dec ascii_dec k key) as [->|Hne].
  - destruct Hin as [E|Hin]; [now injection E as -> |].
    exfalso. apply Hk. apply in_map_iff. now exists (key, x).
  - destruct Hin as [E|Hin]; [injection E as -> _; congruence|].
    now apply IH.
Qed.

(** C7. Keyed and indexed lookup never fault.  [v[key]] on an [Object]
    that holds the key returns a member with that key, which is the member
    of that key when every key is held once, as in a [std::map]; [v[index]]
    on an [Array] with the index in range returns the element at the
    index.  In every other case, a value of another kind, a key that no
    member has, an index at or beyond the size, they return the invalid
    value of [getNonExistent], which is never valid. *)
Theorem lookup_total : forall (v : JsonValue) (key : text) (index : nat),
  (exists r,
      index_key v key = Ret r
      /\ (forall obj, v = Object obj -> In key (map fst obj) ->
          In (key, r) obj)
      /\ (forall obj x, v = Object obj -> NoDup (map fst obj) ->
          In (key, x) obj -> r = x)
      /\ ((forall obj, v = Object obj -> ~ In key (map fst obj)) ->
          r = getNonExistent))
  /\ (exists r,
      index_pos v index = Ret r
      /\ (forall a x, v = Array a -> nth_error a index = Some x -> r = x)
      /\ ((forall a, v = Array a -> length a <= index) ->
          r = getNonExistent))
  /\ isValid getNonExistent = false.
Proof.
  intros v key index. split; [|split; [|reflexivity]].
  - assert (Hother : isObject v = false ->
              exists r,
                index_key v key = Ret r
                /\ (forall obj, v = Object obj -> In key (map fst obj) ->
                    In (key, r) obj)
                /\ (forall obj x, v = Object obj -> NoDup (map fst obj) ->
                    In (key, x) obj -> r = x)
                /\ ((forall obj, v = Object obj -> ~ In key (map fst obj)) ->
                    r = getNonExistent)).
    { intros Hno. exists getNonExistent. unfold index_key. rewrite Hno.
      split; [reflexivity|].
      split; [intros obj ->; discriminate|].
      split; [intros obj x ->; discriminate | reflexivity]. }
    destruct v as [ | | b | n | s | arr | obj];
      try (apply Hother; reflexivity).
    unfold index_key. cbn [isObject asObject bind].
    destruct (find key obj) as [second|] eqn:E.
    + exists second. split; [reflexivity|].
      split; [|split].
      * intros obj' Heq _. injection Heq as <-. now apply find_present.
      * intros obj' x Heq Hnd Hin. injection Heq as <-.
        rewrite (find_member key x obj Hnd Hin) in E. congruence.
      * intros Hmiss. exfalso. apply (Hmiss obj eq_refl).
        apply find_present in E. apply in_map_iff. now exists (key, second).
    + exists getNonExistent. split; [reflexivity|].
      split; [|split; [|reflexivity]].
      * intros obj' Heq Hin. injection Heq as <-. exfalso.
        destruct (in_map_iff fst obj key) as [Hmem _].
        destruct (Hmem Hin) as [[k x] [Hk Hx]]. simpl in Hk. subst k.
        clear Hmem Hin. induction obj as [|[k' v'] rest IH];
          [contradiction|].
        simpl in E. unfold text_eqb in E.
        destruct (list_eq_dec ascii_dec k' key) as [->|Hne];
          [discriminate|].
        destruct Hx as [Heq|Hx]; [injection Heq as -> _; congruence|].
        now apply IH.
      * intros obj' x Heq Hnd Hin. injection Heq as <-.
        rewrite (find_member key x obj Hnd Hin) in E. discriminate.
  - assert (Hother : isArray v = false ->
              exists r,
                index_pos v index = Ret r
                /\ (forall a x, v = Array a -> nth_error a index = Some x ->
                    r = x)
                /\ ((forall a, v = Array a -> length a <= index) ->
                    r = getNonExistent)).
    { intros Hno. exists getNonExistent. unfold index_pos. rewrite Hno.
      split; [reflexivity|].
      split; [intros a x ->; discriminate | reflexivity]. }
    destruct v as [ | | b | n | s | arr | obj];
      try (apply Hother; reflexivity).
    unfold index_pos, size, vector_at.
    cbn [isArray isValid isNull negb orb andb asArray bind].
    destruct (Nat.ltb_spec index (length arr)) as [Hlt|Hge].
    + destruct (nth_error arr index) as [x|] eqn:E.
      2:{ apply nth_error_None in E. lia. }
      exists x. split; [reflexivity|]. split.
      * intros a y Heq Hy. injection Heq as <-. congruence.
      * intros Hout. specialize (Hout arr eq_refl). lia.
    + exists getNonExistent. split; [reflexivity|]. split; [|reflexivity].
      intros a y Heq Hy. injection Heq as <-.
      assert (index < length arr) by (apply nth_error_Some; congruence).
      lia.
Qed.

Lemma lookup_total_witness :
  (exists r,
      index_key (Object [(lit "a", Null); (lit "b", Bool true)]) (lit "b")
      = Ret r /\ r = Bool true)
  /\ (exists r,
      index_key (Object [(lit "a", Null); (lit "b", Bool true)]) (lit "c")
      = Ret r /\ r = getNonExistent).
Proof.
  split.
  - destruct (lookup_total (Object [(lit "a", Null); (lit "b", Bool true)])
                (lit "b") 0) as [[r [Hr [_ [Huniq _]]]] _].
    exists r. split; [exact Hr|].
    apply (Huniq _ (Bool true) eq_refl).
    + repeat constructor; simpl; intros H;
        repeat (destruct H as [H|H]; [discriminate H|]); exact H.
    + right. now left.
  - destruct (lookup_total (Object [(lit "a", Null); (lit "b", Bool true)])
                (lit "c") 0) as [[r [Hr [_ [_ Hmiss]]]] _].
    exists r. split; [exact Hr|].
    apply Hmiss. intros obj Heq. injection Heq as <-. simpl. intros H.
    repeat (destruct H as [H|H]; [discriminate H|]). exact H.
Defined.

(** ** Diagnostics *)

Lemma lineStart_loop_in_range : forall str lineStart,
  lineStart < length str ->
  exists start, lineStart_loop str lineStart = Ret start /\ start <= lineStart.
Proof.
  induction lineStart as [|prev IH]; intros Hlt; simpl.
  - now exists 0.
  - unfold view_at. destruct (nth_error str (S prev)) as [c|] eqn:E.
    + simpl. destruct (Ascii.eqb c ch_nl); simpl.
      * now exists (S prev).
      * destruct IH as [start [-> Hle]]; [lia|]. exists start. split; [easy|lia].
    + apply nth_error_None in E. lia.
Qed.

(** Inside the buffer [getContext] reads in range and returns its two
    lines. *)
Lemma getContext_in_range : forall str cursor,
  cursor < length str -> exists out, getContext str cursor = Ret out.
Proof.
  intros str cursor Hlt. unfold getContext.
  destruct (lineStart_loop_in_range str cursor Hlt) as [start [-> Hle]]. simpl.
  destruct (start <? cursor) eqn:E; simpl.
  - unfold view_at. destruct (nth_error str start) as [c|] eqn:En; simpl.
    + eauto.
    + apply nth_error_None in En. lia.
  - eauto.
Qed.

(** C5. With the cursor at the end of a buffer that is not empty, where
    the parser leaves it on [Unterminated string] and the like,
    [getContext] starts by reading [str[str.size()]], one past the last
    character. *)
Theorem getContext_reads_past_end : forall str,
  0 < length str -> getContext str (length str) = Fault OutOfRange.
Proof.
  intros str Hpos. unfold getContext.
  destruct (length str) as [|n] eqn:E; [lia|]. simpl.
  unfold view_at. replace (nth_error str (S n)) with (@None ascii).
  - reflexivity.
  - symmetry. apply nth_error_None. lia.
Qed.

Lemma getContext_reads_past_end_witness :
  0 < length (json "'abc")
  /\ getContext (json "'abc") (length (json "'abc")) = Fault OutOfRange.
Proof.
  split; [simpl; lia | apply getContext_reads_past_end; simpl; lia].
Defined.

(** Inside the buffer: the line of the cursor and the caret under it; with
    the cursor on a newline character the line rendered is empty. *)
Example getContext_examples :
  getContext (json "{'a': }") 6
  = Ret (json "{'a': }" ++ [ch_nl] ++ lit "      ^")
  /\ getContext (lit "ab" ++ [ch_nl] ++ lit "cd") 4
     = Ret (lit "cd" ++ [ch_nl] ++ lit " ^")
  /\ getContext (lit "ab" ++ [ch_nl] ++ lit "cd") 2
     = Ret ([ch_nl] ++ lit "^").
Proof. repeat split. Qed.

(** ** String tokens and escapes *)

(** Once the loop of [parseString] meets a backslash that is not the last
    character of the buffer, it reads the escape selector from [str], the
    string it is building, at the index of the cursor.  [str] is shorter
    than that, whatever the input: the read is out of range. *)
Lemma escape_selector_out_of_range : forall fuel source cursor str,
  nth_error source cursor = Some ch_backslash ->
  S cursor < length source ->
  length str <= cursor ->
  parseString_loop (S fuel) source cursor str = Fault OutOfRange.
Proof.
  intros fuel source cursor str Hbs Hlen Hstr. simpl. rewrite Hbs. simpl.
  destruct (length source <=? S cursor) eqn:E.
  - apply Nat.leb_le in E. lia.
  - unfold string_at.
    destruct (nth_error str (S cursor)) eqn:En.
    + assert (S cursor < length str) by (apply nth_error_Some; congruence). lia.
    + destruct (S cursor =? length str) eqn:Eq; [|reflexivity].
      apply Nat.eqb_eq in Eq. lia.
Qed.

(** The string built by the loop never outgrows the cursor. *)
Lemma parseString_loop_escape_faults : forall fuel source cursor str k,
  length str <= cursor ->
  nth_error source (cursor + k) = Some ch_backslash ->
  S (cursor + k) < length source ->
  (forall i, i < k -> exists ch, nth_error source (cursor + i) = Some ch
                       /\ Ascii.eqb ch ch_backslash = false
                       /\ Ascii.eqb ch ch_quote = false) ->
  k < fuel ->
  parseString_loop fuel source cursor str = Fault OutOfRange.
Proof.
  induction fuel as [|fuel IH]; intros source cursor str k Hstr Hbs Hlen Hpre Hk.
  - lia.
  - destruct k as [|k].
    + rewrite Nat.add_0_r in *. now apply escape_selector_out_of_range.
    + destruct (Hpre 0) as [ch [Hch [Hnb Hnq]]]; [lia|].
      rewrite Nat.add_0_r in Hch.
      cbn [parseString_loop]. rewrite Hch, Hnb, Hnq.
      apply (IH source (S cursor) (str ++ [ch]) k).
      * rewrite length_app; simpl; lia.
      * now replace (S cursor + k) with (cursor + S k) by lia.
      * replace (S cursor + k) with (cursor + S k) by lia. exact Hlen.
      * intros i Hi. replace (S cursor + i) with (cursor + S i) by lia.
        apply Hpre. lia.
      * lia.
Qed.

(** ** Containers left open *)

(** The loops of [parseArray] and [parseObject] are left as soon as the
    cursor is at the end of the buffer, and what follows them returns the
    container built so far. *)
Lemma parseArray_at_end : forall from_chars fuel source cursor values,
  length source <= cursor ->
  parseArray from_chars (S fuel) source cursor values
  = Ret (Ok (Array values), cursor).
Proof.
  intros from_chars fuel source cursor values H. simpl.
  destruct (cursor <? length source) eqn:E; [|reflexivity].
  apply Nat.ltb_lt in E. lia.
Qed.

Lemma parseObject_at_end : forall from_chars fuel source cursor obj,
  length source <= cursor ->
  parseObject from_chars (S fuel) source cursor obj
  = Ret (Ok (Object obj), cursor).
Proof.
  intros from_chars fuel source cursor obj H. simpl.
  destruct (cursor <? length source) eqn:E; [|reflexivity].
  apply Nat.ltb_lt in E. lia.
Qed.

(** C2. A buffer that ends right after the opening bracket, the opening
    brace, or a comma is left open and parses successfully all the same:
    an empty [Array], an empty [Object], the [Array] of the elements read
    so far.  One that ends after an element is answered with
    [Expected separator].  [Unterminated array] and [Unterminated object]
    are returned only when white space precedes the end. *)
Theorem open_container_accepted :
  (forall from_chars, parse from_chars (lit "[") = Ret (Ok (Array [])))
  /\ (forall from_chars, parse from_chars (lit "{") = Ret (Ok (Object [])))
  /\ parse Std.from_chars (lit "[1,") = Ret (Ok (Array [Num 1%float]))
  /\ parse Std.from_chars (lit "[1")
     = Ret (Err (mkError 2 "Expected separator"))
  /\ (forall from_chars, parse from_chars (lit "[ ")
        = Ret (Err (mkError 2 "Unterminated array")))
  /\ (forall from_chars, parse from_chars (lit "{ ")
        = Ret (Err (mkError 2 "Unterminated object"))).
Proof.
  repeat split; intros; vm_compute; reflexivity.
Qed.

(** ** The literal scan *)

(** C6. Lower-case [k] is not among the scanned characters, so the scan at
    [nullk] stops after [null], which parses to [Null]; the other letters,
    the digits and [.], [+], [-] are all scanned. *)
Theorem scan_misses_k :
  in_chars "k" valueChars = false
  /\ forallb (fun ch => in_chars ch valueChars)
       (lit "0123456789abcdefghijlmnopqrstuvwxyzABCDEFGHIJKLMNOPQRSTUVWXYZ.+-")
     = true
  /\ (forall from_chars,
        parseValue from_chars 1 (lit "nullk") 0 = Ret (Ok Null, 4))
  /\ (forall from_chars, parse from_chars (lit "nullk") = Ret (Ok Null)).
Proof.
  repeat split; intros; vm_compute; reflexivity.
Qed.

(** ** Cursors and white space *)

Lemma nth_error_in_range : forall (s : text) c,
  (c <? length s) = match nth_error s c with Some _ => true | None => false end.
Proof.
  intros s c. destruct (nth_error s c) eqn:E.
  - apply Nat.ltb_lt. apply nth_error_Some. congruence.
  - apply Nat.ltb_ge. now apply nth_error_None.
Qed.

Lemma skipWhitespace_loop_spec : forall n source cursor,
  length source - cursor <= n ->
  cursor <= skipWhitespace_loop n source cursor
  /\ (forall i, cursor <= i < skipWhitespace_loop n source cursor ->
                peek_ws source i = true)
  /\ peek_ws source (skipWhitespace_loop n source cursor) = false.
Proof.
  induction n as [|n IH]; intros source cursor Hn; simpl.
  - repeat split; [lia | intros; lia |].
    unfold peek_ws. replace (nth_error source cursor) with (@None ascii); auto.
    symmetry. apply nth_error_None. lia.
  - destruct (nth_error source cursor) as [ch|] eqn:E.
    + destruct (isWhitespace ch) eqn:W.
      * assert (cursor < length source) by (apply nth_error_Some; congruence).
        destruct (IH source (S cursor)) as [H1 [H2 H3]]; [lia|].
        repeat split; [lia | | exact H3].
        intros i Hi. destruct (Nat.eq_dec i cursor) as [->|Hne].
        -- unfold peek_ws. now rewrite E.
        -- apply H2. lia.
      * repeat split; [lia | intros; lia |]. unfold peek_ws. now rewrite E.
    + repeat split; [lia | intros; lia |]. unfold peek_ws. now rewrite E.
Qed.

Lemma skipWhitespace_spec : forall source cursor,
  cursor <= skipWhitespace source cursor
  /\ (forall i, cursor <= i < skipWhitespace source cursor ->
                peek_ws source i = true)
  /\ peek_ws source (skipWhitespace source cursor) = false.
Proof.
  intros. unfold skipWhitespace. apply skipWhitespace_loop_spec. lia.
Qed.

(** [skipWhitespace] stops at the first position that holds no white
    space, and nowhere else. *)
Lemma skipWhitespace_unique : forall source cursor stop,
  cursor <= stop ->
  (forall i, cursor <= i < stop -> peek_ws source i = true) ->
  peek_ws source stop = false ->
  skipWhitespace source cursor = stop.
Proof.
  intros source cursor stop Hle Hws Hstop.
  destruct (skipWhitespace_spec source cursor) as [H1 [H2 H3]].
  destruct (Nat.lt_trichotomy (skipWhitespace source cursor) stop)
    as [Hlt|[Heq|Hgt]]; [|exact Heq|].
  - rewrite Hws in H3; [discriminate | lia].
  - rewrite H2 in Hstop; [discriminate | lia].
Qed.

Lemma peek_ws_in_range : forall source i,
  peek_ws source i = true -> i < length source.
Proof.
  unfold peek_ws. intros source i H. apply nth_error_Some.
  destruct (nth_error source i); [discriminate | discriminate].
Qed.

Lemma skipWhitespace_le : forall source cursor,
  cursor <= length source -> skipWhitespace source cursor <= length source.
Proof.
  intros source cursor Hle.
  destruct (skipWhitespace_spec source cursor) as [H1 [H2 _]].
  destruct (Nat.eq_dec (skipWhitespace source cursor) cursor) as [->|Hne];
    [exact Hle|].
  assert (Hp : peek_ws source (skipWhitespace source cursor - 1) = true)
    by (apply H2; lia).
  apply peek_ws_in_range in Hp. lia.
Qed.

Lemma skipSeparator_bounds : forall source cursor,
  cursor <= snd (skipSeparator source cursor)
  /\ (cursor <= length source ->
      snd (skipSeparator source cursor) <= length source).
Proof.
  intros source cursor. unfold skipSeparator.
  pose proof (skipWhitespace_spec source cursor) as [H1 _].
  unfold peek_is.
  destruct (nth_error source (skipWhitespace source cursor)) as [ch|] eqn:E;
    simpl.
  - assert (skipWhitespace source cursor < length source)
      by (apply nth_error_Some; congruence).
    destruct (Ascii.eqb ch ","); simpl.
    + pose proof (skipWhitespace_spec source (S (skipWhitespace source cursor)))
        as [H2 _].
      split; [lia|]. intros _. apply skipWhitespace_le. lia.
    + split; [lia|]. intros. lia.
  - split; [lia|]. intros. now apply skipWhitespace_le.
Qed.

(** ** The extent of the literal scan *)

Lemma nth_error_skipn_shift : forall (s : text) c i,
  nth_error (skipn c s) i = nth_error s (c + i).
Proof.
  intros s c. revert s. induction c as [|c IH]; intros s i; simpl.
  - reflexivity.
  - destruct s as [|x s]; simpl.
    + now destruct i.
    + apply IH.
Qed.

Lemma find_not_of_spec : forall rest chars pos,
  match find_not_of rest chars pos with
  | Some e =>
      pos <= e < pos + length rest
      /\ (forall i, i < e - pos ->
            exists ch, nth_error rest i = Some ch /\ in_chars ch chars = true)
      /\ (exists ch, nth_error rest (e - pos) = Some ch
                     /\ in_chars ch chars = false)
  | None =>
      forall i, i < length rest ->
        exists ch, nth_error rest i = Some ch /\ in_chars ch chars = true
  end.
Proof.
  induction rest as [|ch rest IH]; intros chars pos; simpl.
  - intros i Hi. lia.
  - destruct (in_chars ch chars) eqn:E.
    + specialize (IH chars (S pos)).
      destruct (find_not_of rest chars (S pos)) as [e|].
      * destruct IH as [Hb [Hin [c' [Hc' Hout]]]].
        split; [lia|]. split.
        -- intros i Hi. destruct i as [|i]; simpl; [eauto|]. apply Hin. lia.
        -- exists c'. split; [|exact Hout].
           replace (e - pos) with (S (e - S pos)) by lia. exact Hc'.
      * intros i Hi. destruct i as [|i]; simpl; [eauto|]. apply IH. lia.
    + split; [lia|]. split.
      * intros i Hi. lia.
      * exists ch. now rewrite Nat.sub_diag.
Qed.

Lemma scan_end_spec : forall source cursor,
  cursor <= length source ->
  cursor <= scan_end source cursor <= length source
  /\ (forall i, cursor <= i < scan_end source cursor ->
                peek_value source i = true)
  /\ peek_value source (scan_end source cursor) = false.
Proof.
  intros source cursor Hle. unfold scan_end, find_first_not_of.
  pose proof (find_not_of_spec (skipn cursor source) valueChars cursor) as H.
  rewrite length_skipn in H.
  destruct (find_not_of (skipn cursor source) valueChars cursor) as [e|].
  - destruct H as [Hb [Hin [ch [Hch Hout]]]].
    split; [lia|]. split.
    + intros i Hi. destruct (Hin (i - cursor)) as [c' [Hc' Hc'in]]; [lia|].
      rewrite nth_error_skipn_shift in Hc'.
      replace (cursor + (i - cursor)) with i in Hc' by lia.
      unfold peek_value. now rewrite Hc'.
    + rewrite nth_error_skipn_shift in Hch.
      replace (cursor + (e - cursor)) with e in Hch by lia.
      unfold peek_value. now rewrite Hch.
  - split; [lia|]. split.
    + intros i Hi. destruct (H (i - cursor)) as [c' [Hc' Hc'in]]; [lia|].
      rewrite nth_error_skipn_shift in Hc'.
      replace (cursor + (i - cursor)) with i in Hc' by lia.
      unfold peek_value. now rewrite Hc'.
    + unfold peek_value.
      replace (nth_error source (length source)) with (@None ascii); auto.
      symmetry. now apply nth_error_None.
Qed.

Lemma peek_value_in_range : forall source i,
  peek_value source i = true -> i < length source.
Proof.
  unfold peek_value. intros source i H. apply nth_error_Some.
  destruct (nth_error source i); [discriminate | discriminate].
Qed.

(** The scan ends at the first position that holds no scanned character,
    and nowhere else. *)
Lemma scan_end_unique : forall source cursor stop,
  cursor <= stop ->
  cursor <= length source ->
  (forall i, cursor <= i < stop -> peek_value source i = true) ->
  peek_value source stop = false ->
  scan_end source cursor = stop.
Proof.
  intros source cursor stop Hle Hlen Hin Hstop.
  destruct (scan_end_spec source cursor Hlen) as [H1 [H2 H3]].
  destruct (Nat.lt_trichotomy (scan_end source cursor) stop)
    as [Hlt|[Heq|Hgt]]; [|exact Heq|].
  - rewrite Hin in H3; [discriminate | lia].
  - rewrite H2 in Hstop; [discriminate | lia].
Qed.

Lemma length_substr : forall s pos n,
  pos + n <= length s -> length (substr s pos n) = n.
Proof.
  intros s pos n H. unfold substr. rewrite length_firstn, length_skipn. lia.
Qed.

Lemma nth_error_substr : forall s pos n i,
  i < n -> nth_error (substr s pos n) i = nth_error s (pos + i).
Proof.
  intros s pos n i Hi. unfold substr.
  rewrite nth_error_firstn.
  destruct (Nat.ltb_spec i n); [|lia]. apply nth_error_skipn_shift.
Qed.

Section ParserFacts.

Variable from_chars : text -> Number -> nat * errc * Number.

(** [parseLiteral] in terms of the token it scans. *)
Lemma parseLiteral_token : forall source cursor,
  parseLiteral from_chars source cursor =
    let value := substr source cursor (scan_end source cursor - cursor) in
    if length value =? 0 then
      (Err (mkError cursor "Value must not be empty"), cursor)
    else if text_eqb value (lit "null") then
      (Ok Null, cursor + length value)
    else if text_eqb value (lit "true") then
      (Ok (Bool true), cursor + length value)
    else if text_eqb value (lit "false") then
      (Ok (Bool false), cursor + length value)
    else
      match parseNumber from_chars value with
      | None => (Err (mkError cursor "Invalid number"), cursor)
      | Some number => (Ok (Num number), cursor + length value)
      end.
Proof. reflexivity. Qed.

(** A literal that is accepted is not empty and ends where the scan
    ends. *)
Lemma parseLiteral_progress : forall source cursor v stop,
  cursor <= length source ->
  parseLiteral from_chars source cursor = (Ok v, stop) ->
  cursor < stop /\ stop = scan_end source cursor.
Proof.
  intros source cursor v stop Hle H. rewrite parseLiteral_token in H.
  destruct (scan_end_spec source cursor Hle) as [[H1 H2] _].
  cbv zeta in H.
  rewrite length_substr in H by lia.
  destruct (scan_end source cursor - cursor =? 0) eqn:E0; [discriminate|].
  apply Nat.eqb_neq in E0.
  assert (Hstop : cursor + (scan_end source cursor - cursor)
                  = scan_end source cursor) by lia.
  rewrite Hstop in H.
  repeat match type of H with
         | (if ?b then _ else _) = _ => destruct b
         | match ?x with _ => _ end = _ => destruct x
         end;
    inversion H; subst; lia.
Qed.

End ParserFacts.

(** ** Progress and termination *)

Lemma parseString_loop_progress : forall fuel source cursor str s stop,
  parseString_loop fuel source cursor str = Ret (Ok s, stop) ->
  cursor < stop <= length source.
Proof.
  induction fuel as [|fuel IH]; intros source cursor str s stop H; simpl in H.
  - discriminate.
  - destruct (nth_error source cursor) as [ch|] eqn:E; [|discriminate].
    assert (cursor < length source) by (apply nth_error_Some; congruence).
    destruct (Ascii.eqb ch ch_backslash).
    + destruct (length source <=? S cursor); [discriminate|].
      destruct (string_at str (S cursor)) as [c|f]; simpl in H; [|discriminate].
      destruct (Ascii.eqb c "u"); [discriminate|].
      destruct (escapes c); [|discriminate].
      apply IH in H. lia.
    + destruct (Ascii.eqb ch ch_quote).
      * inversion H; subst. lia.
      * apply IH in H. lia.
Qed.

Lemma parseString_progress : forall fuel source cursor s stop,
  parseString fuel source cursor = Ret (Ok s, stop) ->
  cursor < stop <= length source.
Proof.
  intros fuel source cursor s stop H. unfold parseString in H.
  destruct (nth_error source cursor); [|discriminate].
  destruct (Ascii.eqb a ch_quote); [|discriminate].
  apply parseString_loop_progress in H. lia.
Qed.

Lemma parseString_loop_terminates : forall fuel source cursor str,
  length source - cursor < fuel ->
  terminates (parseString_loop fuel source cursor str).
Proof.
  unfold terminates.
  induction fuel as [|fuel IH]; intros source cursor str Hfuel; [lia|].
  cbn [parseString_loop].
  destruct (nth_error source cursor) as [ch|] eqn:E; [|discriminate].
  assert (cursor < length source) by (apply nth_error_Some; congruence).
  destruct (Ascii.eqb ch ch_backslash).
  - destruct (length source <=? S cursor); [discriminate|].
    unfold string_at. destruct (nth_error str (S cursor)) as [c|]; cbn [bind].
    + destruct (Ascii.eqb c "u"); [discriminate|].
      destruct (escapes c); [|discriminate]. apply IH. lia.
    + destruct (S cursor =? length str); [|discriminate].
      vm_compute. discriminate.
  - destruct (Ascii.eqb ch ch_quote); [discriminate|]. apply IH. lia.
Qed.

Lemma parseString_terminates : forall fuel source cursor,
  length source - cursor <= fuel ->
  terminates (parseString fuel source cursor).
Proof.
  intros fuel source cursor Hfuel. unfold parseString.
  destruct (nth_error source cursor) as [ch|] eqn:E; [|discriminate].
  assert (cursor < length source) by (apply nth_error_Some; congruence).
  destruct (Ascii.eqb ch ch_quote); [|discriminate].
  apply parseString_loop_terminates. lia.
Qed.

Section Termination.

Variable from_chars : text -> Number -> nat * errc * Number.
Variable source : text.

(** A sub-parser that returns a value has moved the cursor forward,
    inside the buffer; the loops of [parseArray] and [parseObject] never
    move it back. *)
Lemma parse_progress : forall fuel,
  (forall cursor v stop,
      parseValue from_chars fuel source cursor = Ret (Ok v, stop) ->
      cursor < stop <= length source)
  /\ (forall cursor values v stop,
      cursor <= length source ->
      parseArray from_chars fuel source cursor values = Ret (Ok v, stop) ->
      cursor <= stop <= length source)
  /\ (forall cursor obj v stop,
      cursor <= length source ->
      parseObject from_chars fuel source cursor obj = Ret (Ok v, stop) ->
      cursor <= stop <= length source).
Proof.
  induction fuel as [|fuel [IHv [IHa IHo]]].
  - repeat split; intros; discriminate.
  - split; [|split].
    + intros cursor v stop H. cbn [parseValue] in H.
      pose proof (skipWhitespace_spec source cursor) as [Hws _].
      destruct (nth_error source (skipWhitespace source cursor))
        as [ch|] eqn:E; [|discriminate].
      assert (skipWhitespace source cursor < length source)
        by (apply nth_error_Some; congruence).
      destruct (Ascii.eqb ch "{").
      { apply IHo in H; lia. }
      destruct (Ascii.eqb ch "[").
      { apply IHa in H; lia. }
      destruct (Ascii.eqb ch ch_quote).
      { destruct (parseString fuel source (skipWhitespace source cursor))
          as [[[s|e] c1]|f] eqn:Es; simpl in H; try discriminate.
        inversion H; subst. apply parseString_progress in Es. lia. }
      destruct (parseLiteral from_chars source (skipWhitespace source cursor))
        as [[v'|e] c1] eqn:El; inversion H; subst.
      apply parseLiteral_progress in El; [|lia].
      destruct (scan_end_spec source (skipWhitespace source cursor)); lia.
    + intros cursor values v stop Hle H. cbn [parseArray] in H.
      destruct (cursor <? length source); [|inversion H; subst; lia].
      pose proof (skipWhitespace_spec source cursor) as [Hws _].
      destruct (nth_error source (skipWhitespace source cursor))
        as [ch|] eqn:E; [|discriminate].
      assert (skipWhitespace source cursor < length source)
        by (apply nth_error_Some; congruence).
      destruct (Ascii.eqb ch "]"); [inversion H; subst; lia|].
      destruct (parseValue from_chars fuel source
                  (skipWhitespace source cursor))
        as [[[value|e] c1]|f] eqn:Ev; simpl in H; try discriminate.
      apply IHv in Ev.
      pose proof (skipSeparator_bounds source c1) as [Hs1 Hs2].
      destruct (skipSeparator source c1) as [found c2]; simpl in Hs1, Hs2.
      unfold peek_is in H.
      destruct (nth_error source c2) as [ch2|] eqn:E2.
      * assert (c2 < length source) by (apply nth_error_Some; congruence).
        destruct (Ascii.eqb ch2 "]"); [inversion H; subst; lia|].
        destruct found; [|discriminate]. apply IHa in H; lia.
      * destruct found; [|discriminate]. apply IHa in H; lia.
    + intros cursor obj v stop Hle H. cbn [parseObject] in H.
      destruct (cursor <? length source); [|inversion H; subst; lia].
      pose proof (skipWhitespace_spec source cursor) as [Hws _].
      destruct (nth_error source (skipWhitespace source cursor))
        as [ch|] eqn:E; [|discriminate].
      assert (skipWhitespace source cursor < length source)
        by (apply nth_error_Some; congruence).
      destruct (Ascii.eqb ch "}"); [inversion H; subst; lia|].
      destruct (negb (Ascii.eqb ch ch_quote)); [discriminate|].
      destruct (parseString fuel source (skipWhitespace source cursor))
        as [[[key|e] c1]|f] eqn:Es; simpl in H; try discriminate.
      apply parseString_progress in Es.
      pose proof (skipWhitespace_spec source c1) as [Hws1 _].
      unfold peek_is in H.
      destruct (nth_error source (skipWhitespace source c1))
        as [ch1|] eqn:E1; simpl in H; [|discriminate].
      assert (skipWhitespace source c1 < length source)
        by (apply nth_error_Some; congruence).
      destruct (negb (Ascii.eqb ch1 ":")); [discriminate|].
      pose proof (skipWhitespace_spec source (S (skipWhitespace source c1)))
        as [Hws2 _].
      destruct (length source <=? _); [discriminate|].
      destruct (parseValue from_chars fuel source _)
        as [[[value|e] c3]|f] eqn:Ev; simpl in H; try discriminate.
      apply IHv in Ev.
      pose proof (skipSeparator_bounds source c3) as [Hs1 Hs2].
      destruct (skipSeparator source c3) as [found c4]; simpl in Hs1, Hs2.
      destruct (nth_error source c4) as [ch4|] eqn:E4.
      * assert (c4 < length source) by (apply nth_error_Some; congruence).
        destruct (Ascii.eqb ch4 "}"); [inversion H; subst; lia|].
        destruct found; [|discriminate]. apply IHo in H; lia.
      * destruct found; [|discriminate]. apply IHo in H; lia.
Qed.

Lemma terminates_bind : forall (A B : Type) (m : exec A) (k : A -> exec B),
  terminates m -> (forall a, m = Ret a -> terminates (k a)) ->
  terminates (bind m k).
Proof.
  intros A B m k Hm Hk. destruct m as [a|f]; simpl.
  - now apply Hk.
  - unfold terminates in *. intros Hf. apply Hm. congruence.
Qed.

(** Two units of fuel for each character still ahead are enough. *)
Lemma parse_fuel_enough : forall fuel,
  (forall cursor,
      2 * (length source - cursor) + 1 <= fuel ->
      terminates (parseValue from_chars fuel source cursor))
  /\ (forall cursor values,
      2 * (length source - cursor) + 2 <= fuel ->
      terminates (parseArray from_chars fuel source cursor values))
  /\ (forall cursor obj,
      2 * (length source - cursor) + 2 <= fuel ->
      terminates (parseObject from_chars fuel source cursor obj)).
Proof.
  induction fuel as [|fuel [IHv [IHa IHo]]].
  - repeat split; intros; lia.
  - split; [|split].
    + intros cursor Hfuel. cbn [parseValue].
      pose proof (skipWhitespace_spec source cursor) as [Hws _].
      destruct (nth_error source (skipWhitespace source cursor))
        as [ch|] eqn:E; [|discriminate].
      assert (skipWhitespace source cursor < length source)
        by (apply nth_error_Some; congruence).
      destruct (Ascii.eqb ch "{"); [apply IHo; lia|].
      destruct (Ascii.eqb ch "["); [apply IHa; lia|].
      destruct (Ascii.eqb ch ch_quote); [|discriminate].
      apply terminates_bind.
      * apply parseString_terminates. lia.
      * intros [[s|e] c1] _; discriminate.
    + intros cursor values Hfuel. cbn [parseArray].
      destruct (cursor <? length source); [|discriminate].
      pose proof (skipWhitespace_spec source cursor) as [Hws _].
      destruct (nth_error source (skipWhitespace source cursor))
        as [ch|] eqn:E; [|discriminate].
      assert (skipWhitespace source cursor < length source)
        by (apply nth_error_Some; congruence).
      destruct (Ascii.eqb ch "]"); [discriminate|].
      apply terminates_bind; [apply IHv; lia|].
      intros [[value|e] c1] Ev; [|discriminate].
      apply (parse_progress fuel) in Ev.
      pose proof (skipSeparator_bounds source c1) as [Hs1 _].
      destruct (skipSeparator source c1) as [found c2]; simpl in Hs1.
      destruct (peek_is source c2 "]"); [discriminate|].
      destruct found; [|discriminate]. apply IHa. lia.
    + intros cursor obj Hfuel. cbn [parseObject].
      destruct (cursor <? length source); [|discriminate].
      pose proof (skipWhitespace_spec source cursor) as [Hws _].
      destruct (nth_error source (skipWhitespace source cursor))
        as [ch|] eqn:E; [|discriminate].
      assert (skipWhitespace source cursor < length source)
        by (apply nth_error_Some; congruence).
      destruct (Ascii.eqb ch "}"); [discriminate|].
      destruct (negb (Ascii.eqb ch ch_quote)); [discriminate|].
      apply terminates_bind; [apply parseString_terminates; lia|].
      intros [[key|e] c1] Es; [|discriminate].
      apply parseString_progress in Es.
      pose proof (skipWhitespace_spec source c1) as [Hws1 _].
      destruct (negb (peek_is source (skipWhitespace source c1) ":"));
        [discriminate|].
      pose proof (skipWhitespace_spec source (S (skipWhitespace source c1)))
        as [Hws2 _].
      destruct (length source <=? _); [discriminate|].
      apply terminates_bind; [apply IHv; lia|].
      intros [[value|e] c3] Ev; [|discriminate].
      apply (parse_progress fuel) in Ev.
      pose proof (skipSeparator_bounds source c3) as [Hs1 _].
      destruct (skipSeparator source c3) as [found c4]; simpl in Hs1.
      destruct (peek_is source c4 "}"); [discriminate|].
      destruct found; [|discriminate]. apply IHo. lia.
Qed.

End Termination.

(** C8. [parse] terminates on every buffer: with two units of fuel for
    each character ahead of the cursor (and one more) [parseValue] never
    stops for lack of fuel, because a sub-parser that returns a value has
    moved the cursor forward by at least one character, inside the buffer,
    and every other branch returns. *)
Theorem parse_terminates : forall from_chars source,
  terminates (parse from_chars source)
  /\ (forall fuel cursor,
        2 * (length source - cursor) + 1 <= fuel ->
        terminates (parseValue from_chars fuel source cursor))
  /\ (forall fuel cursor v stop,
        parseValue from_chars fuel source cursor = Ret (Ok v, stop) ->
        cursor < stop <= length source).
Proof.
  intros from_chars source. split; [|split].
  - unfold parse. apply terminates_bind.
    + apply (parse_fuel_enough from_chars source). unfold parse_fuel. lia.
    + intros [res c] _. discriminate.
  - intros fuel cursor H. now apply (parse_fuel_enough from_chars source).
  - intros fuel cursor v stop H.
    now apply (parse_progress from_chars source fuel) in H.
Qed.

Lemma parse_terminates_witness :
  2 * (length (lit "[1, [2], {}]") - 0) + 1 <= 25
  /\ terminates (parseValue Std.from_chars 25 (lit "[1, [2], {}]") 0).
Proof.
  split; [simpl; lia|].
  apply (parse_terminates Std.from_chars (lit "[1, [2], {}]")). simpl; lia.
Defined.

(** ** More fuel changes no outcome *)

Lemma approx_refl : forall (A : Type) (m : exec A), approx m m.
Proof. intros; now right. Qed.

Lemma approx_bind : forall (A B : Type) (m m' : exec A) (k k' : A -> exec B),
  approx m m' -> (forall a, approx (k a) (k' a)) ->
  approx (bind m k) (bind m' k').
Proof.
  intros A B m m' k k' [->| <-] Hk.
  - now left.
  - destruct m as [a|f]; simpl; [apply Hk | now right].
Qed.

Lemma approx_terminates : forall (A : Type) (m m' : exec A),
  approx m m' -> terminates m -> m' = m.
Proof. intros A m m' [H|H] Ht; [contradiction | now symmetry]. Qed.

Lemma parseString_loop_mono : forall fuel fuel' source cursor str,
  fuel <= fuel' ->
  approx (parseString_loop fuel source cursor str)
         (parseString_loop fuel' source cursor str).
Proof.
  induction fuel as [|fuel IH]; intros fuel' source cursor str Hle.
  - now left.
  - destruct fuel' as [|fuel']; [lia|]. cbn [parseString_loop].
    destruct (nth_error source cursor) as [ch|]; [|apply approx_refl].
    destruct (Ascii.eqb ch ch_backslash).
    + destruct (length source <=? S cursor); [apply approx_refl|].
      apply approx_bind; [apply approx_refl|]. intros c.
      destruct (Ascii.eqb c "u"); [apply approx_refl|].
      destruct (escapes c); [|apply approx_refl]. apply IH. lia.
    + destruct (Ascii.eqb ch ch_quote); [apply approx_refl|]. apply IH. lia.
Qed.

Lemma parseString_mono : forall fuel fuel' source cursor,
  fuel <= fuel' ->
  approx (parseString fuel source cursor) (parseString fuel' source cursor).
Proof.
  intros fuel fuel' source cursor Hle. unfold parseString.
  destruct (nth_error source cursor) as [ch|]; [|apply approx_refl].
  destruct (Ascii.eqb ch ch_quote); [|apply approx_refl].
  now apply parseString_loop_mono.
Qed.

Lemma parse_mono : forall from_chars source fuel,
  (forall fuel' cursor, fuel <= fuel' ->
      approx (parseValue from_chars fuel source cursor)
             (parseValue from_chars fuel' source cursor))
  /\ (forall fuel' cursor values, fuel <= fuel' ->
      approx (parseArray from_chars fuel source cursor values)
             (parseArray from_chars fuel' source cursor values))
  /\ (forall fuel' cursor obj, fuel <= fuel' ->
      approx (parseObject from_chars fuel source cursor obj)
             (parseObject from_chars fuel' source cursor obj)).
Proof.
  intros from_chars source.
  induction fuel as [|fuel [IHv [IHa IHo]]].
  - repeat split; intros; now left.
  - split; [|split].
    + intros [|fuel'] cursor Hle; [lia|]. cbn [parseValue].
      destruct (nth_error source (skipWhitespace source cursor)) as [ch|];
        [|apply approx_refl].
      destruct (Ascii.eqb ch "{"); [apply IHo; lia|].
      destruct (Ascii.eqb ch "["); [apply IHa; lia|].
      destruct (Ascii.eqb ch ch_quote); [|apply approx_refl].
      apply approx_bind; [apply parseString_mono; lia|].
      intros [[s|e] c1]; apply approx_refl.
    + intros [|fuel'] cursor values Hle; [lia|]. cbn [parseArray].
      destruct (cursor <? length source); [|apply approx_refl].
      destruct (nth_error source (skipWhitespace source cursor)) as [ch|];
        [|apply approx_refl].
      destruct (Ascii.eqb ch "]"); [apply approx_refl|].
      apply approx_bind; [apply IHv; lia|].
      intros [[value|e] c1]; [|apply approx_refl].
      destruct (skipSeparator source c1) as [found c2].
      destruct (peek_is source c2 "]"); [apply approx_refl|].
      destruct found; [|apply approx_refl]. apply IHa. lia.
    + intros [|fuel'] cursor obj Hle; [lia|]. cbn [parseObject].
      destruct (cursor <? length source); [|apply approx_refl].
      destruct (nth_error source (skipWhitespace source cursor)) as [ch|];
        [|apply approx_refl].
      destruct (Ascii.eqb ch "}"); [apply approx_refl|].
      destruct (negb (Ascii.eqb ch ch_quote)); [apply approx_refl|].
      apply approx_bind; [apply parseString_mono; lia|].
      intros [[key|e] c1]; [|apply approx_refl].
      destruct (negb (peek_is source (skipWhitespace source c1) ":"));
        [apply approx_refl|].
      destruct (length source <=? _); [apply approx_refl|].
      apply approx_bind; [apply IHv; lia|].
      intros [[value|e] c3]; [|apply approx_refl].
      destruct (skipSeparator source c3) as [found c4].
      destruct (peek_is source c4 "}"); [apply approx_refl|].
      destruct found; [|apply approx_refl]. apply IHo. lia.
Qed.

(** Whatever [parseValue] returns with some fuel is what [parse]
    returns. *)
Lemma parse_of_parseValue : forall from_chars source fuel res stop,
  parseValue from_chars fuel source 0 = Ret (res, stop) ->
  parse from_chars source = Ret res.
Proof.
  intros from_chars source fuel res stop H. unfold parse.
  set (big := Nat.max fuel (parse_fuel source)).
  assert (Hbig : parseValue from_chars big source 0 = Ret (res, stop)).
  { destruct (parse_mono from_chars source fuel) as [Hv _].
    rewrite (approx_terminates _ _ _ (Hv big 0 (Nat.le_max_l _ _)));
      [exact H | rewrite H; discriminate]. }
  destruct (parse_mono from_chars source (parse_fuel source)) as [Hv _].
  destruct (Hv big 0 (Nat.le_max_r _ _)) as [Hoof|Heq].
  - exfalso. apply (parse_fuel_enough from_chars source (parse_fuel source))
      with (cursor := 0); [unfold parse_fuel; lia | exact Hoof].
  - rewrite Heq, Hbig. reflexivity.
Qed.

(** ** Buffers seen from the cursor *)

Lemma skipn_head : forall (s : text) c x r,
  skipn c s = x :: r -> nth_error s c = Some x.
Proof.
  intros s c x r H. rewrite <- (Nat.add_0_r c).
  rewrite <- nth_error_skipn_shift. now rewrite H.
Qed.

Lemma skipn_nil : forall (s : text) c,
  skipn c s = [] -> nth_error s c = None.
Proof.
  intros s c H. rewrite <- (Nat.add_0_r c).
  rewrite <- nth_error_skipn_shift. now rewrite H.
Qed.

Lemma skipn_advance : forall (s : text) c a r,
  skipn c s = a ++ r -> skipn (c + length a) s = r.
Proof.
  intros s c a r H. rewrite Nat.add_comm, <- skipn_skipn, H.
  now rewrite skipn_app, skipn_all, Nat.sub_diag.
Qed.

Lemma skipn_nth : forall (s : text) c a r i,
  skipn c s = a ++ r -> i < length a ->
  nth_error s (c + i) = nth_error a i.
Proof.
  intros s c a r i H Hi. rewrite <- nth_error_skipn_shift, H.
  now apply nth_error_app1.
Qed.

Lemma skipn_in_range : forall (s : text) c x r,
  skipn c s = x :: r -> c < length s.
Proof.
  intros s c x r H. apply nth_error_Some. erewrite skipn_head; eauto.
  discriminate.
Qed.

Lemma skipWhitespace_suffix : forall source cursor w r,
  skipn cursor source = w ++ r ->
  forallb isWhitespace w = true ->
  not_ws_head r ->
  skipWhitespace source cursor = cursor + length w.
Proof.
  intros source cursor w r H Hw Hr. apply skipWhitespace_unique.
  - lia.
  - intros i Hi. unfold peek_ws.
    replace i with (cursor + (i - cursor)) by lia.
    rewrite (skipn_nth _ _ _ _ _ H) by lia.
    destruct (nth_error w (i - cursor)) as [ch|] eqn:E.
    + rewrite forallb_forall in Hw. apply Hw. eapply nth_error_In; eauto.
    + apply nth_error_None in E. lia.
  - apply skipn_advance in H. unfold peek_ws.
    destruct r as [|ch r].
    + now rewrite (skipn_nil _ _ H).
    + now rewrite (skipn_head _ _ _ _ H).
Qed.

Lemma skipWhitespace_stay : forall source cursor r,
  skipn cursor source = r -> not_ws_head r ->
  skipWhitespace source cursor = cursor.
Proof.
  intros source cursor r H Hr.
  rewrite (skipWhitespace_suffix source cursor [] r); simpl; auto.
Qed.

Lemma scan_end_suffix : forall source cursor tok r,
  skipn cursor source = tok ++ r ->
  tok <> [] ->
  forallb (fun c => in_chars c valueChars) tok = true ->
  stops_scan r ->
  scan_end source cursor = cursor + length tok.
Proof.
  intros source cursor tok r H Hne Htok Hr. apply scan_end_unique.
  - lia.
  - destruct (Nat.le_gt_cases cursor (length source)) as [Hle|Hgt]; [exact Hle|].
    rewrite skipn_all2 in H by lia.
    symmetry in H. apply app_eq_nil in H. destruct H. contradiction.
  - intros i Hi. unfold peek_value.
    replace i with (cursor + (i - cursor)) by lia.
    rewrite (skipn_nth _ _ _ _ _ H) by lia.
    destruct (nth_error tok (i - cursor)) as [ch|] eqn:E.
    + rewrite forallb_forall in Htok. apply Htok. eapply nth_error_In; eauto.
    + apply nth_error_None in E. lia.
  - apply skipn_advance in H. unfold peek_value.
    destruct r as [|ch r].
    + now rewrite (skipn_nil _ _ H).
    + now rewrite (skipn_head _ _ _ _ H).
Qed.

Lemma substr_suffix : forall source cursor tok r,
  skipn cursor source = tok ++ r ->
  substr source cursor (length tok) = tok.
Proof.
  intros source cursor tok r H. unfold substr. rewrite H.
  now rewrite firstn_app, firstn_all, Nat.sub_diag, firstn_O, app_nil_r.
Qed.

Lemma text_eqb_eq : forall a b, text_eqb a b = true <-> a = b.
Proof.
  intros a b. unfold text_eqb.
  destruct (list_eq_dec ascii_dec a b); split; congruence.
Qed.

Lemma text_eqb_neq : forall a b, a <> b -> text_eqb a b = false.
Proof.
  intros a b H. unfold text_eqb.
  destruct (list_eq_dec ascii_dec a b); congruence.
Qed.

(** The literal branch on a buffer that holds a whole token there. *)
Lemma parseLiteral_suffix : forall from_chars source cursor tok r,
  skipn cursor source = tok ++ r ->
  tok <> [] ->
  forallb (fun c => in_chars c valueChars) tok = true ->
  stops_scan r ->
  parseLiteral from_chars source cursor =
    if text_eqb tok (lit "null") then (Ok Null, cursor + length tok)
    else if text_eqb tok (lit "true") then (Ok (Bool true), cursor + length tok)
    else if text_eqb tok (lit "false") then
      (Ok (Bool false), cursor + length tok)
    else
      match parseNumber from_chars tok with
      | None => (Err (mkError cursor "Invalid number"), cursor)
      | Some number => (Ok (Num number), cursor + length tok)
      end.
Proof.
  intros from_chars source cursor tok r H Hne Htok Hr.
  rewrite parseLiteral_token. cbv zeta.
  rewrite (scan_end_suffix _ _ _ _ H Hne Htok Hr).
  replace (cursor + length tok - cursor) with (length tok) by lia.
  rewrite (substr_suffix _ _ _ _ H).
  destruct tok as [|x tok]; [congruence|]. reflexivity.
Qed.

(** The loop of [parseString] over plain characters up to the closing
    quotation mark. *)
Lemma parseString_loop_plain : forall body fuel source cursor str r,
  skipn cursor source = body ++ ch_quote :: r ->
  plain_text body = true ->
  length body < fuel ->
  parseString_loop fuel source cursor str
  = Ret (Ok (str ++ body), cursor + length body + 1).
Proof.
  induction body as [|ch body IH]; intros fuel source cursor str r H Hp Hf.
  - destruct fuel as [|fuel]; [simpl in Hf; lia|]. cbn [parseString_loop].
    rewrite (skipn_head _ _ _ _ H). simpl.
    rewrite app_nil_r. do 2 f_equal. lia.
  - destruct fuel as [|fuel]; [simpl in Hf; lia|]. cbn [parseString_loop].
    rewrite (skipn_head _ _ _ _ H).
    simpl in Hp. apply andb_prop in Hp as [Hch Hp].
    unfold plain_char in Hch.
    apply andb_prop in Hch as [Hch _]. apply andb_prop in Hch as [Hq Hb].
    apply negb_true_iff in Hq, Hb. rewrite Hb, Hq.
    rewrite (IH fuel source (S cursor) (str ++ [ch]) r).
    + rewrite <- app_assoc. simpl. do 2 f_equal. lia.
    + apply (skipn_advance source cursor [ch]) in H.
      now replace (S cursor) with (cursor + length [ch]) by (simpl; lia).
    + exact Hp.
    + simpl in Hf. lia.
Qed.

Lemma parseString_plain : forall body fuel source cursor r,
  skipn cursor source = ch_quote :: body ++ ch_quote :: r ->
  plain_text body = true ->
  length body < fuel ->
  parseString fuel source cursor
  = Ret (Ok body, cursor + length body + 2).
Proof.
  intros body fuel source cursor r H Hp Hf. unfold parseString.
  rewrite (skipn_head _ _ _ _ H). simpl.
  rewrite (parseString_loop_plain body fuel source (S cursor) [] r); auto.
  - simpl. do 2 f_equal. lia.
  - apply (skipn_advance source cursor [ch_quote]) in H.
    now replace (S cursor) with (cursor + length [ch_quote]) by (simpl; lia).
Qed.

Lemma peek_is_head : forall source cursor x r c,
  skipn cursor source = x :: r -> peek_is source cursor c = Ascii.eqb x c.
Proof.
  intros source cursor x r c H. unfold peek_is.
  now rewrite (skipn_head _ _ _ _ H).
Qed.

Lemma skipSeparator_none : forall source cursor w x r,
  skipn cursor source = w ++ x :: r ->
  forallb isWhitespace w = true ->
  isWhitespace x = false ->
  Ascii.eqb x "," = false ->
  skipSeparator source cursor = (false, cursor + length w).
Proof.
  intros source cursor w x r H Hw Hx Hc. unfold skipSeparator.
  rewrite (skipWhitespace_suffix _ _ _ _ H Hw Hx).
  apply skipn_advance in H. now rewrite (peek_is_head _ _ _ _ _ H), Hc.
Qed.

Lemma skipSeparator_comma : forall source cursor w r,
  skipn cursor source = lit "," ++ w ++ r ->
  forallb isWhitespace w = true ->
  not_ws_head r ->
  skipSeparator source cursor = (true, cursor + 1 + length w).
Proof.
  intros source cursor w r H Hw Hr. unfold skipSeparator.
  rewrite (skipWhitespace_stay _ _ _ H) by reflexivity.
  rewrite (peek_is_head _ _ _ _ _ H). simpl.
  apply (skipn_advance source cursor (lit ",")) in H. simpl in H.
  replace (S cursor) with (cursor + 1) by lia.
  now rewrite (skipWhitespace_suffix _ _ _ _ H Hw Hr).
Qed.

(** ** Fuel can be raised *)

Lemma parseString_fuel_le : forall fuel fuel' source cursor x,
  parseString fuel source cursor = Ret x -> fuel <= fuel' ->
  parseString fuel' source cursor = Ret x.
Proof.
  intros fuel fuel' source cursor x H Hle.
  rewrite (approx_terminates _ _ _ (parseString_mono _ _ source cursor Hle));
    [exact H | rewrite H; discriminate].
Qed.

Lemma parseValue_fuel_le : forall from_chars fuel fuel' source cursor x,
  parseValue from_chars fuel source cursor = Ret x -> fuel <= fuel' ->
  parseValue from_chars fuel' source cursor = Ret x.
Proof.
  intros from_chars fuel fuel' source cursor x H Hle.
  destruct (parse_mono from_chars source fuel) as [Hv _].
  rewrite (approx_terminates _ _ _ (Hv fuel' cursor Hle));
    [exact H | rewrite H; discriminate].
Qed.

Lemma parseArray_fuel_le : forall from_chars fuel fuel' source cursor values x,
  parseArray from_chars fuel source cursor values = Ret x -> fuel <= fuel' ->
  parseArray from_chars fuel' source cursor values = Ret x.
Proof.
  intros from_chars fuel fuel' source cursor values x H Hle.
  destruct (parse_mono from_chars source fuel) as [_ [Ha _]].
  rewrite (approx_terminates _ _ _ (Ha fuel' cursor values Hle));
    [exact H | rewrite H; discriminate].
Qed.

Lemma parseObject_fuel_le : forall from_chars fuel fuel' source cursor obj x,
  parseObject from_chars fuel source cursor obj = Ret x -> fuel <= fuel' ->
  parseObject from_chars fuel' source cursor obj = Ret x.
Proof.
  intros from_chars fuel fuel' source cursor obj x H Hle.
  destruct (parse_mono from_chars source fuel) as [_ [_ Ho]].
  rewrite (approx_terminates _ _ _ (Ho fuel' cursor obj Hle));
    [exact H | rewrite H; discriminate].
Qed.

(** ** The text [dump] writes *)

Lemma dump_elements_acc : forall dump_value indentStr indent n rest i ret,
  dump_elements dump_value indentStr indent n i rest ret
  = (t <- dump_elements dump_value indentStr indent n i rest [] ;;
     Ret (ret ++ t)).
Proof.
  intros dump_value indentStr indent n.
  induction rest as [|x rest IH]; intros i ret; simpl.
  - now rewrite app_nil_r.
  - destruct (dump_value x) as [d|f]; simpl; [|reflexivity].
    rewrite IH. symmetry. rewrite IH. symmetry.
    destruct (dump_elements dump_value indentStr indent n (S i) rest [])
      as [t|f]; simpl; [|reflexivity].
    destruct (i <? n - 1); repeat rewrite <- app_assoc; reflexivity.
Qed.

Lemma dump_members_acc : forall dump_value indentStr indent n rest idx ret,
  dump_members dump_value indentStr indent n idx rest ret
  = (t <- dump_members dump_value indentStr indent n idx rest [] ;;
     Ret (ret ++ t)).
Proof.
  intros dump_value indentStr indent n.
  induction rest as [|[key x] rest IH]; intros idx ret; simpl.
  - now rewrite app_nil_r.
  - destruct (dump_value x) as [d|f]; simpl; [|reflexivity].
    rewrite IH. symmetry. rewrite IH. symmetry.
    destruct (dump_members dump_value indentStr indent n (S idx) rest [])
      as [t|f]; simpl; [|reflexivity].
    destruct (idx <? n - 1); repeat rewrite <- app_assoc; reflexivity.
Qed.

Lemma dump_elements_text : forall dump_value indentStr indent n rest ds,
  Forall2 (fun x d => dump_value x = Ret d) rest ds ->
  forall i, i + length rest = n ->
  dump_elements dump_value indentStr indent n i rest []
  = Ret (lines_text indentStr indent ds).
Proof.
  intros dump_value indentStr indent n rest ds H.
  induction H as [|x d rest ds Hd Hrest IH]; intros i Hi.
  - reflexivity.
  - cbn [dump_elements]. rewrite Hd. cbn [bind].
    rewrite dump_elements_acc, (IH (S i)) by (simpl in Hi; lia).
    cbn [bind]. f_equal. simpl in Hi.
    destruct Hrest as [|x' d' rest' ds' Hd' Hrest'].
    + replace (i <? n - 1) with false by (symmetry; apply Nat.ltb_ge; simpl in Hi; lia).
      simpl. repeat rewrite <- app_assoc. now rewrite app_nil_r.
    + replace (i <? n - 1) with true
        by (symmetry; apply Nat.ltb_lt; simpl in Hi; lia).
      simpl. repeat rewrite <- app_assoc. reflexivity.
Qed.

Lemma dump_members_text : forall dump_value indentStr indent n rest ds,
  Forall2 (fun m d => dump_value (snd m) = Ret d) rest ds ->
  forall idx, idx + length rest = n ->
  dump_members dump_value indentStr indent n idx rest []
  = Ret (lines_text indentStr indent
           (map (fun md => member_text (fst (fst md)) (snd md))
                (combine rest ds))).
Proof.
  intros dump_value indentStr indent n rest ds H.
  induction H as [|[key x] d rest ds Hd Hrest IH]; intros idx Hi.
  - reflexivity.
  - cbn [dump_members]. simpl in Hd. rewrite Hd. cbn [bind].
    rewrite dump_members_acc, (IH (S idx)) by (simpl in Hi; lia).
    cbn [bind]. f_equal. simpl in Hi.
    destruct Hrest as [|[key' x'] d' rest' ds' Hd' Hrest'].
    + replace (idx <? n - 1) with false by (symmetry; apply Nat.ltb_ge; simpl in Hi; lia).
      simpl. unfold member_text.
      repeat (rewrite <- app_assoc; simpl). reflexivity.
    + replace (idx <? n - 1) with true
        by (symmetry; apply Nat.ltb_lt; simpl in Hi; lia).
      simpl. unfold member_text.
      repeat (rewrite <- app_assoc; simpl). reflexivity.
Qed.

(** ** Reading back the lines of an array *)

Lemma stops_scan_tail_text : forall indentStr indent items r,
  stops_scan (tail_text indentStr indent items ++ r).
Proof. intros indentStr indent [|item items] r; reflexivity. Qed.

Lemma skipn_nonempty_in_range : forall (s : text) c,
  skipn c s <> [] -> c < length s.
Proof.
  intros s c H. destruct (skipn c s) as [|x r] eqn:E; [congruence|].
  eapply skipn_in_range; eauto.
Qed.

Ltac len := repeat first [rewrite length_app | progress simpl]; lia.

Lemma parseArray_lines : forall from_chars indentStr indent,
  forallb isWhitespace indentStr = true ->
  forallb isWhitespace indent = true ->
  forall rest ds,
  Forall2 (parses_back from_chars) rest ds ->
  forall x d values source cursor w r,
  parses_back from_chars x d ->
  forallb isWhitespace w = true ->
  skipn cursor source
  = w ++ d ++ tail_text indentStr indent ds ++ indentStr ++ lit "]" ++ r ->
  exists fuel,
    parseArray from_chars fuel source cursor values
    = Ret (Ok (Array (values ++ x :: rest)),
           cursor
           + length (w ++ d ++ tail_text indentStr indent ds ++ indentStr) + 1).
Proof.
  intros from_chars indentStr indent Hws1 Hws2 rest ds Hall.
  induction Hall as [|x' d' rest ds Hx' Hall IH];
    intros x d values source cursor w r [Hclean Hback] Hw H.
  - (* the last element *)
    destruct d as [|ch d0]; [contradiction|]. destruct Hclean as [Hnws Hnb].
    assert (Hsw : skipWhitespace source cursor = cursor + length w)
      by (apply (skipWhitespace_suffix _ _ _ _ H Hw); exact Hnws).
    pose proof (skipn_advance _ _ _ _ H) as H1.
    destruct (Hback source (cursor + length w) _ H1) as [f1 Hv];
      [apply stops_scan_tail_text|].
    pose proof (skipn_advance _ _ _ _ H1) as H2.
    simpl tail_text in H2.
    assert (Hsep : skipSeparator source (cursor + length w + length (ch :: d0))
                   = (false, cursor + length w + length (ch :: d0)
                             + length (ch_nl :: indentStr))).
    { apply (skipSeparator_none _ _ (ch_nl :: indentStr) "]" r).
      - exact H2.
      - cbn [forallb]. rewrite Hws1. reflexivity.
      - reflexivity.
      - reflexivity. }
    assert (H3 : skipn (cursor + length w + length (ch :: d0)
                        + length (ch_nl :: indentStr)) source = lit "]" ++ r).
    { apply (skipn_advance _ _ (ch_nl :: indentStr)). exact H2. }
    exists (S f1). cbn [parseArray].
    replace (cursor <? length source) with true.
    2:{ symmetry. apply Nat.ltb_lt. apply skipn_nonempty_in_range.
        rewrite H. destruct w; discriminate. }
    rewrite Hsw, (skipn_head _ _ _ _ H1), Hnb, Hv. cbn [bind].
    rewrite Hsep, (peek_is_head _ _ _ _ _ H3). simpl Ascii.eqb. cbv iota.
    do 2 f_equal. len.
  - (* an element followed by a comma *)
    destruct d as [|ch d0]; [contradiction|]. destruct Hclean as [Hnws Hnb].
    assert (Hsw : skipWhitespace source cursor = cursor + length w)
      by (apply (skipWhitespace_suffix _ _ _ _ H Hw); exact Hnws).
    pose proof (skipn_advance _ _ _ _ H) as H1.
    destruct (Hback source (cursor + length w) _ H1) as [f1 Hv];
      [apply stops_scan_tail_text|].
    pose proof (skipn_advance _ _ _ _ H1) as H2.
    cbn [tail_text] in H2. repeat rewrite <- app_assoc in H2.
    destruct Hx' as [Hclean' Hback'].
    destruct d' as [|ch' d0']; [contradiction|].
    destruct Hclean' as [Hnws' Hnb'].
    assert (Hsep : skipSeparator source (cursor + length w + length (ch :: d0))
                   = (true, cursor + length w + length (ch :: d0) + 1
                            + length ([ch_nl] ++ indentStr ++ indent))).
    { apply (skipSeparator_comma _ _ _
               ((ch' :: d0') ++ tail_text indentStr indent ds
                ++ indentStr ++ lit "]" ++ r)).
      - rewrite H2. repeat rewrite <- app_assoc. reflexivity.
      - simpl. rewrite forallb_app. now rewrite Hws1, Hws2.
      - exact Hnws'. }
    set (c3 := cursor + length w + length (ch :: d0) + 1
               + length ([ch_nl] ++ indentStr ++ indent)) in *.
    assert (H3 : skipn c3 source
                 = [] ++ (ch' :: d0') ++ tail_text indentStr indent ds
                   ++ indentStr ++ lit "]" ++ r).
    { unfold c3.
      apply (skipn_advance _ _ ([ch_nl] ++ indentStr ++ indent)).
      replace (cursor + length w + length (ch :: d0) + 1)
        with (cursor + length w + length (ch :: d0) + length (lit ","))
        by (simpl; lia).
      apply (skipn_advance _ _ (lit ",")).
      rewrite H2. repeat rewrite <- app_assoc. reflexivity. }
    destruct (IH x' (ch' :: d0') (values ++ [x]) source c3 [] r)
      as [f2 Ha]; [split; [split|]; assumption | reflexivity | exact H3 | ].
    clear IH.
    exists (S (Nat.max f1 f2)). cbn [parseArray].
    replace (cursor <? length source) with true.
    2:{ symmetry. apply Nat.ltb_lt. apply skipn_nonempty_in_range.
        rewrite H. destruct w; discriminate. }
    rewrite Hsw, (skipn_head _ _ _ _ H1), Hnb.
    rewrite (parseValue_fuel_le _ _ _ _ _ _ Hv (Nat.le_max_l f1 f2)).
    cbn [bind]. rewrite Hsep.
    simpl app in H3. rewrite (peek_is_head _ _ _ _ _ H3), Hnb'.
    rewrite (parseArray_fuel_le _ _ _ _ _ _ _ Ha (Nat.le_max_r f1 f2)).
    rewrite <- app_assoc. simpl app. do 2 f_equal.
    unfold c3. cbn [tail_text]. len.
Qed.

(** ** Keys in order *)

Lemma key_compare_antisym : forall a b,
  key_compare a b = CompOpp (key_compare b a).
Proof.
  induction a as [|x a IH]; intros [|y b]; simpl; try reflexivity.
  rewrite (Nat.compare_antisym (nat_of_ascii x) (nat_of_ascii y)).
  destruct (Nat.compare (nat_of_ascii x) (nat_of_ascii y)); simpl; auto.
Qed.

(** A key above all the keys of the map is emplaced at its end. *)
Lemma emplace_last : forall key value obj,
  Forall (fun m => key_lt m (key, value)) obj ->
  emplace key value obj = obj ++ [(key, value)].
Proof.
  intros key value obj H. induction H as [|[k v] rest Hk Hrest IH]; simpl.
  - reflexivity.
  - unfold key_lt in Hk. simpl in Hk.
    rewrite key_compare_antisym, Hk. simpl. now rewrite IH.
Qed.

Lemma StronglySorted_middle : forall (l1 l2 : list (text * JsonValue)) a,
  StronglySorted key_lt (l1 ++ a :: l2) ->
  Forall (fun m => key_lt m a) l1.
Proof.
  induction l1 as [|x l1 IH]; intros l2 a H; simpl in H.
  - constructor.
  - apply StronglySorted_inv in H as [Hs Hx]. constructor.
    + rewrite Forall_forall in Hx. apply Hx. apply in_or_app. right. now left.
    + now apply (IH l2).
Qed.

(** ** Reading back the lines of an object *)

Lemma skipn_past_key : forall (s : text) c key rest,
  skipn c s = ch_quote :: key ++ ch_quote :: rest ->
  skipn (c + length key + 2) s = rest.
Proof.
  intros s c key rest H.
  replace (c + length key + 2)
    with (c + length (ch_quote :: key ++ [ch_quote])) by len.
  apply skipn_advance. rewrite H. simpl. now rewrite <- app_assoc.
Qed.

Lemma skipn_past_indent : forall (s : text) c indentStr indent rest,
  skipn c s = ch_nl :: indentStr ++ indent ++ rest ->
  skipn (c + length ([ch_nl] ++ indentStr ++ indent)) s = rest.
Proof.
  intros s c indentStr indent rest H.
  apply skipn_advance. rewrite H. simpl. now rewrite <- app_assoc.
Qed.

Lemma parseObject_lines : forall from_chars indentStr indent,
  forallb isWhitespace indentStr = true ->
  forallb isWhitespace indent = true ->
  forall rest ds,
  Forall2 (fun m d => plain_text (fst m) = true
                      /\ parses_back from_chars (snd m) d) rest ds ->
  forall key x d obj source cursor w r,
  plain_text key = true ->
  parses_back from_chars x d ->
  forallb isWhitespace w = true ->
  StronglySorted key_lt (obj ++ (key, x) :: rest) ->
  skipn cursor source
  = w ++ member_text key d
    ++ tail_text indentStr indent
         (map (fun md => member_text (fst (fst md)) (snd md)) (combine rest ds))
    ++ indentStr ++ lit "}" ++ r ->
  exists fuel,
    parseObject from_chars fuel source cursor obj
    = Ret (Ok (Object (obj ++ (key, x) :: rest)),
           cursor
           + length (w ++ member_text key d
                     ++ tail_text indentStr indent
                          (map (fun md => member_text (fst (fst md)) (snd md))
                               (combine rest ds))
                     ++ indentStr) + 1).
Proof.
  intros from_chars indentStr indent Hws1 Hws2 rest ds Hall.
  induction Hall as [|[key' x'] d' rest ds [Hk' Hx'] Hall IH];
    intros key x d obj source cursor w r Hk [Hclean Hback] Hw Hsorted H;
    destruct d as [|ch d0]; try contradiction;
    destruct Hclean as [Hnws Hnb];
    unfold member_text in H; cbn [combine map] in H;
    repeat (rewrite <- app_assoc in H; cbn [app lit list_ascii_of_string] in H);
    pose proof
      (skipWhitespace_suffix source cursor w
         (ch_quote :: key ++ ch_quote :: ":" :: " " :: ch :: d0 ++ _) H Hw
         eq_refl) as Hsw;
    pose proof (skipn_advance _ _ _ _ H) as H1;
    set (c1 := cursor + length w) in *;
    pose proof (parseString_plain key (S (length key)) source c1 _ H1 Hk
                  (Nat.lt_succ_diag_r _)) as Hkey;
    pose proof (skipn_past_key _ _ _ _ H1) as H2;
    set (c2 := c1 + length key + 2) in *;
    pose proof (skipWhitespace_stay source c2 _ H2 eq_refl) as Hsw2;
    pose proof (skipn_advance source c2 [":"%char] _ H2) as H3;
    replace (c2 + length [":"%char]) with (S c2) in H3 by (simpl; lia);
    pose proof (skipWhitespace_suffix source (S c2) [" "%char]
                  (ch :: d0 ++ _) H3 eq_refl Hnws) as Hsw3;
    pose proof (skipn_advance source (S c2) [" "%char] _ H3) as H4;
    set (c4 := S c2 + length [" "%char]) in *;
    destruct (Hback source c4 _ H4) as [f1 Hv];
      try apply stops_scan_tail_text;
    pose proof (skipn_advance source c4 (ch :: d0) _ H4) as H5;
    set (c5 := c4 + length (ch :: d0)) in *;
    pose proof (StronglySorted_middle _ _ _ Hsorted) as Habove;
    assert (Hin : (cursor <? length source) = true)
      by (apply Nat.ltb_lt; apply skipn_nonempty_in_range;
          rewrite H; destruct w; discriminate);
    assert (Hin4 : (length source <=? c4) = false)
      by (apply Nat.leb_gt; eapply skipn_in_range; exact H4).
  - (* the last member *)
    cbn [tail_text] in H5.
    assert (Hsep : skipSeparator source c5
                   = (false, c5 + length (ch_nl :: indentStr))).
    { apply (skipSeparator_none _ _ (ch_nl :: indentStr) "}" r).
      - exact H5.
      - cbn [forallb]. rewrite Hws1. reflexivity.
      - reflexivity.
      - reflexivity. }
    pose proof (skipn_advance source c5 (ch_nl :: indentStr) _ H5) as H6.
    exists (S (Nat.max f1 (S (length key)))). cbn [parseObject].
    rewrite Hin, Hsw, (skipn_head _ _ _ _ H1). simpl Ascii.eqb. cbv iota.
    cbn [negb].
    rewrite (parseString_fuel_le _ _ _ _ _ Hkey (Nat.le_max_r f1 _)).
    cbn [bind]. rewrite Hsw2, (peek_is_head _ _ _ _ _ H2).
    simpl Ascii.eqb. cbn [negb]. rewrite Hsw3. fold c4. rewrite Hin4.
    rewrite (parseValue_fuel_le _ _ _ _ _ _ Hv (Nat.le_max_l f1 _)).
    cbn [bind]. rewrite Hsep, (peek_is_head _ _ _ _ _ H6).
    simpl Ascii.eqb. cbv iota.
    rewrite (emplace_last _ _ _ Habove).
    do 3 f_equal. unfold c5, c4, c2, c1, member_text. len.
  - (* a member followed by a comma *)
    cbn [tail_text] in H5. unfold member_text in H5.
    repeat (rewrite <- app_assoc in H5;
            cbn [app lit list_ascii_of_string fst snd] in H5).
    assert (Hsep : skipSeparator source c5
                   = (true, c5 + 1 + length ([ch_nl] ++ indentStr ++ indent))).
    { eapply (skipSeparator_comma source c5 ([ch_nl] ++ indentStr ++ indent)).
      - cbn [lit list_ascii_of_string app].
        rewrite H5. do 2 f_equal. rewrite <- app_assoc. reflexivity.
      - simpl. rewrite forallb_app. now rewrite Hws1, Hws2.
      - reflexivity. }
    set (c6 := c5 + 1 + length ([ch_nl] ++ indentStr ++ indent)) in *.
    pose proof (skipn_advance source c5 (lit ",") _ H5) as H6.
    replace (c5 + length (lit ",")) with (c5 + 1) in H6 by (simpl; lia).
    pose proof (skipn_past_indent _ _ _ _ _ H6) as H7.
    fold c6 in H7.
    destruct d' as [|ch' d0']; [destruct Hx' as [[] _]|].
    destruct (IH key' x' (ch' :: d0') (obj ++ [(key, x)]) source c6 [] r Hk' Hx'
                eq_refl) as [f2 Ho].
    { rewrite <- app_assoc. exact Hsorted. }
    { cbn [app]. rewrite H7. unfold member_text.
      repeat (rewrite <- app_assoc; cbn [app lit list_ascii_of_string]).
      reflexivity. }
    clear IH.
    exists (S (Nat.max (Nat.max f1 f2) (S (length key)))). cbn [parseObject].
    rewrite Hin, Hsw, (skipn_head _ _ _ _ H1). simpl Ascii.eqb. cbv iota.
    cbn [negb].
    rewrite (parseString_fuel_le _ _ _ _ _ Hkey (Nat.le_max_r _ _)).
    cbn [bind]. rewrite Hsw2, (peek_is_head _ _ _ _ _ H2).
    simpl Ascii.eqb. cbn [negb]. rewrite Hsw3. fold c4. rewrite Hin4.
    rewrite (parseValue_fuel_le _ _ _ _ _ _ Hv
               (Nat.le_trans _ _ _ (Nat.le_max_l f1 f2) (Nat.le_max_l _ _))).
    cbn [bind]. rewrite Hsep, (peek_is_head _ _ _ _ _ H7).
    simpl Ascii.eqb. cbv iota.
    rewrite (emplace_last _ _ _ Habove).
    rewrite (parseObject_fuel_le _ _ _ _ _ _ _ Ho
               (Nat.le_trans _ _ _ (Nat.le_max_r f1 f2) (Nat.le_max_l _ _))).
    rewrite <- app_assoc. cbn [app]. do 2 f_equal.
    unfold c6, c5, c4, c2, c1, member_text. cbn [combine map tail_text fst snd].
    len.
Qed.

(** ** Values, by induction on the tree *)

Lemma JsonValue_tree_ind : forall P : JsonValue -> Prop,
  P Invalid -> P Null -> (forall b, P (Bool b)) -> (forall n, P (Num n)) ->
  (forall s, P (String s)) ->
  (forall arr, Forall P arr -> P (Array arr)) ->
  (forall obj, Forall (fun m => P (snd m)) obj -> P (Object obj)) ->
  forall v, P v.
Proof.
  intros P HI HN HB HNum HS HA HO. fix IH 1.
  intros [ | | b | n | s | arr | obj];
    [exact HI | exact HN | apply HB | apply HNum | apply HS | | ].
  - apply HA. induction arr as [|x arr IHarr]; constructor.
    + apply IH.
    + exact IHarr.
  - apply HO. induction obj as [|[key x] obj IHobj]; constructor.
    + apply IH.
    + exact IHobj.
Qed.

Lemma value_char_facts : forall ch,
  in_chars ch valueChars = true ->
  isWhitespace ch = false /\ Ascii.eqb ch "]" = false
  /\ Ascii.eqb ch "{" = false /\ Ascii.eqb ch "[" = false
  /\ Ascii.eqb ch ch_quote = false.
Proof.
  intros [[] [] [] [] [] [] [] []]; vm_compute; intros H;
    try discriminate H; repeat split.
Qed.

Lemma repeat_text_ws : forall indent n,
  forallb isWhitespace indent = true ->
  forallb isWhitespace (repeat_text indent n) = true.
Proof.
  intros indent n H. induction n as [|n IH]; simpl; [reflexivity|].
  rewrite forallb_app. now rewrite H, IH.
Qed.

Section Roundtrip.

Variable from_chars : text -> Number -> nat * errc * Number.
Variable to_string : Number -> text.

Let good := plain_tree (number_survives from_chars to_string).

Lemma literal_parses_back : forall tok v,
  tok <> [] ->
  forallb (fun c => in_chars c valueChars) tok = true ->
  (forall source cursor r,
      skipn cursor source = tok ++ r -> stops_scan r ->
      parseLiteral from_chars source cursor = (Ok v, cursor + length tok)) ->
  parses_back from_chars v tok.
Proof.
  intros tok v Hne Htok Hlit.
  destruct tok as [|ch tok]; [congruence|].
  assert (Hch : in_chars ch valueChars = true)
    by (simpl in Htok; now apply andb_prop in Htok).
  destruct (value_char_facts ch Hch) as [Hws [Hb [Hbrace [Hbracket Hq]]]].
  split; [split; assumption|].
  intros source cursor r H Hr. exists 1. cbn [parseValue].
  rewrite (skipWhitespace_stay _ _ _ H) by exact Hws.
  rewrite (skipn_head _ _ _ _ H), Hbrace, Hbracket, Hq.
  now rewrite (Hlit source cursor r H Hr).
Qed.

Lemma elements_parse_back : forall indent level arr,
  forallb isWhitespace indent = true ->
  Forall (fun x => good x -> forall indent level,
            forallb isWhitespace indent = true ->
            exists d, dump to_string indent level x = Ret d
                      /\ parses_back from_chars x d) arr ->
  good (Array arr) ->
  exists ds,
    Forall2 (fun x d => dump to_string indent level x = Ret d) arr ds
    /\ Forall2 (parses_back from_chars) arr ds.
Proof.
  intros indent level arr Hws HF. induction HF as [|x arr Hx HF IH]; intros Hg.
  - exists []. split; constructor.
  - destruct Hg as [Hgx Hg].
    destruct (Hx Hgx indent level Hws) as [d [Hd Hp]].
    destruct (IH Hg) as [ds [H1 H2]].
    exists (d :: ds). split; constructor; assumption.
Qed.

Lemma members_parse_back : forall indent level obj,
  forallb isWhitespace indent = true ->
  Forall (fun m => good (snd m) -> forall indent level,
            forallb isWhitespace indent = true ->
            exists d, dump to_string indent level (snd m) = Ret d
                      /\ parses_back from_chars (snd m) d) obj ->
  good (Object obj) ->
  StronglySorted key_lt obj
  /\ exists ds,
    Forall2 (fun m d => dump to_string indent level (snd m) = Ret d) obj ds
    /\ Forall2 (fun m d => plain_text (fst m) = true
                           /\ parses_back from_chars (snd m) d) obj ds.
Proof.
  intros indent level obj Hws HF.
  induction HF as [|[key x] obj Hx HF IH]; intros Hg.
  - split; [constructor|]. exists []. split; constructor.
  - destruct Hg as [Hkey [Habove [Hgx Hg]]].
    destruct (Hx Hgx indent level Hws) as [d [Hd Hp]].
    destruct (IH Hg) as [Hsorted [ds [H1 H2]]].
    split; [constructor; assumption|].
    exists (d :: ds). split; constructor; try assumption. now split.
Qed.

(** Every good tree is written to a text that is read back as the tree,
    wherever the text stands. *)
Lemma dump_parses_back : forall v,
  good v ->
  forall indent level,
  forallb isWhitespace indent = true ->
  exists d, dump to_string indent level v = Ret d
            /\ parses_back from_chars v d.
Proof.
  induction v as [ | | b | n | s | arr IHarr | obj IHobj]
    using JsonValue_tree_ind; intros Hg indent level Hws.
  - contradiction.
  - exists (lit "null"). split; [reflexivity|].
    apply literal_parses_back; [discriminate | reflexivity |].
    intros source cursor r H Hr.
    now rewrite (parseLiteral_suffix _ _ _ _ _ H) by
      (try discriminate; try reflexivity; assumption).
  - exists (if b then lit "true" else lit "false"). split; [reflexivity|].
    destruct b;
      (apply literal_parses_back; [discriminate | reflexivity |];
       intros source cursor r H Hr;
       now rewrite (parseLiteral_suffix _ _ _ _ _ H) by
         (try discriminate; try reflexivity; assumption)).
  - exists (to_string n). split; [reflexivity|].
    destruct Hg as [Hne [Htok [Hnull [Htrue [Hfalse Hnum]]]]].
    apply literal_parses_back; [assumption | assumption |].
    intros source cursor r H Hr.
    rewrite (parseLiteral_suffix _ _ _ _ _ H) by assumption.
    rewrite (text_eqb_neq _ _ Hnull), (text_eqb_neq _ _ Htrue),
      (text_eqb_neq _ _ Hfalse), Hnum.
    reflexivity.
  - exists ([ch_quote] ++ s ++ [ch_quote]). split; [reflexivity|].
    split; [split; reflexivity|].
    intros source cursor r H Hr. exists (S (S (length s))). cbn [parseValue].
    rewrite (skipWhitespace_stay _ _ _ H) by reflexivity.
    cbn [app] in H. rewrite <- app_assoc in H. cbn [app] in H.
    rewrite (skipn_head _ _ _ _ H). simpl Ascii.eqb. cbv iota.
    rewrite (parseString_plain s _ source cursor r H Hg) by lia.
    cbn [bind]. do 2 f_equal. len.
  - destruct (elements_parse_back indent (level + 1) arr Hws IHarr Hg)
      as [ds [Hdump Hback]].
    cbn [dump].
    rewrite (dump_elements_acc _ _ _ _ arr 0).
    rewrite (dump_elements_text _ _ _ _ _ _ Hdump 0 eq_refl). cbn [bind].
    eexists. split; [reflexivity|]. split; [split; reflexivity|].
    intros source cursor r H Hr.
    repeat (rewrite <- app_assoc in H; cbn [app lit list_ascii_of_string] in H).
    pose proof (repeat_text_ws indent level Hws) as Hws'.
    set (indentStr := repeat_text indent level) in *.
    pose proof (skipn_advance source cursor ["["%char] _ H) as H1.
    replace (cursor + length ["["%char]) with (S cursor) in H1 by (simpl; lia).
    destruct Hback as [|x d arr ds Hx Hback].
    + (* no element *)
      cbn [lines_text app] in *.
      assert (Hsw : skipWhitespace source (S cursor)
                    = S cursor + length (ch_nl :: indentStr)).
      { apply (skipWhitespace_suffix _ _ (ch_nl :: indentStr) ("]" :: r)%list H1);
          [|reflexivity].
        cbn [forallb]. now rewrite Hws'. }
      pose proof (skipn_advance source (S cursor) (ch_nl :: indentStr) _ H1)
        as H2.
      exists 2. cbn [parseValue parseArray].
      rewrite (skipWhitespace_stay _ _ _ H) by reflexivity.
      rewrite (skipn_head _ _ _ _ H). simpl Ascii.eqb. cbv iota.
      replace (S cursor <? length source) with true
        by (symmetry; apply Nat.ltb_lt; eapply skipn_in_range; exact H1).
      rewrite Hsw, (skipn_head _ _ _ _ H2). simpl Ascii.eqb. cbv iota.
      do 2 f_equal. len.
    + (* the lines of the elements *)
      cbn [lines_text] in *.
      repeat (rewrite <- app_assoc in H1; cbn [app] in H1).
      destruct (parseArray_lines from_chars indentStr indent Hws' Hws
                  arr ds Hback x d [] source (S cursor)
                  (ch_nl :: indentStr ++ indent) r Hx) as [f Ha].
      { cbn [forallb]. rewrite forallb_app. now rewrite Hws', Hws. }
      { rewrite H1. cbn [app]. f_equal.
        repeat rewrite <- app_assoc. reflexivity. }
      exists (S f). cbn [parseValue].
      rewrite (skipWhitespace_stay _ _ _ H) by reflexivity.
      rewrite (skipn_head _ _ _ _ H). simpl Ascii.eqb. cbv iota.
      rewrite Ha. cbn [app]. do 2 f_equal. len.
  - destruct (members_parse_back indent (level + 1) obj Hws IHobj Hg)
      as [Hsorted [ds [Hdump Hback]]].
    cbn [dump].
    rewrite (dump_members_acc _ _ _ _ obj 0).
    rewrite (dump_members_text _ _ _ _ _ _ Hdump 0 eq_refl). cbn [bind].
    eexists. split; [reflexivity|]. split; [split; reflexivity|].
    intros source cursor r H Hr.
    repeat (rewrite <- app_assoc in H; cbn [app lit list_ascii_of_string] in H).
    pose proof (repeat_text_ws indent level Hws) as Hws'.
    set (indentStr := repeat_text indent level) in *.
    pose proof (skipn_advance source cursor ["{"%char] _ H) as H1.
    replace (cursor + length ["{"%char]) with (S cursor) in H1 by (simpl; lia).
    destruct Hback as [|[key x] d obj ds [Hkey Hx] Hback].
    + (* no member *)
      cbn [lines_text combine map app] in *.
      assert (Hsw : skipWhitespace source (S cursor)
                    = S cursor + length (ch_nl :: indentStr)).
      { apply (skipWhitespace_suffix _ _ (ch_nl :: indentStr) ("}" :: r)%list H1);
          [|reflexivity].
        cbn [forallb]. now rewrite Hws'. }
      pose proof (skipn_advance source (S cursor) (ch_nl :: indentStr) _ H1)
        as H2.
      exists 2. cbn [parseValue parseObject].
      rewrite (skipWhitespace_stay _ _ _ H) by reflexivity.
      rewrite (skipn_head _ _ _ _ H). simpl Ascii.eqb. cbv iota.
      replace (S cursor <? length source) with true
        by (symmetry; apply Nat.ltb_lt; eapply skipn_in_range; exact H1).
      rewrite Hsw, (skipn_head _ _ _ _ H2). simpl Ascii.eqb. cbv iota.
      do 2 f_equal. len.
    + (* the lines of the members *)
      cbn [lines_text combine map fst snd] in *.
      repeat (rewrite <- app_assoc in H1; cbn [app] in H1).
      destruct (parseObject_lines from_chars indentStr indent Hws' Hws
                  obj ds Hback key x d [] source (S cursor)
                  (ch_nl :: indentStr ++ indent) r Hkey Hx) as [f Ho].
      { cbn [forallb]. rewrite forallb_app. now rewrite Hws', Hws. }
      { exact Hsorted. }
      { rewrite H1. cbn [app]. f_equal.
        repeat rewrite <- app_assoc. reflexivity. }
      exists (S f). cbn [parseValue].
      rewrite (skipWhitespace_stay _ _ _ H) by reflexivity.
      rewrite (skipn_head _ _ _ _ H). simpl Ascii.eqb. cbv iota.
      rewrite Ho. cbn [app]. do 2 f_equal. len.
Qed.

End Roundtrip.

(** ** The round trip *)

(** The members of a map stay in key order whatever is emplaced, so that
    every [Object] built member by member has its members in key order. *)
Lemma key_compare_trans : forall a b c,
  key_compare a b = Lt -> key_compare b c = Lt -> key_compare a c = Lt.
Proof.
  induction a as [|x a IH]; intros [|y b] [|z c]; simpl; try congruence.
  destruct (Nat.compare_spec (nat_of_ascii x) (nat_of_ascii y)) as [E|L|G];
    try discriminate;
    destruct (Nat.compare_spec (nat_of_ascii y) (nat_of_ascii z)) as [E'|L'|G'];
    try discriminate; intros H1 H2.
  - replace (nat_of_ascii x ?= nat_of_ascii z) with Eq
      by (symmetry; apply Nat.compare_eq_iff; lia).
    now apply (IH b c).
  - replace (nat_of_ascii x ?= nat_of_ascii z) with Lt
      by (symmetry; apply Nat.compare_lt_iff; lia).
    reflexivity.
  - replace (nat_of_ascii x ?= nat_of_ascii z) with Lt
      by (symmetry; apply Nat.compare_lt_iff; lia).
    reflexivity.
  - replace (nat_of_ascii x ?= nat_of_ascii z) with Lt
      by (symmetry; apply Nat.compare_lt_iff; lia).
    reflexivity.
Qed.

Lemma emplace_Forall : forall (P : text * JsonValue -> Prop) key value obj,
  P (key, value) -> Forall P obj -> Forall P (emplace key value obj).
Proof.
  intros P key value obj Hkv H. induction H as [|[k v] rest Hk Hrest IH]; simpl.
  - now constructor.
  - destruct (key_compare key k); repeat constructor; assumption.
Qed.

Lemma emplace_keeps_order : forall key value obj,
  StronglySorted key_lt obj -> StronglySorted key_lt (emplace key value obj).
Proof.
  intros key value obj H. induction H as [|[k v] rest Hs IH Hk]; simpl.
  - repeat constructor.
  - destruct (key_compare key k) eqn:E.
    + now constructor.
    + constructor; [now constructor|]. constructor; [exact E|].
      eapply Forall_impl; [|exact Hk]. intros [k' v'] Hk'.
      unfold key_lt in *. simpl in *. eapply key_compare_trans; eauto.
    + constructor; [exact IH|]. apply emplace_Forall; [|exact Hk].
      unfold key_lt. simpl. rewrite key_compare_antisym, E. reflexivity.
Qed.

Lemma object_of_members_ordered : forall members obj,
  StronglySorted key_lt obj ->
  StronglySorted key_lt
    (fold_left (fun obj m => emplace (fst m) (snd m) obj) members obj).
Proof.
  induction members as [|[key value] members IH]; intros obj H; simpl.
  - exact H.
  - apply IH. now apply emplace_keeps_order.
Qed.

(** C4, as the code has it.  A tree of [Null], [Bool], [Number], [Array],
    [Object] and strings free of quotation marks, backslashes and control
    characters, each of whose numbers is written by [to_string] to a text
    that [from_chars] reads back as that number, is written by [dump],
    with any indentation made of white space, to a text that [parse] reads
    back as the same tree, the members of every [Object] in key order. *)
Theorem roundtrip : forall from_chars to_string v indent level,
  plain_tree (number_survives from_chars to_string) v ->
  forallb isWhitespace indent = true ->
  exists d, dump to_string indent level v = Ret d
            /\ parse from_chars d = Ret (Ok v).
Proof.
  intros from_chars to_string v indent level Hv Hws.
  destruct (dump_parses_back from_chars to_string v Hv indent level Hws)
    as [d [Hd [_ Hback]]].
  exists d. split; [exact Hd|].
  destruct (Hback d 0 []) as [fuel Hp].
  - simpl. now rewrite app_nil_r.
  - exact I.
  - eapply parse_of_parseValue; eauto.
Qed.

Ltac number_survives_by_computation :=
  unfold number_survives;
  repeat split; try (vm_compute; discriminate); vm_compute; reflexivity.

Lemma roundtrip_witness :
  plain_tree (number_survives Std.from_chars Std.to_string)
    (Object [(lit "a", Num 12%float);
             (lit "arr", Array [Num 1%float; Num 2%float; Num 3%float;
                                String (lit "x y"); Null; Bool true])])
  /\ forallb isWhitespace (lit "  ") = true
  /\ exists d,
       dump Std.to_string (lit "  ") 0
         (Object [(lit "a", Num 12%float);
                  (lit "arr", Array [Num 1%float; Num 2%float; Num 3%float;
                                     String (lit "x y"); Null; Bool true])])
       = Ret d
       /\ parse Std.from_chars d
          = Ret (Ok (Object [(lit "a", Num 12%float);
                             (lit "arr",
                              Array [Num 1%float; Num 2%float; Num 3%float;
                                     String (lit "x y"); Null; Bool true])])).
Proof.
  assert (Hv : plain_tree (number_survives Std.from_chars Std.to_string)
    (Object [(lit "a", Num 12%float);
             (lit "arr", Array [Num 1%float; Num 2%float; Num 3%float;
                                String (lit "x y"); Null; Bool true])])).
  { simpl. repeat split; try reflexivity; try number_survives_by_computation.
    - repeat constructor.
    - constructor. }
  split; [exact Hv|]. split; [reflexivity|].
  apply roundtrip; [exact Hv | reflexivity].
Defined.

(** C4, as it is stated, fails at the number nearest to one ten-millionth:
    [to_string] writes it with six digits after the point, as [0.000000],
    which is read back as zero. *)
Lemma roundtrip_loses_digits :
  plain_tree any_number (Num 0x1.ad7f29abcaf48p-24%float)
  /\ dump Std.to_string [] 0 (Num 0x1.ad7f29abcaf48p-24%float)
     = Ret (lit "0.000000")
  /\ parse Std.from_chars (lit "0.000000") = Ret (Ok (Num 0%float))
  /\ parse Std.from_chars (lit "0.000000")
     <> Ret (Ok (Num 0x1.ad7f29abcaf48p-24%float)).
Proof.
  split; [exact I|]. split; [vm_compute; reflexivity|].
  split; [vm_compute; reflexivity|].
  intros H.
  assert (Hz : parse Std.from_chars (lit "0.000000") = Ret (Ok (Num 0%float)))
    by (vm_compute; reflexivity).
  rewrite Hz in H.
  apply (f_equal (fun res => match res with
                             | Ret (Ok (Num n)) => Prim2SF n
                             | _ => S754_nan
                             end)) in H.
  vm_compute in H. discriminate H.
Qed.

(** ** Infinity and NaN *)

Lemma to_lower_idem : forall c, Std.to_lower (Std.to_lower c) = Std.to_lower c.
Proof. intros [[] [] [] [] [] [] [] []]; reflexivity. Qed.

Lemma starts_with_lower : forall word body,
  Std.starts_with word (map Std.to_lower body) = Std.starts_with word body.
Proof.
  induction word as [|w word IH]; intros [|c body]; simpl; try reflexivity.
  now rewrite to_lower_idem, IH.
Qed.

(** The letters of the three words, in either case, are scanned. *)
Lemma special_letter_scanned : forall c,
  in_chars (Std.to_lower c) (lit "infinityan") = true ->
  in_chars c valueChars = true.
Proof.
  intros [[] [] [] [] [] [] [] []]; vm_compute; intros H;
    first [reflexivity | exact H].
Qed.

Lemma special_word_scanned : forall body word,
  map Std.to_lower body = word ->
  forallb (fun c => in_chars c (lit "infinityan")) word = true ->
  forallb (fun c => in_chars c valueChars) body = true.
Proof.
  induction body as [|c body IH]; intros word Hmap Hword; [reflexivity|].
  subst word. cbn [map forallb] in Hword.
  apply andb_prop in Hword as [Hc Hrest].
  cbn [forallb]. rewrite (special_letter_scanned c Hc). cbn [andb].
  now apply (IH (map Std.to_lower body)).
Qed.

Lemma split_sign_spec : forall t neg signed body,
  Std.split_sign t = (neg, signed, body) ->
  (t = body /\ signed = 0 /\ neg = false)
  \/ (t = "-"%char :: body /\ signed = 1 /\ neg = true).
Proof.
  intros [|c t] neg signed body H; simpl in H.
  - left. now inversion H.
  - destruct (Ascii.eqb_spec c "-").
    + right. inversion H; subst. auto.
    + left. now inversion H.
Qed.

(** What makes a token special: its word in lower case and its value. *)
Lemma special_number_inv : forall t v,
  Std.special_number t = Some v ->
  exists neg signed body word,
    Std.split_sign t = (neg, signed, body)
    /\ map Std.to_lower body = word
    /\ ((word = lit "inf" \/ word = lit "infinity")
        /\ v = (if neg then neg_infinity else infinity)
        \/ word = lit "nan" /\ v = nan).
Proof.
  intros t v H. unfold Std.special_number in H.
  destruct (Std.split_sign t) as [[neg signed] body] eqn:Es.
  exists neg, signed, body, (map Std.to_lower body).
  split; [reflexivity|]. split; [reflexivity|].
  destruct (text_eqb (map Std.to_lower body) (lit "inf")) eqn:E1.
  - apply text_eqb_eq in E1. cbn [orb] in H. inversion H. left. auto.
  - destruct (text_eqb (map Std.to_lower body) (lit "infinity")) eqn:E2.
    + apply text_eqb_eq in E2. cbn [orb] in H. inversion H. left. auto.
    + cbn [orb] in H.
      destruct (text_eqb (map Std.to_lower body) (lit "nan")) eqn:E3;
        [|discriminate].
      apply text_eqb_eq in E3. inversion H. right. auto.
Qed.

(** The library function, as written out above, takes the whole of a
    special token and answers with its value. *)
Lemma std_from_chars_special : forall t v,
  Std.special_number t = Some v ->
  Std.from_chars t 0%float = (length t, errc_ok, v).
Proof.
  intros t v H.
  destruct (special_number_inv t v H)
    as [neg [signed [body [word [Es [Hmap Hword]]]]]].
  assert (Hlen : length t = signed + length body).
  { destruct (split_sign_spec _ _ _ _ Es) as [[-> [-> _]]|[-> [-> _]]];
      reflexivity. }
  assert (Hbody : length body = length word)
    by (subst word; now rewrite length_map).
  unfold Std.from_chars. rewrite Es.
  rewrite <- (starts_with_lower (lit "infinity") body).
  rewrite <- (starts_with_lower (lit "inf") body).
  rewrite <- (starts_with_lower (lit "nan") body).
  rewrite Hmap, Hlen, Hbody.
  destruct Hword as [[[->| ->] ->]|[-> ->]].
  - reflexivity.
  - reflexivity.
  - cbn [Std.starts_with lit list_ascii_of_string Ascii.eqb Bool.eqb andb
         Std.to_lower].
    assert (Hskip : skipn 3 body = []) by (apply skipn_all2; simpl in Hbody; lia).
    vm_compute Std.starts_with. cbv iota. rewrite Hskip.
    simpl. now rewrite Nat.add_0_r.
Qed.

(** C10. A token [inf], [infinity] or [nan], in any letter case and after
    an optional minus sign, is scanned whole and handed to [from_chars];
    whenever [from_chars] takes all of it, as the C++ library does, the
    token parses to that [Number]: infinity, negative infinity or NaN. *)
Theorem special_numbers_accepted : forall t v,
  Std.special_number t = Some v ->
  (forall from_chars,
      from_chars t 0%float = (length t, errc_ok, v) ->
      parse from_chars t = Ret (Ok (Num v)))
  /\ parse Std.from_chars t = Ret (Ok (Num v)).
Proof.
  intros t v H.
  assert (Hgen : forall from_chars,
             from_chars t 0%float = (length t, errc_ok, v) ->
             parse from_chars t = Ret (Ok (Num v))).
  { intros from_chars Hfc.
    destruct (special_number_inv t v H)
      as [neg [signed [body [word [Es [Hmap Hword]]]]]].
    assert (Hbody : forallb (fun c => in_chars c valueChars) body = true).
    { apply (special_word_scanned body word Hmap).
      destruct Hword as [[[->| ->] _]|[-> _]]; reflexivity. }
    assert (Hbody_ne : body <> []).
    { intros ->. simpl in Hmap. subst word.
      destruct Hword as [[[?|?] _]|[? _]]; discriminate. }
    assert (Htok : forallb (fun c => in_chars c valueChars) t = true).
    { destruct (split_sign_spec _ _ _ _ Es) as [[-> _]|[-> _]];
        [exact Hbody | simpl; exact Hbody]. }
    assert (Hne : t <> []).
    { destruct (split_sign_spec _ _ _ _ Es) as [[-> _]|[-> _]];
        [exact Hbody_ne | discriminate]. }
    assert (Hlit : forall l, Std.special_number l = None -> t <> l)
      by (intros l Hl ->; congruence).
    apply (parse_of_parseValue from_chars t 1 (Ok (Num v)) (0 + length t)).
    destruct t as [|ch t']; [congruence|].
    assert (Hch : in_chars ch valueChars = true)
      by (simpl in Htok; now apply andb_prop in Htok).
    destruct (value_char_facts ch Hch) as [Hws [Hb [Hbrace [Hbracket Hq]]]].
    assert (Hskip : skipn 0 (ch :: t') = (ch :: t') ++ [])
      by (now rewrite app_nil_r).
    cbn [parseValue].
    rewrite (skipWhitespace_stay _ _ _ Hskip) by exact Hws.
    rewrite (skipn_head _ _ _ _ Hskip), Hbrace, Hbracket, Hq.
    rewrite (parseLiteral_suffix from_chars _ _ _ _ Hskip Hne Htok I).
    rewrite (text_eqb_neq _ _ (Hlit (lit "null") eq_refl)).
    rewrite (text_eqb_neq _ _ (Hlit (lit "true") eq_refl)).
    rewrite (text_eqb_neq _ _ (Hlit (lit "false") eq_refl)).
    unfold parseNumber. rewrite Hfc. simpl errc_eqb. rewrite Nat.eqb_refl.
    reflexivity. }
  split; [exact Hgen|].
  apply Hgen. now apply std_from_chars_special.
Qed.

Lemma special_numbers_accepted_witness :
  Std.special_number (lit "-Inf") = Some neg_infinity
  /\ parse Std.from_chars (lit "-Inf") = Ret (Ok (Num neg_infinity)).
Proof.
  split; [reflexivity|].
  apply (special_numbers_accepted (lit "-Inf") neg_infinity). reflexivity.
Defined.

Example special_number_examples :
  parse Std.from_chars (lit "inf") = Ret (Ok (Num infinity))
  /\ parse Std.from_chars (lit "-inf") = Ret (Ok (Num neg_infinity))
  /\ parse Std.from_chars (lit "nan") = Ret (Ok (Num nan))
  /\ parse Std.from_chars (lit "Infinity") = Ret (Ok (Num infinity))
  /\ parse Std.from_chars (lit "-NaN") = Ret (Ok (Num nan))
  /\ parse Std.from_chars (lit "info")
     = Ret (Err (mkError 0 "Invalid number")).
Proof. repeat split; vm_compute; reflexivity. Qed.

(** ** What a parse depends on *)

Section Kinds.

Variable from_chars : text -> Number -> nat * errc * Number.
Variable source : text.

(** A literal is left where the scan stopped; the loops return a
    container and, entered inside the buffer, move the cursor. *)
Lemma parse_kinds : forall fuel,
  (forall cursor v stop,
      parseValue from_chars fuel source cursor = Ret (Ok v, stop) ->
      is_scalar v = true -> peek_value source stop = false)
  /\ (forall cursor values v stop,
      parseArray from_chars fuel source cursor values = Ret (Ok v, stop) ->
      is_scalar v = false /\ (cursor < length source -> cursor < stop))
  /\ (forall cursor obj v stop,
      parseObject from_chars fuel source cursor obj = Ret (Ok v, stop) ->
      is_scalar v = false /\ (cursor < length source -> cursor < stop)).
Proof.
  induction fuel as [|fuel [IHv [IHa IHo]]].
  - repeat split; intros; discriminate.
  - split; [|split].
    + intros cursor v stop H Hs. cbn [parseValue] in H.
      destruct (nth_error source (skipWhitespace source cursor))
        as [ch|] eqn:E; [|discriminate].
      assert (skipWhitespace source cursor < length source)
        by (apply nth_error_Some; congruence).
      destruct (Ascii.eqb ch "{").
      { apply IHo in H as [H _]. congruence. }
      destruct (Ascii.eqb ch "[").
      { apply IHa in H as [H _]. congruence. }
      destruct (Ascii.eqb ch ch_quote).
      { destruct (parseString fuel source (skipWhitespace source cursor))
          as [[[s|e] c1]|f]; simpl in H; try discriminate.
        inversion H; subst. discriminate. }
      destruct (parseLiteral from_chars source (skipWhitespace source cursor))
        as [[v'|e] c1] eqn:El; inversion H; subst.
      apply parseLiteral_progress in El as [_ ->]; [|lia].
      apply scan_end_spec. lia.
    + intros cursor values v stop H. cbn [parseArray] in H.
      destruct (cursor <? length source) eqn:Ein.
      2:{ apply Nat.ltb_ge in Ein. inversion H; subst. split; [reflexivity|lia]. }
      apply Nat.ltb_lt in Ein.
      pose proof (skipWhitespace_spec source cursor) as [Hws _].
      destruct (nth_error source (skipWhitespace source cursor))
        as [ch|] eqn:E; [|discriminate].
      destruct (Ascii.eqb ch "]").
      { inversion H; subst. split; [reflexivity|lia]. }
      destruct (parseValue from_chars fuel source
                  (skipWhitespace source cursor))
        as [[[value|e] c1]|f] eqn:Ev; simpl in H; try discriminate.
      apply (parse_progress from_chars source fuel) in Ev.
      pose proof (skipSeparator_bounds source c1) as [Hs1 Hs2].
      destruct (skipSeparator source c1) as [found c2]; simpl in Hs1, Hs2.
      destruct (peek_is source c2 "]").
      { inversion H; subst. split; [reflexivity|lia]. }
      destruct found; [|discriminate].
      pose proof H as H'. apply IHa in H as [Hk _].
      apply (parse_progress from_chars source fuel) in H'; [|lia].
      split; [exact Hk|lia].
    + intros cursor obj v stop H. cbn [parseObject] in H.
      destruct (cursor <? length source) eqn:Ein.
      2:{ apply Nat.ltb_ge in Ein. inversion H; subst. split; [reflexivity|lia]. }
      apply Nat.ltb_lt in Ein.
      pose proof (skipWhitespace_spec source cursor) as [Hws _].
      destruct (nth_error source (skipWhitespace source cursor))
        as [ch|] eqn:E; [|discriminate].
      destruct (Ascii.eqb ch "}").
      { inversion H; subst. split; [reflexivity|lia]. }
      destruct (negb (Ascii.eqb ch ch_quote)); [discriminate|].
      destruct (parseString fuel source (skipWhitespace source cursor))
        as [[[key|e] c1]|f] eqn:Es; simpl in H; try discriminate.
      apply parseString_progress in Es.
      pose proof (skipWhitespace_spec source c1) as [Hws1 _].
      destruct (negb (peek_is source (skipWhitespace source c1) ":"));
        [discriminate|].
      pose proof (skipWhitespace_spec source (S (skipWhitespace source c1)))
        as [Hws2 _].
      destruct (length source <=? _); [discriminate|].
      destruct (parseValue from_chars fuel source _)
        as [[[value|e] c3]|f] eqn:Ev; simpl in H; try discriminate.
      apply (parse_progress from_chars source fuel) in Ev.
      pose proof (skipSeparator_bounds source c3) as [Hs1 Hs2].
      destruct (skipSeparator source c3) as [found c4]; simpl in Hs1, Hs2.
      destruct (peek_is source c4 "}").
      { inversion H; subst. split; [reflexivity|lia]. }
      destruct found; [|discriminate].
      pose proof H as H'. apply IHo in H as [Hk _].
      apply (parse_progress from_chars source fuel) in H'; [|lia].
      split; [exact Hk|lia].
Qed.

End Kinds.

(** *** Each step reads the buffer below the cursor it leaves *)

Lemma agree_le : forall s1 s2 n m, agree s1 s2 n -> m <= n -> agree s1 s2 m.
Proof. intros s1 s2 n m H Hle i Hi. apply H. lia. Qed.

Lemma agree_in_range : forall s1 s2 n i,
  agree s1 s2 n -> n <= length s1 -> i < n -> i < length s2.
Proof.
  intros s1 s2 n i H Hn Hi. apply nth_error_Some. rewrite (H i Hi).
  apply nth_error_Some. lia.
Qed.

Lemma agree_peek_ws : forall s1 s2 n i,
  agree s1 s2 n -> i < n -> peek_ws s2 i = peek_ws s1 i.
Proof. intros s1 s2 n i H Hi. unfold peek_ws. now rewrite (H i Hi). Qed.

Lemma agree_peek_value : forall s1 s2 n i,
  agree s1 s2 n -> i < n -> peek_value s2 i = peek_value s1 i.
Proof. intros s1 s2 n i H Hi. unfold peek_value. now rewrite (H i Hi). Qed.

Lemma agree_peek_is : forall s1 s2 n i c,
  agree s1 s2 n -> i < n -> peek_is s2 i c = peek_is s1 i c.
Proof. intros s1 s2 n i c H Hi. unfold peek_is. now rewrite (H i Hi). Qed.

Lemma skipWhitespace_local : forall s1 s2 n cursor,
  agree s1 s2 n -> skipWhitespace s1 cursor < n ->
  skipWhitespace s2 cursor = skipWhitespace s1 cursor.
Proof.
  intros s1 s2 n cursor H Hlt.
  destruct (skipWhitespace_spec s1 cursor) as [H1 [H2 H3]].
  apply skipWhitespace_unique.
  - exact H1.
  - intros i Hi. rewrite (agree_peek_ws s1 s2 n) by (auto; lia). now apply H2.
  - now rewrite (agree_peek_ws s1 s2 n) by auto.
Qed.

Lemma skipSeparator_local : forall s1 s2 n cursor,
  agree s1 s2 n -> snd (skipSeparator s1 cursor) < n ->
  skipSeparator s2 cursor = skipSeparator s1 cursor.
Proof.
  intros s1 s2 n cursor H Hlt. unfold skipSeparator in *.
  pose proof (skipWhitespace_spec s1 cursor) as [Hws _].
  destruct (peek_is s1 (skipWhitespace s1 cursor) ",") eqn:E; simpl in Hlt.
  - pose proof (skipWhitespace_spec s1 (S (skipWhitespace s1 cursor)))
      as [Hws' _].
    rewrite (skipWhitespace_local s1 s2 n cursor H) by lia.
    rewrite (agree_peek_is s1 s2 n) by (auto; lia). rewrite E.
    now rewrite (skipWhitespace_local s1 s2 n _ H) by lia.
  - rewrite (skipWhitespace_local s1 s2 n cursor H) by lia.
    rewrite (agree_peek_is s1 s2 n) by (auto; lia). now rewrite E.
Qed.

Lemma parseString_loop_local : forall fuel s1 s2 cursor str s stop,
  parseString_loop fuel s1 cursor str = Ret (Ok s, stop) ->
  agree s1 s2 stop ->
  parseString_loop fuel s2 cursor str = Ret (Ok s, stop).
Proof.
  induction fuel as [|fuel IH]; intros s1 s2 cursor str s stop H Ha.
  - discriminate.
  - pose proof (parseString_loop_progress _ _ _ _ _ _ H) as Hp.
    cbn [parseString_loop] in *.
    rewrite (Ha cursor) by lia.
    destruct (nth_error s1 cursor) as [ch|]; [|discriminate].
    destruct (Ascii.eqb ch ch_backslash).
    + destruct (length s1 <=? S cursor) eqn:El; [discriminate|].
      destruct (string_at str (S cursor)) as [c|f]; simpl in H;
        [|discriminate].
      simpl.
      destruct (Ascii.eqb c "u"); [discriminate|].
      destruct (escapes c); [|discriminate].
      pose proof (parseString_loop_progress _ _ _ _ _ _ H) as Hp'.
      replace (length s2 <=? S cursor) with false.
      * now apply (IH s1).
      * symmetry. apply Nat.leb_gt.
        apply (agree_in_range s1 s2 stop); [exact Ha | lia | lia].
    + destruct (Ascii.eqb ch ch_quote); [exact H|]. now apply (IH s1).
Qed.

Lemma parseString_local : forall fuel s1 s2 cursor s stop,
  parseString fuel s1 cursor = Ret (Ok s, stop) ->
  agree s1 s2 stop ->
  parseString fuel s2 cursor = Ret (Ok s, stop).
Proof.
  intros fuel s1 s2 cursor s stop H Ha.
  pose proof (parseString_progress _ _ _ _ _ H) as Hp.
  unfold parseString in *. rewrite (Ha cursor) by lia.
  destruct (nth_error s1 cursor) as [ch|]; [|discriminate].
  destruct (Ascii.eqb ch ch_quote); [|discriminate].
  now apply (parseString_loop_local fuel s1).
Qed.

Lemma substr_local : forall s1 s2 cursor n,
  agree s1 s2 (cursor + n) -> cursor + n <= length s1 ->
  substr s2 cursor n = substr s1 cursor n.
Proof.
  intros s1 s2 cursor n Ha Hle.
  destruct (Nat.eq_dec n 0) as [->|Hn]; [reflexivity|].
  assert (Hle2 : cursor + n <= length s2).
  { assert (cursor + n - 1 < length s2)
      by (apply (agree_in_range s1 s2 (cursor + n)); [exact Ha | lia | lia]).
    lia. }
  apply nth_error_ext. intros i.
  destruct (Nat.lt_ge_cases i n) as [Hi|Hi].
  - rewrite !nth_error_substr by exact Hi. apply Ha. lia.
  - transitivity (@None ascii).
    + apply nth_error_None. rewrite length_substr; lia.
    + symmetry. apply nth_error_None. rewrite length_substr; lia.
Qed.

Lemma parseLiteral_local : forall from_chars s1 s2 cursor v stop,
  parseLiteral from_chars s1 cursor = (Ok v, stop) ->
  cursor <= length s1 ->
  agree s1 s2 stop ->
  peek_value s2 stop = false ->
  parseLiteral from_chars s2 cursor = (Ok v, stop).
Proof.
  intros from_chars s1 s2 cursor v stop H Hle Ha Hstop.
  destruct (parseLiteral_progress from_chars s1 cursor v stop Hle H)
    as [Hlt Hend].
  destruct (scan_end_spec s1 cursor Hle) as [[_ Hle'] [Hin _]].
  rewrite <- Hend in *.
  assert (Hend2 : scan_end s2 cursor = stop).
  { apply scan_end_unique.
    - lia.
    - assert (cursor < length s2)
        by (apply (agree_in_range s1 s2 stop); [exact Ha | lia | lia]).
      lia.
    - intros i Hi. rewrite (agree_peek_value s1 s2 stop) by (auto; lia).
      now apply Hin.
    - exact Hstop. }
  rewrite parseLiteral_token in H |- *. cbv zeta in H |- *.
  rewrite Hend2. rewrite <- Hend in H.
  rewrite (substr_local s1 s2); [exact H | |].
  - now replace (cursor + (stop - cursor)) with stop by lia.
  - lia.
Qed.

Lemma parseLiteral_scalar : forall from_chars source cursor v stop,
  parseLiteral from_chars source cursor = (Ok v, stop) -> is_scalar v = true.
Proof.
  intros from_chars source cursor v stop H. rewrite parseLiteral_token in H.
  cbv zeta in H.
  repeat match type of H with
         | (if ?b then _ else _) = _ => destruct b
         | match ?x with _ => _ end = _ => destruct x
         end; inversion H; reflexivity.
Qed.

Section Locality.

Variable from_chars : text -> Number -> nat * errc * Number.
Variables s1 s2 : text.

(** A parse that returns a value before the end of the buffer returns
    the same on every buffer with the same characters up to the cursor it
    leaves, provided a literal scan stops there as well. *)
Lemma parse_local : forall fuel,
  (forall cursor v stop,
      parseValue from_chars fuel s1 cursor = Ret (Ok v, stop) ->
      stop < length s1 -> agree s1 s2 stop ->
      (is_scalar v = true -> peek_value s2 stop = false) ->
      parseValue from_chars fuel s2 cursor = Ret (Ok v, stop))
  /\ (forall cursor values v stop,
      parseArray from_chars fuel s1 cursor values = Ret (Ok v, stop) ->
      stop < length s1 -> agree s1 s2 stop ->
      parseArray from_chars fuel s2 cursor values = Ret (Ok v, stop))
  /\ (forall cursor obj v stop,
      parseObject from_chars fuel s1 cursor obj = Ret (Ok v, stop) ->
      stop < length s1 -> agree s1 s2 stop ->
      parseObject from_chars fuel s2 cursor obj = Ret (Ok v, stop)).
Proof.
  induction fuel as [|fuel [IHv [IHa IHo]]].
  - repeat split; intros; discriminate.
  - split; [|split].
    + intros cursor v stop H Hstop Ha Hsc.
      pose proof (parse_progress from_chars s1 (S fuel)) as [Hp _].
      specialize (Hp _ _ _ H).
      cbn [parseValue] in *.
      pose proof (skipWhitespace_spec s1 cursor) as [Hws _].
      destruct (nth_error s1 (skipWhitespace s1 cursor)) as [ch|] eqn:E;
        [|discriminate].
      assert (Hin1 : skipWhitespace s1 cursor < length s1)
        by (apply nth_error_Some; congruence).
      assert (Hc1 : skipWhitespace s1 cursor < stop).
      { destruct (Ascii.eqb ch "{").
        { apply (parse_progress from_chars s1 fuel) in H; lia. }
        destruct (Ascii.eqb ch "[").
        { apply (parse_progress from_chars s1 fuel) in H; lia. }
        destruct (Ascii.eqb ch ch_quote).
        { destruct (parseString fuel s1 (skipWhitespace s1 cursor))
            as [[[s|e] c1]|f] eqn:Es; simpl in H; try discriminate.
          inversion H; subst. apply parseString_progress in Es. lia. }
        destruct (parseLiteral from_chars s1 (skipWhitespace s1 cursor))
          as [[v'|e] c1] eqn:El; inversion H; subst.
        apply parseLiteral_progress in El; lia. }
      rewrite (skipWhitespace_local s1 s2 stop cursor Ha Hc1).
      rewrite (Ha _ Hc1), E.
      destruct (Ascii.eqb ch "{"); [now apply IHo|].
      destruct (Ascii.eqb ch "["); [now apply IHa|].
      destruct (Ascii.eqb ch ch_quote).
      { destruct (parseString fuel s1 (skipWhitespace s1 cursor))
          as [[[s|e] c1]|f] eqn:Es; simpl in H; try discriminate.
        inversion H; subst.
        now rewrite (parseString_local fuel s1 s2 _ _ _ Es Ha). }
      destruct (parseLiteral from_chars s1 (skipWhitespace s1 cursor))
        as [[v'|e] c1] eqn:El; inversion H; subst.
      rewrite (parseLiteral_local from_chars s1 s2 _ _ _ El); auto; [lia|].
      apply Hsc. eapply parseLiteral_scalar; eauto.
    + intros cursor values v stop H Hstop Ha.
      cbn [parseArray] in *.
      destruct (cursor <? length s1) eqn:Ein.
      2:{ apply Nat.ltb_ge in Ein. inversion H; subst. lia. }
      apply Nat.ltb_lt in Ein.
      pose proof (skipWhitespace_spec s1 cursor) as [Hws _].
      destruct (nth_error s1 (skipWhitespace s1 cursor)) as [ch|] eqn:E;
        [|discriminate].
      destruct (Ascii.eqb ch "]") eqn:Eb.
      { inversion H; subst.
        replace (cursor <? length s2) with true
          by (symmetry; apply Nat.ltb_lt;
              apply (agree_in_range s1 s2 (S (skipWhitespace s1 cursor)));
              [exact Ha | lia | lia]).
        rewrite (skipWhitespace_local s1 s2 _ cursor Ha) by lia.
        rewrite (Ha (skipWhitespace s1 cursor)) by lia.
        now rewrite E, Eb. }
      destruct (parseValue from_chars fuel s1 (skipWhitespace s1 cursor))
        as [[[value|e] c1]|f] eqn:Ev; simpl in H; try discriminate.
      pose proof (parse_progress from_chars s1 fuel) as [Hpv [Hpa _]].
      pose proof (Hpv _ _ _ Ev) as Hp1.
      pose proof (parse_kinds from_chars s1 fuel) as [Hkv [Hka _]].
      pose proof (skipSeparator_bounds s1 c1) as [Hs1 Hs2].
      destruct (skipSeparator s1 c1) as [found c2] eqn:Esep;
        simpl in Hs1, Hs2.
      assert (Hc2 : c2 < stop).
      { destruct (peek_is s1 c2 "]").
        - inversion H; subst. lia.
        - destruct found; [|discriminate].
          pose proof (Hpa _ _ _ _ (Hs2 ltac:(lia)) H).
          destruct (Hka _ _ _ _ H) as [_ Hstrict]. lia. }
      replace (cursor <? length s2) with true
        by (symmetry; apply Nat.ltb_lt;
            apply (agree_in_range s1 s2 stop); [exact Ha | lia | lia]).
      rewrite (skipWhitespace_local s1 s2 stop cursor Ha) by lia.
      rewrite (Ha (skipWhitespace s1 cursor)) by lia.
      rewrite E, Eb.
      rewrite (IHv _ _ _ Ev); [| lia | apply (agree_le s1 s2 stop); auto; lia |].
      2:{ intros Hsc. rewrite (agree_peek_value s1 s2 stop) by (auto; lia).
          now apply (Hkv _ _ _ Ev). }
      cbn [bind].
      rewrite (skipSeparator_local s1 s2 stop c1 Ha) by (rewrite Esep; exact Hc2).
      rewrite Esep. rewrite (agree_peek_is s1 s2 stop) by auto.
      destruct (peek_is s1 c2 "]"); [exact H|].
      destruct found; [|discriminate]. now apply IHa.
    + intros cursor obj v stop H Hstop Ha.
      cbn [parseObject] in *.
      destruct (cursor <? length s1) eqn:Ein.
      2:{ apply Nat.ltb_ge in Ein. inversion H; subst. lia. }
      apply Nat.ltb_lt in Ein.
      pose proof (skipWhitespace_spec s1 cursor) as [Hws _].
      destruct (nth_error s1 (skipWhitespace s1 cursor)) as [ch|] eqn:E;
        [|discriminate].
      destruct (Ascii.eqb ch "}") eqn:Eb.
      { inversion H; subst.
        replace (cursor <? length s2) with true
          by (symmetry; apply Nat.ltb_lt;
              apply (agree_in_range s1 s2 (S (skipWhitespace s1 cursor)));
              [exact Ha | lia | lia]).
        rewrite (skipWhitespace_local s1 s2 _ cursor Ha) by lia.
        rewrite (Ha (skipWhitespace s1 cursor)) by lia.
        now rewrite E, Eb. }
      destruct (negb (Ascii.eqb ch ch_quote)) eqn:Eq; [discriminate|].
      destruct (parseString fuel s1 (skipWhitespace s1 cursor))
        as [[[key|e] c1]|f] eqn:Es; simpl in H; try discriminate.
      pose proof (parseString_progress _ _ _ _ _ Es) as Hp1.
      pose proof (skipWhitespace_spec s1 c1) as [Hws1 _].
      destruct (negb (peek_is s1 (skipWhitespace s1 c1) ":")) eqn:Ecolon;
        [discriminate|].
      pose proof (skipWhitespace_spec s1 (S (skipWhitespace s1 c1)))
        as [Hws2 _].
      destruct (length s1 <=? skipWhitespace s1 (S (skipWhitespace s1 c1)))
        eqn:Eend; [discriminate|].
      apply Nat.leb_gt in Eend.
      destruct (parseValue from_chars fuel s1
                  (skipWhitespace s1 (S (skipWhitespace s1 c1))))
        as [[[value|e] c3]|f] eqn:Ev; simpl in H; try discriminate.
      pose proof (parse_progress from_chars s1 fuel) as [Hpv [_ Hpo]].
      pose proof (Hpv _ _ _ Ev) as Hp3.
      pose proof (parse_kinds from_chars s1 fuel) as [Hkv [_ Hko]].
      pose proof (skipSeparator_bounds s1 c3) as [Hs1 Hs2].
      destruct (skipSeparator s1 c3) as [found c4] eqn:Esep;
        simpl in Hs1, Hs2.
      assert (Hc4 : c4 < stop).
      { destruct (peek_is s1 c4 "}").
        - inversion H; subst. lia.
        - destruct found; [|discriminate].
          pose proof (Hpo _ _ _ _ (Hs2 ltac:(lia)) H).
          destruct (Hko _ _ _ _ H) as [_ Hstrict]. lia. }
      replace (cursor <? length s2) with true
        by (symmetry; apply Nat.ltb_lt;
            apply (agree_in_range s1 s2 stop); [exact Ha | lia | lia]).
      rewrite (skipWhitespace_local s1 s2 stop cursor Ha) by lia.
      rewrite (Ha (skipWhitespace s1 cursor)) by lia.
      rewrite E, Eb, Eq.
      rewrite (parseString_local fuel s1 s2 _ _ _ Es)
        by (apply (agree_le s1 s2 stop); auto; lia).
      cbn [bind].
      rewrite (skipWhitespace_local s1 s2 stop c1 Ha) by lia.
      rewrite (agree_peek_is s1 s2 stop) by (auto; lia).
      rewrite Ecolon.
      rewrite (skipWhitespace_local s1 s2 stop _ Ha) by lia.
      replace (length s2 <=? skipWhitespace s1 (S (skipWhitespace s1 c1)))
        with false
        by (symmetry; apply Nat.leb_gt;
            apply (agree_in_range s1 s2 stop); [exact Ha | lia | lia]).
      rewrite (IHv _ _ _ Ev); [| lia | apply (agree_le s1 s2 stop); auto; lia |].
      2:{ intros Hsc. rewrite (agree_peek_value s1 s2 stop) by (auto; lia).
          now apply (Hkv _ _ _ Ev). }
      cbn [bind].
      rewrite (skipSeparator_local s1 s2 stop c3 Ha) by (rewrite Esep; exact Hc4).
      rewrite Esep. rewrite (agree_peek_is s1 s2 stop) by auto.
      destruct (peek_is s1 c4 "}"); [exact H|].
      destruct found; [|discriminate]. now apply IHo.
Qed.

End Locality.

Lemma agree_replaced_tail : forall (source : text) stop rest,
  stop <= length source -> agree source (firstn stop source ++ rest) stop.
Proof.
  intros source stop rest Hle i Hi.
  rewrite nth_error_app1 by (rewrite length_firstn; lia).
  rewrite nth_error_firstn. destruct (Nat.ltb_spec i stop); [reflexivity|lia].
Qed.

Lemma peek_value_replaced_tail : forall (source : text) stop rest,
  stop <= length source -> stops_scan rest ->
  peek_value (firstn stop source ++ rest) stop = false.
Proof.
  intros source stop rest Hle Hrest. unfold peek_value.
  rewrite nth_error_app2 by (rewrite length_firstn; lia).
  rewrite length_firstn.
  replace (stop - Nat.min stop (length source)) with 0 by lia.
  destruct rest as [|ch rest]; [reflexivity | exact Hrest].
Qed.

(** C9. [parse] returns what [parseValue] returns at the front of the
    buffer and looks no further: when a value is complete before the end
    of the buffer, [parse] succeeds with it, and it succeeds with the same
    value whatever is put in the place of the bytes that follow (after a
    literal or a number, anything that does not lengthen its token). *)
Theorem trailing_content_ignored : forall from_chars source fuel v stop rest,
  parseValue from_chars fuel source 0 = Ret (Ok v, stop) ->
  stop < length source ->
  (is_scalar v = true -> stops_scan rest) ->
  parse from_chars source = Ret (Ok v)
  /\ parse from_chars (firstn stop source ++ rest) = Ret (Ok v).
Proof.
  intros from_chars source fuel v stop rest H Hstop Hrest. split.
  - eapply parse_of_parseValue; eauto.
  - apply (parse_of_parseValue from_chars _ fuel (Ok v) stop).
    destruct (parse_local from_chars source (firstn stop source ++ rest) fuel)
      as [Hv _].
    apply Hv; [exact H | exact Hstop | apply agree_replaced_tail; lia |].
    intros Hs. apply peek_value_replaced_tail; [lia | auto].
Qed.

Lemma trailing_content_ignored_witness :
  parseValue Std.from_chars 1 (lit "1 2") 0 = Ret (Ok (Num 1%float), 1)
  /\ 1 < length (lit "1 2")
  /\ (is_scalar (Num 1%float) = true -> stops_scan (lit "] garbage"))
  /\ parse Std.from_chars (lit "1 2") = Ret (Ok (Num 1%float))
  /\ parse Std.from_chars (firstn 1 (lit "1 2") ++ lit "] garbage")
     = Ret (Ok (Num 1%float)).
Proof.
  assert (H1 : parseValue Std.from_chars 1 (lit "1 2") 0
               = Ret (Ok (Num 1%float), 1)) by (vm_compute; reflexivity).
  assert (H2 : 1 < length (lit "1 2")) by (simpl; lia).
  assert (H3 : is_scalar (Num 1%float) = true -> stops_scan (lit "] garbage"))
    by (intros _; reflexivity).
  split; [exact H1|]. split; [exact H2|]. split; [exact H3|].
  exact (trailing_content_ignored Std.from_chars (lit "1 2") 1 (Num 1%float) 1
           (lit "] garbage") H1 H2 H3).
Defined.

(** The two buffers of the claim. *)
Example trailing_garbage_examples :
  (forall from_chars,
      parse from_chars (lit "true garbage") = Ret (Ok (Bool true)))
  /\ parse Std.from_chars (lit "1 2") = Ret (Ok (Num 1%float)).
Proof. split; intros; vm_compute; reflexivity. Qed.

(** ** Every escape, whatever its character *)

(** A string token whose first backslash is followed by one more
    character never gets past that escape: the selector is read out of
    range, whichever character the source holds there. *)
Lemma parseString_escape_faults : forall fuel source cursor body c rest,
  skipn cursor source = ch_quote :: body ++ ch_backslash :: c :: rest ->
  escape_free body = true ->
  length body < fuel ->
  parseString fuel source cursor = Fault OutOfRange.
Proof.
  intros fuel source cursor body c rest H Hbody Hfuel. unfold parseString.
  unfold escape_free in Hbody.
  rewrite (skipn_head _ _ _ _ H). simpl Ascii.eqb. cbv iota.
  pose proof (skipn_advance source cursor [ch_quote] _ H) as H1.
  replace (cursor + length [ch_quote]) with (S cursor) in H1 by (simpl; lia).
  pose proof (skipn_advance source (S cursor) body _ H1) as H2.
  pose proof (skipn_advance source (S cursor + length body) [ch_backslash] _ H2)
    as H3.
  apply (parseString_loop_escape_faults fuel source (S cursor) [] (length body)).
  - simpl. lia.
  - exact (skipn_head _ _ _ _ H2).
  - apply skipn_in_range in H3. simpl in H3. lia.
  - intros i Hi. rewrite (skipn_nth _ _ _ _ _ H1 Hi).
    destruct (nth_error body i) as [ch|] eqn:E.
    + exists ch. split; [reflexivity|].
      rewrite forallb_forall in Hbody.
      specialize (Hbody ch (nth_error_In _ _ E)).
      apply andb_prop in Hbody as [Hb Hq].
      now apply negb_true_iff in Hb, Hq.
    + apply nth_error_None in E. lia.
  - exact Hfuel.
Qed.

Lemma parse_escape_faults : forall from_chars body c rest,
  escape_free body = true ->
  parse from_chars (ch_quote :: body ++ ch_backslash :: c :: rest)
  = Fault OutOfRange.
Proof.
  intros from_chars body c rest Hbody. unfold parse, parse_fuel.
  set (source := ch_quote :: body ++ ch_backslash :: c :: rest).
  replace (2 * length source + 1) with (S (2 * length source)) by lia.
  cbn [parseValue].
  assert (H : skipn 0 source = source) by reflexivity.
  rewrite (skipWhitespace_stay _ _ _ H) by reflexivity.
  unfold source at 2. cbn [nth_error]. simpl Ascii.eqb. cbv iota.
  rewrite (parseString_escape_faults _ source 0 body c rest);
    [reflexivity | reflexivity | exact Hbody |].
  unfold source. simpl. rewrite length_app. simpl. lia.
Qed.

(** C1. A string token with a backslash followed by a recognized escape
    character, after any characters that are neither a backslash nor a
    quotation mark, does not parse to a [String], nor to any value: the
    escape selector is read from the string being built, beyond its end,
    not from the source. *)
Theorem escape_not_decoded : forall from_chars body c second rest,
  escape_free body = true ->
  escapes c = Some second ->
  parse from_chars (ch_quote :: body ++ ch_backslash :: c :: rest)
  = Fault OutOfRange
  /\ forall v,
       parse from_chars (ch_quote :: body ++ ch_backslash :: c :: rest)
       <> Ret (Ok v).
Proof.
  intros from_chars body c second rest Hbody _.
  rewrite (parse_escape_faults from_chars body c rest Hbody).
  split; [reflexivity | discriminate].
Qed.

Lemma escape_not_decoded_witness :
  escape_free [] = true
  /\ escapes "n" = Some [ch_nl]
  /\ parse Std.from_chars (json "'\n'") = Fault OutOfRange
  /\ parse Std.from_chars (json "'\n'") <> Ret (Ok (String [ch_nl])).
Proof.
  split; [reflexivity|]. split; [reflexivity|].
  destruct (escape_not_decoded Std.from_chars [] "n" [ch_nl] [ch_quote]
              eq_refl eq_refl) as [H1 H2].
  split; [exact H1 | apply H2].
Defined.

(** C3. A string token with a backslash followed by [u], after any
    characters that are neither a backslash nor a quotation mark, is not
    answered with [Unicode escapes are not implemented yet], nor with any
    error: the test for [u] is made on a character read from the string
    being built, beyond its end. *)
Theorem unicode_escape_not_reported : forall from_chars body rest,
  escape_free body = true ->
  parse from_chars (ch_quote :: body ++ ch_backslash :: "u"%char :: rest)
  = Fault OutOfRange
  /\ forall e,
       parse from_chars (ch_quote :: body ++ ch_backslash :: "u"%char :: rest)
       <> Ret (Err e).
Proof.
  intros from_chars body rest Hbody.
  rewrite (parse_escape_faults from_chars body "u" rest Hbody).
  split; [reflexivity | discriminate].
Qed.

Lemma unicode_escape_not_reported_witness :
  escape_free [] = true
  /\ parse Std.from_chars (json "'\u0041'") = Fault OutOfRange
  /\ parse Std.from_chars (json "'\u0041'")
     <> Ret (Err (mkError 2 "Unicode escapes are not implemented yet")).
Proof.
  split; [reflexivity|].
  destruct (unicode_escape_not_reported Std.from_chars [] (json "0041'")
              eq_refl) as [H1 H2].
  split; [exact H1 | apply H2].
Defined.

(** ** A token has no end of its own *)

(** C9, as it is stated, fails where the bytes after a literal lengthen
    its token: [true garbage] parses to [true], [truegarbage] does not,
    whatever [from_chars] makes of that token. *)
Lemma trailing_letters_not_ignored :
  (forall from_chars,
      parse from_chars (lit "true garbage") = Ret (Ok (Bool true)))
  /\ (forall from_chars,
      parse from_chars (lit "truegarbage") <> Ret (Ok (Bool true)))
  /\ parse Std.from_chars (lit "truegarbage")
     = Ret (Err (mkError 0 "Invalid number")).
Proof.
  split; [intros; vm_compute; reflexivity|].
  split; [|vm_compute; reflexivity].
  intros from_chars H.
  assert (Hp : parse from_chars (lit "truegarbage")
               = match parseNumber from_chars (lit "truegarbage") with
                 | None => Ret (Err (mkError 0 "Invalid number"))
                 | Some number => Ret (Ok (Num number))
                 end).
  { unfold parse.
    replace (parseValue from_chars (parse_fuel (lit "truegarbage"))
               (lit "truegarbage") 0)
      with (Ret (A := Result JsonValue * nat)
              (parseLiteral from_chars (lit "truegarbage") 0))
      by reflexivity.
    rewrite parseLiteral_token.
    replace (substr (lit "truegarbage") 0
               (scan_end (lit "truegarbage") 0 - 0))
      with (lit "truegarbage") by reflexivity.
    cbv zeta.
    replace (length (lit "truegarbage") =? 0) with false by reflexivity.
    replace (text_eqb (lit "truegarbage") (lit "null")) with false
      by reflexivity.
    replace (text_eqb (lit "truegarbage") (lit "true")) with false
      by reflexivity.
    replace (text_eqb (lit "truegarbage") (lit "false")) with false
      by reflexivity.
    destruct (parseNumber from_chars (lit "truegarbage")); reflexivity. }
  rewrite Hp in H.
  destruct (parseNumber from_chars (lit "truegarbage")); discriminate H.
Qed.

(** * Further properties *)

(** ** The map of an object *)

Lemma nat_of_ascii_inj : forall a b, nat_of_ascii a = nat_of_ascii b -> a = b.
Proof.
  intros a b H. rewrite <- (ascii_nat_embedding a), <- (ascii_nat_embedding b).
  now rewrite H.
Qed.

Lemma key_compare_eq : forall a b, key_compare a b = Eq <-> a = b.
Proof.
  induction a as [|x a IH]; intros [|y b]; simpl; split; intros H;
    try reflexivity; try discriminate.
  - destruct (Nat.compare_spec (nat_of_ascii x) (nat_of_ascii y)) as [E|L|G];
      try discriminate.
    apply nat_of_ascii_inj in E. apply IH in H. congruence.
  - inversion H; subst. rewrite Nat.compare_refl. now apply IH.
Qed.

Lemma find_above : forall key rest,
  keys_above key rest -> find key rest = None.
Proof.
  intros key rest H. induction H as [|[k v] rest Hk Hrest IH]; simpl.
  - reflexivity.
  - simpl in Hk. rewrite text_eqb_neq; [exact IH|].
    intros ->. rewrite (proj2 (key_compare_eq key key) eq_refl) in Hk.
    discriminate.
Qed.

Lemma find_emplace_same : forall key value obj,
  StronglySorted key_lt obj ->
  find key (emplace key value obj)
  = Some (match find key obj with Some first => first | None => value end).
Proof.
  intros key value obj H. induction H as [|[k v] rest Hs IH Hk]; simpl.
  - now rewrite (proj2 (text_eqb_eq key key) eq_refl).
  - destruct (key_compare key k) eqn:E; simpl.
    + apply key_compare_eq in E. subst k.
      now rewrite (proj2 (text_eqb_eq key key) eq_refl).
    + rewrite (proj2 (text_eqb_eq key key) eq_refl).
      rewrite text_eqb_neq.
      * rewrite find_above; [reflexivity|].
        eapply Forall_impl; [|exact Hk]. intros [k' v'] Hk'.
        unfold key_lt in Hk'. simpl in *. eapply key_compare_trans; eauto.
      * intros ->. rewrite (proj2 (key_compare_eq key key) eq_refl) in E.
        discriminate.
    + rewrite text_eqb_neq; [exact IH|].
      intros ->. rewrite (proj2 (key_compare_eq key key) eq_refl) in E.
      discriminate.
Qed.

Lemma find_emplace_other : forall key value other obj,
  other <> key ->
  find other (emplace key value obj) = find other obj.
Proof.
  intros key value other obj Hne. induction obj as [|[k v] rest IH]; simpl.
  - rewrite text_eqb_neq; [reflexivity | congruence].
  - destruct (key_compare key k); simpl.
    + reflexivity.
    + rewrite (text_eqb_neq key other); [reflexivity | congruence].
    + now rewrite IH.
Qed.

Lemma length_emplace : forall key value obj,
  StronglySorted key_lt obj ->
  length (emplace key value obj)
  = match find key obj with
    | Some _ => length obj
    | None => S (length obj)
    end.
Proof.
  intros key value obj H. induction H as [|[k v] rest Hs IH Hk]; simpl.
  - reflexivity.
  - destruct (key_compare key k) eqn:E; simpl.
    + apply key_compare_eq in E. subst k.
      now rewrite (proj2 (text_eqb_eq key key) eq_refl).
    + rewrite text_eqb_neq.
      * rewrite find_above; [reflexivity|].
        eapply Forall_impl; [|exact Hk]. intros [k' v'] Hk'.
        unfold key_lt in Hk'. simpl in *. eapply key_compare_trans; eauto.
      * intros ->. rewrite (proj2 (key_compare_eq key key) eq_refl) in E.
        discriminate.
    + rewrite text_eqb_neq.
      * rewrite IH. now destruct (find key rest).
      * intros ->. rewrite (proj2 (key_compare_eq key key) eq_refl) in E.
        discriminate.
Qed.

(** X2. [emplace] keeps the members of a map in strictly increasing key
    order, and the map grows by one member exactly when the key was
    absent. *)
Theorem emplace_keeps_map : forall key value obj,
  StronglySorted key_lt obj ->
  StronglySorted key_lt (emplace key value obj)
  /\ length (emplace key value obj)
     = match find key obj with
       | Some _ => length obj
       | None => S (length obj)
       end.
Proof.
  intros key value obj H. split.
  - now apply emplace_keeps_order.
  - now apply length_emplace.
Qed.

Lemma emplace_keeps_map_witness :
  StronglySorted key_lt [(lit "b", Null)]
  /\ StronglySorted key_lt (emplace (lit "a") Null [(lit "b", Null)])
  /\ length (emplace (lit "a") Null [(lit "b", Null)]) = 2.
Proof.
  assert (H : StronglySorted key_lt [(lit "b", Null)]) by (repeat constructor).
  split; [exact H|]. exact (emplace_keeps_map (lit "a") Null _ H).
Defined.

(** ** What a parsed tree looks like *)

Lemma well_formed_Array : forall arr,
  well_formed (Array arr) <-> Forall well_formed arr.
Proof.
  induction arr as [|x arr IH]; simpl; split; intros H.
  - constructor.
  - exact I.
  - destruct H as [Hx H]. constructor; [exact Hx | now apply IH].
  - inversion H; subst. split; [assumption | now apply IH].
Qed.

Lemma well_formed_Object : forall obj,
  well_formed (Object obj)
  <-> StronglySorted key_lt obj /\ Forall (fun m => well_formed (snd m)) obj.
Proof.
  intros obj. simpl. split; intros [Hs H]; (split; [exact Hs|]).
  - clear Hs. induction obj as [|[k x] obj IH]; constructor.
    + now destruct H.
    + apply IH. now destruct H.
  - clear Hs. induction H as [|[k x] obj Hx H IH]; [exact I|].
    split; [exact Hx | exact IH].
Qed.

Lemma parse_well_formed : forall from_chars source fuel,
  (forall cursor v stop,
      parseValue from_chars fuel source cursor = Ret (Ok v, stop) ->
      well_formed v)
  /\ (forall cursor values v stop,
      Forall well_formed values ->
      parseArray from_chars fuel source cursor values = Ret (Ok v, stop) ->
      well_formed v)
  /\ (forall cursor obj v stop,
      StronglySorted key_lt obj ->
      Forall (fun m => well_formed (snd m)) obj ->
      parseObject from_chars fuel source cursor obj = Ret (Ok v, stop) ->
      well_formed v).
Proof.
  intros from_chars source.
  induction fuel as [|fuel [IHv [IHa IHo]]].
  - repeat split; intros; discriminate.
  - split; [|split].
    + intros cursor v stop H. cbn [parseValue] in H.
      destruct (nth_error source (skipWhitespace source cursor)) as [ch|];
        [|discriminate].
      destruct (Ascii.eqb ch "{").
      { eapply IHo; [constructor | constructor | exact H]. }
      destruct (Ascii.eqb ch "[").
      { eapply IHa; [constructor | exact H]. }
      destruct (Ascii.eqb ch ch_quote).
      { destruct (parseString fuel source (skipWhitespace source cursor))
          as [[[s|e] c1]|f]; simpl in H; try discriminate.
        inversion H; subst. exact I. }
      pose proof (parseLiteral_scalar from_chars source
                    (skipWhitespace source cursor)) as Hs.
      destruct (parseLiteral from_chars source (skipWhitespace source cursor))
        as [[v'|e] c1]; inversion H; subst.
      specialize (Hs v stop eq_refl). now destruct v.
    + intros cursor values v stop Hvalues H. cbn [parseArray] in H.
      destruct (cursor <? length source).
      2:{ inversion H; subst. now apply well_formed_Array. }
      destruct (nth_error source (skipWhitespace source cursor)) as [ch|];
        [|discriminate].
      destruct (Ascii.eqb ch "]").
      { inversion H; subst. now apply well_formed_Array. }
      destruct (parseValue from_chars fuel source
                  (skipWhitespace source cursor))
        as [[[value|e] c1]|f] eqn:Ev; simpl in H; try discriminate.
      apply IHv in Ev.
      assert (Hvalues' : Forall well_formed (values ++ [value]))
        by (apply Forall_app; split; [exact Hvalues | now constructor]).
      destruct (skipSeparator source c1) as [found c2].
      destruct (peek_is source c2 "]").
      { inversion H; subst. now apply well_formed_Array. }
      destruct found; [|discriminate]. eapply IHa; eauto.
    + intros cursor obj v stop Hsorted Hobj H. cbn [parseObject] in H.
      destruct (cursor <? length source).
      2:{ inversion H; subst. now apply well_formed_Object. }
      destruct (nth_error source (skipWhitespace source cursor)) as [ch|];
        [|discriminate].
      destruct (Ascii.eqb ch "}").
      { inversion H; subst. now apply well_formed_Object. }
      destruct (negb (Ascii.eqb ch ch_quote)); [discriminate|].
      destruct (parseString fuel source (skipWhitespace source cursor))
        as [[[key|e] c1]|f]; simpl in H; try discriminate.
      destruct (negb (peek_is source (skipWhitespace source c1) ":"));
        [discriminate|].
      destruct (length source <=? _); [discriminate|].
      destruct (parseValue from_chars fuel source _)
        as [[[value|e] c3]|f] eqn:Ev; simpl in H; try discriminate.
      apply IHv in Ev.
      assert (Hsorted' : StronglySorted key_lt (emplace key value obj))
        by now apply emplace_keeps_order.
      assert (Hobj' : Forall (fun m => well_formed (snd m))
                        (emplace key value obj))
        by (apply emplace_Forall; assumption).
      destruct (skipSeparator source c3) as [found c4].
      destruct (peek_is source c4 "}").
      { inversion H; subst. now apply well_formed_Object. }
      destruct found; [|discriminate]. eapply IHo; eauto.
Qed.

(** X3. Whatever [parse] returns as a value holds no [Invalid] at any
    depth, and the members of each of its objects are in strictly
    increasing key order, one per key, whatever the order and the
    repetitions in the text. *)
Theorem parse_builds_well_formed : forall from_chars source v,
  parse from_chars source = Ret (Ok v) -> well_formed v.
Proof.
  intros from_chars source v H. unfold parse in H.
  destruct (parseValue from_chars (parse_fuel source) source 0)
    as [[res stop]|f] eqn:E; simpl in H; [|discriminate].
  inversion H; subst.
  destruct (parse_well_formed from_chars source (parse_fuel source)) as [Hv _].
  eapply Hv; eauto.
Qed.

Lemma parse_builds_well_formed_witness :
  parse Std.from_chars (json "{'x': 1, 'a': [null], 'x': 2}")
  = Ret (Ok (Object [(lit "a", Array [Null]); (lit "x", Num 1%float)]))
  /\ well_formed (Object [(lit "a", Array [Null]); (lit "x", Num 1%float)]).
Proof.
  assert (H : parse Std.from_chars (json "{'x': 1, 'a': [null], 'x': 2}")
    = Ret (Ok (Object [(lit "a", Array [Null]); (lit "x", Num 1%float)])))
    by (vm_compute; reflexivity).
  split; [exact H|].
  exact (parse_builds_well_formed Std.from_chars _ _ H).
Defined.

(** ** What [dump] asserts *)

Lemma well_formed_valid : forall v, well_formed v -> valid_tree v = true.
Proof.
  induction v as [ | | b | n | s | arr IHarr | obj IHobj]
    using JsonValue_tree_ind; intros H; try reflexivity.
  - contradiction.
  - apply well_formed_Array in H. simpl. apply forallb_forall. intros x Hx.
    rewrite Forall_forall in IHarr, H. auto.
  - apply well_formed_Object in H as [_ H]. simpl. apply forallb_forall.
    intros m Hm. rewrite Forall_forall in IHobj, H. auto.
Qed.

Lemma dump_elements_asserts : forall dump_value indentStr indent n rest,
  Forall (fun x =>
            (valid_tree x = true -> exists d, dump_value x = Ret d)
            /\ (valid_tree x = false -> dump_value x = Fault AssertFailed))
         rest ->
  forall i ret,
  (forallb valid_tree rest = true ->
   exists t, dump_elements dump_value indentStr indent n i rest ret = Ret t)
  /\ (forallb valid_tree rest = false ->
      dump_elements dump_value indentStr indent n i rest ret
      = Fault AssertFailed).
Proof.
  intros dump_value indentStr indent n rest H.
  induction H as [|x rest [Hok Hbad] Hrest IH]; intros i ret; simpl.
  - split; [eauto | discriminate].
  - destruct (valid_tree x); simpl.
    + destruct (Hok eq_refl) as [d ->]. simpl. apply IH.
    + split; [discriminate|]. intros _. now rewrite (Hbad eq_refl).
Qed.

Lemma dump_members_asserts : forall dump_value indentStr indent n rest,
  Forall (fun m =>
            (valid_tree (snd m) = true -> exists d, dump_value (snd m) = Ret d)
            /\ (valid_tree (snd m) = false ->
                dump_value (snd m) = Fault AssertFailed))
         rest ->
  forall idx ret,
  (forallb (fun m => valid_tree (snd m)) rest = true ->
   exists t, dump_members dump_value indentStr indent n idx rest ret = Ret t)
  /\ (forallb (fun m => valid_tree (snd m)) rest = false ->
      dump_members dump_value indentStr indent n idx rest ret
      = Fault AssertFailed).
Proof.
  intros dump_value indentStr indent n rest H.
  induction H as [|[key x] rest [Hok Hbad] Hrest IH]; intros idx ret; simpl.
  - split; [eauto | discriminate].
  - simpl in Hok, Hbad. destruct (valid_tree x); simpl.
    + destruct (Hok eq_refl) as [d ->]. simpl. apply IH.
    + split; [discriminate|]. intros _. now rewrite (Hbad eq_refl).
Qed.

(** [dump] by the validity of the tree. *)
Lemma dump_by_validity : forall to_string v indent level,
  (valid_tree v = true -> exists d, dump to_string indent level v = Ret d)
  /\ (valid_tree v = false ->
      dump to_string indent level v = Fault AssertFailed).
Proof.
  intros to_string.
  induction v as [ | | b | n | s | arr IHarr | obj IHobj]
    using JsonValue_tree_ind; intros indent level;
    try (split; [simpl; eauto | discriminate]).
  - split; [discriminate | reflexivity].
  - cbn [dump valid_tree].
    assert (H : Forall (fun x =>
              (valid_tree x = true ->
               exists d, dump to_string indent (level + 1) x = Ret d)
              /\ (valid_tree x = false ->
                  dump to_string indent (level + 1) x = Fault AssertFailed))
              arr)
      by (eapply Forall_impl; [|exact IHarr]; intros x Hx; apply Hx).
    destruct (dump_elements_asserts _ (repeat_text indent level) indent
                (length arr) arr H 0 (lit "[" ++ [ch_nl])) as [Hok Hbad].
    split; intros Hv.
    + destruct (Hok Hv) as [t ->]. simpl. eauto.
    + now rewrite (Hbad Hv).
  - cbn [dump valid_tree].
    assert (H : Forall (fun m =>
              (valid_tree (snd m) = true ->
               exists d, dump to_string indent (level + 1) (snd m) = Ret d)
              /\ (valid_tree (snd m) = false ->
                  dump to_string indent (level + 1) (snd m)
                  = Fault AssertFailed))
              obj)
      by (eapply Forall_impl; [|exact IHobj]; intros x Hx; apply Hx).
    destruct (dump_members_asserts _ (repeat_text indent level) indent
                (length obj) obj H 0 (lit "{" ++ [ch_nl])) as [Hok Hbad].
    split; intros Hv.
    + destruct (Hok Hv) as [t ->]. simpl. eauto.
    + now rewrite (Hbad Hv).
Qed.

(** X4. [dump] returns a text exactly for the trees that hold no
    [Invalid]; on a tree with an [Invalid] at the top or anywhere below,
    the assertion at the head of [dump] fails. *)
Theorem dump_asserts_valid : forall to_string v indent level,
  ((exists d, dump to_string indent level v = Ret d) <-> valid_tree v = true)
  /\ (dump to_string indent level v = Fault AssertFailed
      <-> valid_tree v = false).
Proof.
  intros to_string v indent level.
  destruct (dump_by_validity to_string v indent level) as [Hok Hbad].
  destruct (valid_tree v) eqn:E.
  - destruct (Hok eq_refl) as [d Hd]. split; split; intros H.
    + reflexivity.
    + now exists d.
    + congruence.
    + discriminate.
  - specialize (Hbad eq_refl). split; split; intros H.
    + destruct H as [d Hd]. congruence.
    + discriminate.
    + reflexivity.
    + exact Hbad.
Qed.

Lemma dump_asserts_valid_witness :
  dump Std.to_string [] 0 (Array [Null; Object [(lit "a", Invalid)]])
  = Fault AssertFailed.
Proof.
  apply (dump_asserts_valid Std.to_string
           (Array [Null; Object [(lit "a", Invalid)]]) [] 0).
  reflexivity.
Defined.

(** X5. A value returned by [parse] can always be handed to [dump]: no
    assertion fails, whatever the indentation and the conversion of
    numbers. *)
Theorem parsed_value_dumps : forall from_chars to_string source v indent level,
  parse from_chars source = Ret (Ok v) ->
  exists d, dump to_string indent level v = Ret d.
Proof.
  intros from_chars to_string source v indent level H.
  apply dump_by_validity. apply well_formed_valid.
  unfold parse in H.
  destruct (parseValue from_chars (parse_fuel source) source 0)
    as [[res stop]|f] eqn:E; simpl in H; [|discriminate].
  inversion H; subst.
  destruct (parse_well_formed from_chars source (parse_fuel source)) as [Hv _].
  eapply Hv; eauto.
Qed.

Lemma parsed_value_dumps_witness :
  parse Std.from_chars (json "[1, {'k': 'v'}]")
  = Ret (Ok (Array [Num 1%float; Object [(lit "k", String (lit "v"))]]))
  /\ exists d,
       dump Std.to_string (lit " ") 0
         (Array [Num 1%float; Object [(lit "k", String (lit "v"))]]) = Ret d.
Proof.
  assert (H : parse Std.from_chars (json "[1, {'k': 'v'}]")
    = Ret (Ok (Array [Num 1%float; Object [(lit "k", String (lit "v"))]])))
    by (vm_compute; reflexivity).
  split; [exact H|].
  exact (parsed_value_dumps Std.from_chars Std.to_string _ _ (lit " ") 0 H).
Defined.

(** ** String tokens, read backwards from the result *)

Lemma skipn_cons_nth : forall (s : text) c x,
  nth_error s c = Some x -> skipn c s = x :: skipn (S c) s.
Proof.
  induction s as [|y s IH]; intros [|c] x H; simpl in *; try discriminate.
  - now inversion H.
  - now apply IH.
Qed.

Lemma escape_ahead_le : forall source from from',
  from <= from' -> escape_ahead source from' -> escape_ahead source from.
Proof.
  intros source from from' Hle [i [Hi H]]. exists i. split; [lia | exact H].
Qed.

Lemma no_backslash_no_escape : forall source from,
  in_chars ch_backslash source = false -> ~ escape_ahead source from.
Proof.
  intros source from Hno [i [_ [Hi _]]].
  apply nth_error_In in Hi.
  assert (Hyes : in_chars ch_backslash source = true).
  { unfold in_chars. apply existsb_exists. exists ch_backslash.
    split; [exact Hi | apply Ascii.eqb_refl]. }
  congruence.
Qed.

(** The loop of [parseString], entered with a string no longer than the
    cursor: what each of its outcomes says about the buffer. *)
Lemma parseString_loop_outcomes : forall fuel source start str,
  length str <= start -> start <= length source ->
  match parseString_loop fuel source start str with
  | Ret (Ok s, stop) =>
      exists body,
        s = str ++ body /\ escape_free body = true
        /\ skipn start source = body ++ ch_quote :: skipn stop source
        /\ stop = start + length body + 1
  | Ret (Err e, _) =>
      cursor e = length source
      /\ (message e = "Unterminated string"%string
          \/ message e = "Incomplete character escape"%string)
  | Fault f => f = OutOfFuel \/ (f = OutOfRange /\ escape_ahead source start)
  end.
Proof.
  induction fuel as [|fuel IH]; intros source start str Hstr Hle.
  - simpl. now left.
  - cbn [parseString_loop].
    destruct (nth_error source start) as [ch|] eqn:E.
    2:{ apply nth_error_None in E. simpl. split; [lia | now left]. }
    assert (Hlt : start < length source)
      by (apply nth_error_Some; congruence).
    destruct (Ascii.eqb ch ch_backslash) eqn:Eb.
    + apply Ascii.eqb_eq in Eb. subst ch.
      destruct (length source <=? S start) eqn:El.
      * apply Nat.leb_le in El. simpl. split; [lia | now right].
      * unfold string_at.
        replace (nth_error str (S start)) with (@None ascii)
          by (symmetry; apply nth_error_None; lia).
        replace (S start =? length str) with false
          by (symmetry; apply Nat.eqb_neq; lia).
        simpl. right. split; [reflexivity|].
        apply Nat.leb_gt in El. exists start. now repeat split.
    + destruct (Ascii.eqb ch ch_quote) eqn:Eq.
      * apply Ascii.eqb_eq in Eq. subst ch.
        exists []. rewrite app_nil_r. simpl.
        repeat split; [now apply skipn_cons_nth | lia].
      * specialize (IH source (S start) (str ++ [ch])).
        rewrite length_app in IH. cbn [length] in IH.
        specialize (IH ltac:(lia) ltac:(lia)).
        destruct (parseString_loop fuel source (S start) (str ++ [ch]))
          as [[[s|e] stop]|f]; [|exact IH|].
        2:{ destruct IH as [IH|[IH Hesc]]; [now left | right].
            split; [exact IH|].
            now apply (escape_ahead_le source start (S start)); [lia|]. }
        destruct IH as [body [Hs [Hfree [Hskip Hstop]]]].
        exists (ch :: body). rewrite <- app_assoc in Hs.
        split; [exact Hs|]. split.
        { unfold escape_free in *. simpl. now rewrite Eb, Eq, Hfree. }
        split; [|simpl; lia].
        rewrite (skipn_cons_nth _ _ _ E), Hskip. reflexivity.
Qed.

Lemma parseString_outcomes : forall fuel source start,
  match parseString fuel source start with
  | Ret (Ok s, stop) =>
      escape_free s = true
      /\ skipn start source = ch_quote :: s ++ ch_quote :: skipn stop source
      /\ stop = start + length s + 2
  | Ret (Err e, _) =>
      cursor e = length source
      /\ (message e = "Unterminated string"%string
          \/ message e = "Incomplete character escape"%string)
  | Fault f =>
      f = OutOfFuel \/ (f = OutOfRange /\ escape_ahead source start)
      \/ (f = AssertFailed /\ peek_is source start ch_quote = false)
  end.
Proof.
  intros fuel source start. unfold parseString, peek_is.
  destruct (nth_error source start) as [ch|] eqn:E.
  2:{ right. right. now split. }
  destruct (Ascii.eqb ch ch_quote) eqn:Eq.
  2:{ right. right. now split. }
  apply Ascii.eqb_eq in Eq. subst ch.
  assert (Hlt : start < length source)
    by (apply nth_error_Some; congruence).
  pose proof (parseString_loop_outcomes fuel source (S start) []
                ltac:(simpl; lia) ltac:(lia)) as H.
  destruct (parseString_loop fuel source (S start) [])
    as [[[s|e] stop]|f].
  - destruct H as [body [Hs [Hfree [Hskip Hstop]]]]. simpl in Hs. subst s.
    split; [exact Hfree|]. split; [|lia].
    rewrite (skipn_cons_nth _ _ _ E), Hskip. reflexivity.
  - exact H.
  - destruct H as [H|[H Hesc]]; [now left | right; left].
    split; [exact H|]. now apply (escape_ahead_le source start (S start)); [lia|].
Qed.

(** X6. A string token without backslash that parses is returned as it
    stands in the buffer: when [parseString] returns a string and the
    characters it went over hold no backslash, these characters are a
    quotation mark, the characters of the string, none of them a quotation
    mark, and a quotation mark, and the cursor is left behind the closing
    mark. *)
Theorem parseString_verbatim : forall fuel source start s stop,
  parseString fuel source start = Ret (Ok s, stop) ->
  ~ In ch_backslash (substr source start (stop - start)) ->
  escape_free s = true
  /\ skipn start source = ch_quote :: s ++ ch_quote :: skipn stop source
  /\ stop = start + length s + 2.
Proof.
  intros fuel source start s stop H _.
  pose proof (parseString_outcomes fuel source start) as Ho.
  now rewrite H in Ho.
Qed.

Lemma parseString_verbatim_witness :
  parseString 9 (json "x'a b'y") 1 = Ret (Ok (lit "a b"), 6)
  /\ escape_free (lit "a b") = true
  /\ skipn 1 (json "x'a b'y")
     = ch_quote :: lit "a b" ++ ch_quote :: skipn 6 (json "x'a b'y")
  /\ 6 = 1 + length (lit "a b") + 2.
Proof.
  assert (H : parseString 9 (json "x'a b'y") 1 = Ret (Ok (lit "a b"), 6))
    by reflexivity.
  split; [exact H|]. apply (parseString_verbatim _ _ _ _ _ H).
  simpl. intros [E|[E|[E|[E|[E|E]]]]]; try discriminate E; exact E.
Defined.

(** X7. On a buffer that from the token on holds no backslash other than
    as its last character, a string token is answered with a string or an
    error, without any read out of range, and every error is reported at
    the end of the buffer, as [Unterminated string] or [Incomplete
    character escape]. *)
Theorem parseString_errors_at_end : forall fuel source start,
  peek_is source start ch_quote = true ->
  length source - start <= fuel ->
  ~ escape_ahead source start ->
  exists res stop,
    parseString fuel source start = Ret (res, stop)
    /\ forall e, res = Err e ->
         cursor e = length source
         /\ (message e = "Unterminated string"%string
             \/ message e = "Incomplete character escape"%string).
Proof.
  intros fuel source start Hq Hfuel Hno.
  pose proof (parseString_outcomes fuel source start) as Ho.
  pose proof (parseString_terminates fuel source start Hfuel) as Ht.
  destruct (parseString fuel source start) as [[[s|e] stop]|f].
  - exists (Ok s), stop. split; [reflexivity | discriminate].
  - exists (Err e), stop. split; [reflexivity|].
    intros e' He. now injection He as <-.
  - exfalso. destruct Ho as [->|[[_ Hesc]|[_ Hpeek]]].
    + now apply Ht.
    + now apply Hno.
    + congruence.
Qed.

Lemma parseString_errors_at_end_witness :
  exists res stop,
    parseString 4 (json "'a" ++ [ch_backslash]) 0 = Ret (res, stop)
    /\ forall e, res = Err e ->
         cursor e = length (json "'a" ++ [ch_backslash])
         /\ (message e = "Unterminated string"%string
             \/ message e = "Incomplete character escape"%string).
Proof.
  apply (parseString_errors_at_end 4 (json "'a" ++ [ch_backslash]) 0).
  - reflexivity.
  - simpl. lia.
  - intros [i [_ [Hi Hlast]]]. simpl in Hlast.
    destruct i as [|[|i]]; [discriminate Hi | discriminate Hi | lia].
Defined.

(** ** Errors and faults of a parse *)

Ltac cursor_facts :=
  repeat match goal with
         | H : nth_error _ _ = None |- _ => apply nth_error_None in H
         | H : nth_error ?s ?c = Some _ |- _ =>
             assert (c < length s) by (apply nth_error_Some; congruence);
             clear H
         end.

Ltac absurd_message H :=
  exfalso; cbv [message end_messages inner_messages In] in H;
  repeat match type of H with
         | _ \/ _ => destruct H as [H|H]
         end; first [discriminate H | exact H].

Ltac known_error :=
  cursor_facts;
  split; [cbv [message parse_messages In]; tauto |];
  split; [cbv [cursor]; lia |];
  split; (let H := fresh "Hm" in
          intros H; cbv [cursor]; first [lia | absurd_message H]).

Lemma parseLiteral_sound : forall from_chars source start,
  start < length source ->
  sound_outcome source
    (Ret (A := Result JsonValue * nat) (parseLiteral from_chars source start)).
Proof.
  intros from_chars source start Hle. rewrite parseLiteral_token. cbv zeta.
  repeat match goal with
         | |- context [if ?b then _ else _] => destruct b
         | |- context [match parseNumber ?f ?t with _ => _ end] =>
             destruct (parseNumber f t)
         end; simpl; try exact I; known_error.
Qed.

Lemma parseString_sound : forall fuel source start,
  peek_is source start ch_quote = true ->
  sound_outcome source (parseString fuel source start).
Proof.
  intros fuel source start Hq.
  pose proof (parseString_outcomes fuel source start) as Hs.
  destruct (parseString fuel source start) as [[[s|e] c1]|f]; simpl.
  - exact I.
  - destruct Hs as [Hc [Hm|Hm]]; rewrite Hm;
      (split; [cbv [parse_messages In]; tauto |]);
      (split; [lia|]);
      (split; intros Hin; [exact Hc | absurd_message Hin]).
  - destruct Hs as [Hs|[[Hs Hesc]|[_ Hs]]]; [now left | right | congruence].
    split; [exact Hs|]. now apply (escape_ahead_le source 0 start); [lia|].
Qed.

Lemma parse_sound : forall from_chars source fuel,
  (forall start,
      start <= length source ->
      sound_outcome source (parseValue from_chars fuel source start))
  /\ (forall start values,
      start <= length source ->
      sound_outcome source (parseArray from_chars fuel source start values))
  /\ (forall start obj,
      start <= length source ->
      sound_outcome source (parseObject from_chars fuel source start obj)).
Proof.
  intros from_chars source.
  induction fuel as [|fuel [IHv [IHa IHo]]].
  - repeat split; intros; simpl; now left.
  - split; [|split].
    + intros start Hle. cbn [parseValue].
      pose proof (skipWhitespace_le source start Hle) as Hws.
      destruct (nth_error source (skipWhitespace source start)) as [ch|] eqn:E.
      2:{ simpl. known_error. }
      assert (Hin : skipWhitespace source start < length source)
        by (apply nth_error_Some; congruence).
      destruct (Ascii.eqb ch "{"); [apply IHo; lia|].
      destruct (Ascii.eqb ch "["); [apply IHa; lia|].
      destruct (Ascii.eqb ch ch_quote) eqn:Eq.
      * assert (Hq : peek_is source (skipWhitespace source start) ch_quote
                     = true) by (unfold peek_is; now rewrite E).
        pose proof (parseString_sound fuel source _ Hq) as Hs.
        destruct (parseString fuel source (skipWhitespace source start))
          as [[[s|e] c1]|f]; simpl; [exact I | exact Hs | exact Hs].
      * now apply parseLiteral_sound.
    + intros start values Hle. cbn [parseArray].
      destruct (start <? length source); [|exact I].
      pose proof (skipWhitespace_le source start Hle) as Hws.
      destruct (nth_error source (skipWhitespace source start)) as [ch|] eqn:E.
      2:{ simpl. known_error. }
      destruct (Ascii.eqb ch "]"); [exact I|].
      pose proof (IHv _ Hws) as Hv.
      destruct (parseValue from_chars fuel source
                  (skipWhitespace source start))
        as [[[value|e] c1]|f] eqn:Ev; cbn [bind]; [|exact Hv|exact Hv].
      apply (parse_progress from_chars source fuel) in Ev.
      pose proof (skipSeparator_bounds source c1) as [_ Hs2].
      destruct (skipSeparator source c1) as [found c2]; simpl in Hs2.
      destruct (peek_is source c2 "]"); [exact I|].
      destruct found; [apply IHa; lia|]. simpl. known_error.
    + intros start obj Hle. cbn [parseObject].
      destruct (start <? length source); [|exact I].
      pose proof (skipWhitespace_le source start Hle) as Hws.
      destruct (nth_error source (skipWhitespace source start)) as [ch|] eqn:E.
      2:{ simpl. known_error. }
      destruct (Ascii.eqb ch "}"); [exact I|].
      destruct (negb (Ascii.eqb ch ch_quote)) eqn:Eq.
      { simpl. known_error. }
      apply negb_false_iff in Eq.
      assert (Hq : peek_is source (skipWhitespace source start) ch_quote
                   = true) by (unfold peek_is; now rewrite E).
      pose proof (parseString_sound fuel source _ Hq) as Hs.
      destruct (parseString fuel source (skipWhitespace source start))
        as [[[key|e] c1]|f] eqn:Es; cbn [bind]; [|exact Hs|exact Hs].
      apply parseString_progress in Es.
      pose proof (skipWhitespace_le source c1 ltac:(lia)) as Hws1.
      unfold peek_is.
      destruct (nth_error source (skipWhitespace source c1)) as [ch1|] eqn:E1.
      2:{ simpl. known_error. }
      assert (Hin1 : skipWhitespace source c1 < length source)
        by (apply nth_error_Some; congruence).
      destruct (negb (Ascii.eqb ch1 ":")).
      { simpl. known_error. }
      pose proof (skipWhitespace_le source (S (skipWhitespace source c1))
                    ltac:(lia)) as Hws2.
      destruct (length source <=? skipWhitespace source
                                    (S (skipWhitespace source c1))) eqn:El.
      { apply Nat.leb_le in El. simpl. known_error. }
      pose proof (IHv _ Hws2) as Hv.
      destruct (parseValue from_chars fuel source _)
        as [[[value|e] c3]|f] eqn:Ev; cbn [bind]; [|exact Hv|exact Hv].
      apply (parse_progress from_chars source fuel) in Ev.
      pose proof (skipSeparator_bounds source c3) as [_ Hs2].
      destruct (skipSeparator source c3) as [found c4]; simpl in Hs2.
      destruct (nth_error source c4) as [ch4|].
      * destruct (Ascii.eqb ch4 "}"); [exact I|].
        destruct found; [apply IHo; lia|]. simpl. known_error.
      * destruct found; [apply IHo; lia|]. simpl. known_error.
Qed.

Lemma parse_outcome_sound : forall from_chars source,
  match parse from_chars source with
  | Ret (Ok _) => True
  | Ret (Err e) =>
      In (message e) parse_messages
      /\ cursor e <= length source
      /\ (In (message e) end_messages -> cursor e = length source)
      /\ (In (message e) inner_messages -> cursor e < length source)
  | Fault f => f = OutOfRange /\ escape_ahead source 0
  end.
Proof.
  intros from_chars source.
  destruct (parse_fuel_enough from_chars source (parse_fuel source))
    as [Hf _].
  specialize (Hf 0 ltac:(unfold parse_fuel; lia)).
  unfold parse.
  destruct (parse_sound from_chars source (parse_fuel source)) as [Hv _].
  specialize (Hv 0 ltac:(lia)).
  destruct (parseValue from_chars (parse_fuel source) source 0)
    as [[[v|e] stop]|f] eqn:E; simpl; try exact Hv.
  destruct Hv as [->|Hv]; [|exact Hv].
  exfalso. now apply Hf.
Qed.

(** X8. On a buffer that holds no backslash other than as its last
    character, so that no run reaches the read of [str[cursor]], an error
    returned by [parse] carries one of ten messages and a cursor inside
    the buffer or at its end. *)
Theorem parse_error_known : forall from_chars source e,
  ~ escape_ahead source 0 ->
  parse from_chars source = Ret (Err e) ->
  In (message e) parse_messages /\ cursor e <= length source.
Proof.
  intros from_chars source e _ H.
  pose proof (parse_outcome_sound from_chars source) as Hs.
  rewrite H in Hs. split; apply Hs.
Qed.

Lemma parse_error_known_witness :
  parse Std.from_chars (json "{'a': }")
  = Ret (Err (mkError 6 "Value must not be empty"))
  /\ In (message (mkError 6 "Value must not be empty")) parse_messages
  /\ cursor (mkError 6 "Value must not be empty") <= length (json "{'a': }").
Proof.
  assert (H : parse Std.from_chars (json "{'a': }")
              = Ret (Err (mkError 6 "Value must not be empty")))
    by (vm_compute; reflexivity).
  split; [exact H|].
  apply (parse_error_known Std.from_chars (json "{'a': }") _); [|exact H].
  apply no_backslash_no_escape. reflexivity.
Defined.

(** X9. A parse fails neither assertion of [parseString], whose callers
    have tested the quotation mark, and reads out of range only at
    [str[cursor]] in the escape branch: if it does, the buffer holds a
    backslash that is not its last character. *)
Theorem parse_faults_only_on_escape : forall from_chars source,
  parse from_chars source <> Fault AssertFailed
  /\ (parse from_chars source = Fault OutOfRange -> escape_ahead source 0).
Proof.
  intros from_chars source.
  pose proof (parse_outcome_sound from_chars source) as Hs.
  destruct (parse from_chars source) as [res|f].
  - split; discriminate.
  - destruct Hs as [-> Hesc]. split; [discriminate|].
    intros _. exact Hesc.
Qed.

Lemma parse_faults_only_on_escape_witness :
  parse Std.from_chars [ch_quote; ch_backslash; "n"%char; ch_quote]
  = Fault OutOfRange
  /\ escape_ahead [ch_quote; ch_backslash; "n"%char; ch_quote] 0.
Proof.
  assert (H : parse Std.from_chars [ch_quote; ch_backslash; "n"%char; ch_quote]
              = Fault OutOfRange) by (vm_compute; reflexivity).
  split; [exact H|].
  now apply (parse_faults_only_on_escape Std.from_chars
               [ch_quote; ch_backslash; "n"%char; ch_quote]).
Defined.

(** X10. What [getContext] does with the cursor of a parse error, as the
    test program calls it.  After [Expected value], [Unterminated string],
    [Unterminated array], [Unterminated object] and [Incomplete character
    escape] the cursor is the size of the buffer, and [getContext] reads
    out of range unless the buffer is empty; after [Expected key], [Value
    must not be empty] and [Invalid number] the cursor is inside the
    buffer and [getContext] returns its two lines. *)
Theorem parse_error_context : forall from_chars source e,
  parse from_chars source = Ret (Err e) ->
  (In (message e) end_messages ->
   cursor e = length source
   /\ (source <> [] -> getContext source (cursor e) = Fault OutOfRange))
  /\ (In (message e) inner_messages ->
      cursor e < length source
      /\ exists out, getContext source (cursor e) = Ret out).
Proof.
  intros from_chars source e H.
  pose proof (parse_outcome_sound from_chars source) as Hs.
  rewrite H in Hs. destruct Hs as [_ [_ [Hend Hin]]]. split.
  - intros Hm. specialize (Hend Hm). split; [exact Hend|].
    intros Hne. rewrite Hend. unfold getContext.
    destruct source as [|c rest]; [congruence|].
    cbn [length lineStart_loop]. unfold view_at.
    replace (nth_error (c :: rest) (S (length rest))) with (@None ascii).
    + reflexivity.
    + symmetry. apply nth_error_None. simpl. lia.
  - intros Hm. specialize (Hin Hm). split; [exact Hin|].
    now apply getContext_in_range.
Qed.

Lemma parse_error_context_witness :
  parse Std.from_chars (json "['abc") = Ret (Err (mkError 5 "Unterminated string"))
  /\ getContext (json "['abc") 5 = Fault OutOfRange.
Proof.
  assert (H : parse Std.from_chars (json "['abc")
              = Ret (Err (mkError 5 "Unterminated string")))
    by (vm_compute; reflexivity).
  split; [exact H|].
  destruct (parse_error_context _ _ _ H) as [Hend _].
  apply Hend.
  - cbv [message end_messages In]. tauto.
  - discriminate.
Defined.

(** ** The two lines of [getContext] *)

Lemma nth_error_middle : forall (pre rest : text) c,
  nth_error (pre ++ c :: rest) (length pre) = Some c.
Proof.
  intros pre rest c. rewrite nth_error_app2, Nat.sub_diag; [reflexivity|lia].
Qed.

Lemma nth_error_in_line : forall (pre line post : text) j,
  j < length line ->
  exists c, nth_error (pre ++ line ++ post) (length pre + j) = Some c
            /\ In c line.
Proof.
  intros pre line post j Hj.
  destruct (nth_error line j) as [c|] eqn:E.
  - exists c. split; [|eapply nth_error_In; eauto].
    rewrite nth_error_app2 by lia.
    replace (length pre + j - length pre) with j by lia.
    rewrite nth_error_app1 by lia. exact E.
  - apply nth_error_None in E. lia.
Qed.

Lemma eqb_nl_in_line : forall (line : text) c,
  ~ In ch_nl line -> In c line -> Ascii.eqb c ch_nl = false.
Proof.
  intros line c Hno Hin. apply Ascii.eqb_neq. intros ->. contradiction.
Qed.

(** The backward loop, started inside a line, stops on the newline before
    the line, or at index 0. *)
Lemma lineStart_loop_line : forall (pre line post : text) j,
  ~ In ch_nl line ->
  j < length line ->
  lineStart_loop (pre ++ line ++ post) (length pre + j)
  = lineStart_loop (pre ++ line ++ post) (length pre).
Proof.
  intros pre line post j Hno. induction j as [|j IH]; intros Hj.
  - now rewrite Nat.add_0_r.
  - replace (length pre + S j) with (S (length pre + j)) by lia.
    cbn [lineStart_loop]. unfold view_at.
    destruct (nth_error_in_line pre line post (S j) Hj) as [c [Hc Hin]].
    replace (S (length pre + j)) with (length pre + S j) by lia.
    rewrite Hc. cbn [bind]. rewrite (eqb_nl_in_line line c Hno Hin).
    cbn [negb]. apply IH. lia.
Qed.

Lemma lineEnd_loop_line : forall (rest post done : text) n,
  ~ In ch_nl rest ->
  (post = [] \/ exists q, post = ch_nl :: q) ->
  length rest + length post <= n ->
  lineEnd_loop n (done ++ rest ++ post) (length done)
  = length done + length rest.
Proof.
  induction rest as [|c rest IH]; intros post done n Hno Hpost Hn.
  - cbn [app length]. rewrite Nat.add_0_r.
    destruct n as [|n]; [reflexivity|]. cbn [lineEnd_loop].
    destruct Hpost as [->|[q ->]].
    + rewrite app_nil_r.
      replace (nth_error done (length done)) with (@None ascii);
        [reflexivity|].
      symmetry. apply nth_error_None. lia.
    + rewrite nth_error_middle. now rewrite Ascii.eqb_refl.
  - destruct n as [|n]; [simpl in Hn; lia|]. cbn [lineEnd_loop].
    change ((c :: rest) ++ post) with (c :: rest ++ post).
    rewrite nth_error_middle.
    rewrite (eqb_nl_in_line (c :: rest) c Hno) by now left.
    cbn [negb].
    replace (done ++ c :: rest ++ post) with ((done ++ [c]) ++ rest ++ post)
      by now rewrite <- app_assoc.
    replace (S (length done)) with (length (done ++ [c]))
      by (rewrite length_app; simpl; lia).
    rewrite IH.
    + rewrite length_app. simpl. lia.
    + intros Hin. apply Hno. now right.
    + exact Hpost.
    + simpl in Hn. lia.
Qed.

(** X11. With the cursor on the character of index [k] of a line, that is
    a stretch without newline between the start of the buffer or a newline
    and a newline or the end of the buffer, [getContext] returns that
    line, a newline, [k] spaces and a caret. *)
Theorem getContext_line : forall (pre line post : text) k,
  (pre = [] \/ exists p, pre = p ++ [ch_nl]) ->
  ~ In ch_nl line ->
  (post = [] \/ exists q, post = ch_nl :: q) ->
  k < length line ->
  getContext (pre ++ line ++ post) (length pre + k)
  = Ret (line ++ [ch_nl] ++ repeat " "%char k ++ lit "^").
Proof.
  intros pre line post k Hpre Hno Hpost Hk. unfold getContext.
  rewrite (lineStart_loop_line pre line post k Hno Hk).
  assert (Hstart :
    (lineStart <- lineStart_loop (pre ++ line ++ post) (length pre) ;;
     (if lineStart <? length pre + k then
        c <- view_at (pre ++ line ++ post) lineStart ;;
        Ret (if Ascii.eqb c ch_nl then S lineStart else lineStart)
      else Ret lineStart)) = Ret (length pre)).
  { destruct Hpre as [->|[p ->]].
    - cbn [length lineStart_loop bind app Nat.add].
      destruct k as [|k]; [reflexivity|].
      cbn [Nat.ltb Nat.leb]. unfold view_at.
      destruct (nth_error_in_line [] line post 0 ltac:(lia)) as [c [Hc Hin]].
      cbn [length app Nat.add] in Hc. rewrite Hc. cbn [bind].
      now rewrite (eqb_nl_in_line line c Hno Hin).
    - rewrite length_app. cbn [length].
      replace (length p + 1) with (S (length p)) by lia.
      cbn [lineStart_loop]. unfold view_at.
      destruct (nth_error_in_line (p ++ [ch_nl]) line post 0 ltac:(lia))
        as [c [Hc Hin]].
      rewrite length_app in Hc. cbn [length] in Hc.
      replace (length p + 1 + 0) with (S (length p)) in Hc by lia.
      rewrite Hc. cbn [bind]. rewrite (eqb_nl_in_line line c Hno Hin).
      cbn [negb].
      assert (Hnl : nth_error ((p ++ [ch_nl]) ++ line ++ post) (length p)
                    = Some ch_nl).
      { rewrite <- app_assoc. apply nth_error_middle. }
      assert (Hloop : lineStart_loop ((p ++ [ch_nl]) ++ line ++ post)
                        (length p) = Ret (length p)).
      { destruct (length p) as [|n] eqn:El; [reflexivity|].
        cbn [lineStart_loop]. unfold view_at. rewrite Hnl. cbn [bind].
        now rewrite Ascii.eqb_refl. }
      rewrite Hloop. cbn [bind].
      replace (length p <? S (length p) + k) with true
        by (symmetry; apply Nat.ltb_lt; lia).
      unfold view_at. rewrite Hnl. cbn [bind].
      now rewrite Ascii.eqb_refl. }
  destruct (lineStart_loop (pre ++ line ++ post) (length pre))
    as [s0|f] eqn:E0; cbn [bind] in Hstart |- *; [|discriminate].
  destruct (if s0 <? length pre + k then _ else _) as [s1|f];
    cbn [bind] in Hstart |- *; [|discriminate].
  inversion Hstart; subst s1.
  rewrite (lineEnd_loop_line line post pre); [|assumption|assumption|].
  2:{ rewrite !length_app. lia. }
  replace (length pre + length line - length pre) with (length line) by lia.
  replace (length pre + k - length pre) with k by lia.
  rewrite (substr_suffix _ _ line post); [reflexivity|].
  now rewrite skipn_app, skipn_all, Nat.sub_diag.
Qed.

Lemma getContext_line_witness :
  getContext (lit "[1," ++ [ch_nl] ++ lit " x]" ++ [ch_nl] ++ lit "z") 5
  = Ret (lit " x]" ++ [ch_nl] ++ lit " ^").
Proof.
  apply (getContext_line (lit "[1," ++ [ch_nl]) (lit " x]")
                         ([ch_nl] ++ lit "z") 1).
  - right. now exists (lit "[1,").
  - simpl. intros [E|[E|[E|E]]]; try discriminate E; exact E.
  - right. now exists (lit "z").
  - simpl. lia.
Defined.

(** X12. With the cursor on a newline character [getContext] shows an
    empty line, whatever stands before the newline, and the caret in the
    first column. *)
Theorem getContext_on_newline : forall str at_nl,
  nth_error str at_nl = Some ch_nl ->
  getContext str at_nl = Ret ([ch_nl] ++ lit "^").
Proof.
  intros str at_nl H. unfold getContext.
  assert (Hloop : lineStart_loop str at_nl = Ret at_nl).
  { destruct at_nl as [|n]; [reflexivity|].
    cbn [lineStart_loop]. unfold view_at. rewrite H. cbn [bind].
    now rewrite Ascii.eqb_refl. }
  rewrite Hloop. cbn [bind]. rewrite Nat.ltb_irrefl. cbn [bind].
  assert (Hend : lineEnd_loop (length str - at_nl) str at_nl = at_nl).
  { destruct (length str - at_nl) as [|n]; [reflexivity|].
    cbn [lineEnd_loop]. rewrite H. now rewrite Ascii.eqb_refl. }
  rewrite Hend, !Nat.sub_diag. reflexivity.
Qed.

Lemma getContext_on_newline_witness :
  getContext (lit "ab" ++ [ch_nl] ++ lit "cd") 2 = Ret ([ch_nl] ++ lit "^").
Proof.
  apply getContext_on_newline. reflexivity.
Defined.

(** ** The parser does not depend on where the text stands *)

Lemma nth_error_shift : forall (pre s : text) c,
  nth_error (pre ++ s) (length pre + c) = nth_error s c.
Proof.
  intros pre s c. rewrite nth_error_app2 by lia. f_equal. lia.
Qed.

Lemma skipn_shift : forall (pre s : text) c,
  skipn (length pre + c) (pre ++ s) = skipn c s.
Proof.
  intros pre s c. rewrite skipn_app, skipn_all2 by lia.
  cbn [app]. f_equal. lia.
Qed.

Lemma skipWhitespace_loop_shift : forall (pre s : text) n c,
  skipWhitespace_loop n (pre ++ s) (length pre + c)
  = length pre + skipWhitespace_loop n s c.
Proof.
  intros pre s. induction n as [|n IH]; intros c; [reflexivity|].
  cbn [skipWhitespace_loop]. rewrite nth_error_shift.
  destruct (nth_error s c) as [ch|]; [|reflexivity].
  destruct (isWhitespace ch); [|reflexivity].
  rewrite <- Nat.add_succ_r. apply IH.
Qed.

Lemma skipWhitespace_shift : forall (pre s : text) c,
  skipWhitespace (pre ++ s) (length pre + c)
  = length pre + skipWhitespace s c.
Proof.
  intros pre s c. unfold skipWhitespace. rewrite length_app.
  replace (length pre + length s - (length pre + c)) with (length s - c)
    by lia.
  apply skipWhitespace_loop_shift.
Qed.

Lemma peek_is_shift : forall (pre s : text) c ch,
  peek_is (pre ++ s) (length pre + c) ch = peek_is s c ch.
Proof.
  intros pre s c ch. unfold peek_is. now rewrite nth_error_shift.
Qed.

Lemma skipSeparator_shift : forall (pre s : text) c,
  skipSeparator (pre ++ s) (length pre + c)
  = (fst (skipSeparator s c), length pre + snd (skipSeparator s c)).
Proof.
  intros pre s c. unfold skipSeparator. cbv zeta.
  rewrite skipWhitespace_shift, peek_is_shift.
  destruct (peek_is s (skipWhitespace s c) ","); cbn [fst snd]; [|reflexivity].
  now rewrite <- Nat.add_succ_r, skipWhitespace_shift.
Qed.

Lemma find_not_of_shift : forall rest chars n pos,
  find_not_of rest chars (n + pos)
  = option_map (Nat.add n) (find_not_of rest chars pos).
Proof.
  induction rest as [|ch rest IH]; intros chars n pos; [reflexivity|].
  cbn [find_not_of]. destruct (in_chars ch chars); [|reflexivity].
  rewrite <- Nat.add_succ_r. apply IH.
Qed.

Lemma scan_end_shift : forall (pre s : text) c,
  scan_end (pre ++ s) (length pre + c) = length pre + scan_end s c.
Proof.
  intros pre s c. unfold scan_end, find_first_not_of.
  rewrite skipn_shift, find_not_of_shift.
  destruct (find_not_of (skipn c s) valueChars c); cbn [option_map];
    [reflexivity | apply length_app].
Qed.

Lemma substr_shift : forall (pre s : text) c n,
  substr (pre ++ s) (length pre + c) n = substr s c n.
Proof.
  intros pre s c n. unfold substr. now rewrite skipn_shift.
Qed.

Lemma parseLiteral_shift : forall from_chars (pre s : text) c,
  Ret (parseLiteral from_chars (pre ++ s) (length pre + c))
  = shift_outcome (length pre) (Ret (parseLiteral from_chars s c)).
Proof.
  intros from_chars pre s c. rewrite !parseLiteral_token. cbv zeta.
  rewrite scan_end_shift.
  replace (length pre + scan_end s c - (length pre + c))
    with (scan_end s c - c) by lia.
  rewrite substr_shift.
  set (value := substr s c (scan_end s c - c)).
  destruct (length value =? 0); [reflexivity|].
  destruct (text_eqb value (lit "null")).
  { cbn [shift_outcome shift_result]. now rewrite Nat.add_assoc. }
  destruct (text_eqb value (lit "true")).
  { cbn [shift_outcome shift_result]. now rewrite Nat.add_assoc. }
  destruct (text_eqb value (lit "false")).
  { cbn [shift_outcome shift_result]. now rewrite Nat.add_assoc. }
  destruct (parseNumber from_chars value); [|reflexivity].
  cbn [shift_outcome shift_result]. now rewrite Nat.add_assoc.
Qed.

Lemma parseString_loop_shift : forall (pre s : text) fuel c str,
  length str <= c ->
  parseString_loop fuel (pre ++ s) (length pre + c) str
  = shift_outcome (length pre) (parseString_loop fuel s c str).
Proof.
  intros pre s. induction fuel as [|fuel IH]; intros c str Hstr;
    [reflexivity|].
  cbn [parseString_loop]. rewrite nth_error_shift.
  destruct (nth_error s c) as [ch|]; [|reflexivity].
  destruct (Ascii.eqb ch ch_backslash).
  - rewrite length_app.
    replace (length pre + length s <=? S (length pre + c))
      with (length s <=? S c).
    2:{ destruct (Nat.leb_spec (length s) (S c));
          symmetry; [apply Nat.leb_le | apply Nat.leb_gt]; lia. }
    destruct (length s <=? S c).
    + cbn [shift_outcome shift_result cursor message].
      now rewrite Nat.add_succ_r.
    + assert (Hat : forall pos, length str < pos ->
                                string_at str pos = Fault OutOfRange).
      { intros pos Hpos. unfold string_at.
        replace (nth_error str pos) with (@None ascii)
          by (symmetry; apply nth_error_None; lia).
        replace (pos =? length str) with false
          by (symmetry; apply Nat.eqb_neq; lia).
        reflexivity. }
      rewrite !Hat by lia. reflexivity.
  - destruct (Ascii.eqb ch ch_quote).
    + cbn [shift_outcome shift_result]. now rewrite Nat.add_succ_r.
    + rewrite <- Nat.add_succ_r. apply IH. rewrite length_app. simpl. lia.
Qed.

Lemma parseString_shift : forall (pre s : text) fuel c,
  peek_is s c ch_quote = true ->
  parseString fuel (pre ++ s) (length pre + c)
  = shift_outcome (length pre) (parseString fuel s c).
Proof.
  intros pre s fuel c Hq. unfold parseString. rewrite nth_error_shift.
  unfold peek_is in Hq. destruct (nth_error s c) as [ch|]; [|discriminate].
  rewrite Hq. rewrite <- Nat.add_succ_r.
  apply parseString_loop_shift. simpl. lia.
Qed.

Lemma shift_outcome_bind : forall (T U : Type) n
    (m : exec (Result T * nat))
    (k k' : Result T * nat -> exec (Result U * nat)),
  (forall r stop, k' (shift_result n r, n + stop)
                  = shift_outcome n (k (r, stop))) ->
  bind (shift_outcome n m) k' = shift_outcome n (bind m k).
Proof.
  intros T U n m k k' H. destruct m as [[r stop]|f]; [|reflexivity].
  cbn [shift_outcome bind]. apply H.
Qed.

Lemma parse_shift : forall from_chars (pre s : text) fuel,
  (forall c,
      parseValue from_chars fuel (pre ++ s) (length pre + c)
      = shift_outcome (length pre) (parseValue from_chars fuel s c))
  /\ (forall c values,
      parseArray from_chars fuel (pre ++ s) (length pre + c) values
      = shift_outcome (length pre) (parseArray from_chars fuel s c values))
  /\ (forall c obj,
      parseObject from_chars fuel (pre ++ s) (length pre + c) obj
      = shift_outcome (length pre) (parseObject from_chars fuel s c obj)).
Proof.
  intros from_chars pre s.
  assert (Hlt : forall c, (length pre + c <? length (pre ++ s))
                          = (c <? length s)).
  { intros c. rewrite length_app.
    destruct (Nat.ltb_spec c (length s));
      [apply Nat.ltb_lt | apply Nat.ltb_ge]; lia. }
  assert (Hle : forall c, (length (pre ++ s) <=? length pre + c)
                          = (length s <=? c)).
  { intros c. rewrite length_app.
    destruct (Nat.leb_spec (length s) c);
      [apply Nat.leb_le | apply Nat.leb_gt]; lia. }
  induction fuel as [|fuel [IHv [IHa IHo]]].
  - repeat split; reflexivity.
  - split; [|split].
    + intros c. cbn [parseValue]. cbv zeta.
      rewrite skipWhitespace_shift, nth_error_shift.
      destruct (nth_error s (skipWhitespace s c)) as [ch|] eqn:E;
        [|reflexivity].
      destruct (Ascii.eqb ch "{"); [rewrite <- Nat.add_succ_r; apply IHo|].
      destruct (Ascii.eqb ch "["); [rewrite <- Nat.add_succ_r; apply IHa|].
      destruct (Ascii.eqb ch ch_quote) eqn:Eq;
        [|apply parseLiteral_shift].
      rewrite parseString_shift by (unfold peek_is; now rewrite E).
      apply shift_outcome_bind. intros [str|e] stop; reflexivity.
    + intros c values. cbn [parseArray]. cbv zeta. rewrite Hlt.
      destruct (c <? length s); [|reflexivity].
      rewrite skipWhitespace_shift, nth_error_shift.
      destruct (nth_error s (skipWhitespace s c)) as [ch|]; [|reflexivity].
      destruct (Ascii.eqb ch "]").
      { cbn [shift_outcome shift_result]. now rewrite Nat.add_succ_r. }
      rewrite IHv. apply shift_outcome_bind.
      intros [value|e] stop; [|reflexivity]. cbn [shift_result].
      rewrite skipSeparator_shift.
      destruct (skipSeparator s stop) as [found c2]. cbn [fst snd].
      rewrite peek_is_shift.
      destruct (peek_is s c2 "]").
      { cbn [shift_outcome shift_result]. now rewrite Nat.add_succ_r. }
      destruct found; [apply IHa | reflexivity].
    + intros c obj. cbn [parseObject]. cbv zeta. rewrite Hlt.
      destruct (c <? length s); [|reflexivity].
      rewrite skipWhitespace_shift, nth_error_shift.
      destruct (nth_error s (skipWhitespace s c)) as [ch|] eqn:E;
        [|reflexivity].
      destruct (Ascii.eqb ch "}").
      { cbn [shift_outcome shift_result]. now rewrite Nat.add_succ_r. }
      destruct (negb (Ascii.eqb ch ch_quote)) eqn:Eq; [reflexivity|].
      apply negb_false_iff in Eq.
      rewrite parseString_shift by (unfold peek_is; now rewrite E).
      apply shift_outcome_bind.
      intros [key|e] stop; [|reflexivity]. cbn [shift_result].
      rewrite skipWhitespace_shift, peek_is_shift.
      destruct (negb (peek_is s (skipWhitespace s stop) ":"));
        [reflexivity|].
      rewrite <- Nat.add_succ_r, skipWhitespace_shift, Hle.
      destruct (length s <=? skipWhitespace s (S (skipWhitespace s stop)));
        [reflexivity|].
      rewrite IHv. apply shift_outcome_bind.
      intros [value|e] stop'; [|reflexivity]. cbn [shift_result].
      rewrite skipSeparator_shift.
      destruct (skipSeparator s stop') as [found c2]. cbn [fst snd].
      rewrite peek_is_shift.
      destruct (peek_is s c2 "}").
      { cbn [shift_outcome shift_result]. now rewrite Nat.add_succ_r. }
      destruct found; [apply IHo | reflexivity].
Qed.

Lemma skipWhitespace_leading : forall (ws s : text),
  forallb isWhitespace ws = true ->
  skipWhitespace (ws ++ s) 0 = skipWhitespace (ws ++ s) (length ws).
Proof.
  intros ws s Hws.
  destruct (skipWhitespace_spec (ws ++ s) (length ws)) as [Hge [Hin Hstop]].
  apply skipWhitespace_unique; [lia | | exact Hstop].
  intros i Hi. destruct (Nat.lt_ge_cases i (length ws)) as [Hlt|Hle].
  - unfold peek_ws. rewrite nth_error_app1 by exact Hlt.
    destruct (nth_error ws i) as [ch|] eqn:E.
    + apply nth_error_In in E.
      now apply (proj1 (forallb_forall isWhitespace ws) Hws).
    + apply nth_error_None in E. lia.
  - apply Hin. lia.
Qed.

(** The outcome of [parseValue] does not depend on the fuel once it is
    that of [parse]. *)
Lemma parseValue_fuel_irrelevant : forall from_chars source fuel,
  parse_fuel source <= fuel ->
  parseValue from_chars fuel source 0
  = parseValue from_chars (parse_fuel source) source 0.
Proof.
  intros from_chars source fuel Hle.
  destruct (parse_mono from_chars source (parse_fuel source)) as [Hv _].
  apply (approx_terminates _ _ _ (Hv fuel 0 Hle)).
  apply (parse_fuel_enough from_chars source (parse_fuel source)).
  unfold parse_fuel. lia.
Qed.

(** X13. White space before the text changes nothing but the cursor of an
    error, which moves by the length of the white space. *)
Theorem leading_whitespace_shifts : forall from_chars (ws s : text),
  forallb isWhitespace ws = true ->
  parse from_chars (ws ++ s)
  = shift_parse (length ws) (parse from_chars s).
Proof.
  intros from_chars ws s Hws. unfold parse.
  assert (Hstart : parseValue from_chars (parse_fuel (ws ++ s)) (ws ++ s) 0
                   = parseValue from_chars (parse_fuel (ws ++ s)) (ws ++ s)
                       (length ws + 0)).
  { unfold parse_fuel. rewrite Nat.add_1_r. cbn [parseValue]. cbv zeta.
    rewrite Nat.add_0_r. now rewrite (skipWhitespace_leading ws s Hws). }
  rewrite Hstart.
  destruct (parse_shift from_chars ws s (parse_fuel (ws ++ s))) as [Hv _].
  rewrite Hv.
  rewrite (parseValue_fuel_irrelevant from_chars s (parse_fuel (ws ++ s)))
    by (unfold parse_fuel; rewrite length_app; lia).
  destruct (parseValue from_chars (parse_fuel s) s 0) as [[r stop]|f];
    reflexivity.
Qed.

Lemma leading_whitespace_shifts_witness :
  parse Std.from_chars (lit "  " ++ json "{'a' 1}")
  = shift_parse 2 (parse Std.from_chars (json "{'a' 1}"))
  /\ parse Std.from_chars (json "{'a' 1}")
     = Ret (Err (mkError 5 "Expected colon")).
Proof.
  split; [|vm_compute; reflexivity].
  apply (leading_whitespace_shifts Std.from_chars (lit "  ")). reflexivity.
Defined.

(** ** What the first character after the white space decides *)

Lemma skipn_after : forall (ws r : text),
  skipn (length ws) (ws ++ r) = r.
Proof.
  intros ws r. now rewrite skipn_app, skipn_all, Nat.sub_diag.
Qed.

Lemma skipWhitespace_over : forall (ws r : text),
  forallb isWhitespace ws = true ->
  not_ws_head r ->
  skipWhitespace (ws ++ r) 0 = length ws.
Proof.
  intros ws r Hws Hr.
  now rewrite (skipWhitespace_suffix (ws ++ r) 0 ws r eq_refl Hws Hr).
Qed.

(** X14. A buffer that is empty or holds white space only is answered
    with [Expected value] at its end. *)
Theorem blank_buffer_rejected : forall from_chars (ws : text),
  forallb isWhitespace ws = true ->
  parse from_chars ws = Ret (Err (mkError (length ws) "Expected value")).
Proof.
  intros from_chars ws Hws.
  apply (parse_of_parseValue from_chars ws 1 _ (length ws)).
  cbn [parseValue]. cbv zeta.
  pose proof (skipWhitespace_over ws [] Hws I) as Hskip.
  rewrite app_nil_r in Hskip. rewrite Hskip.
  replace (nth_error ws (length ws)) with (@None ascii); [reflexivity|].
  symmetry. apply nth_error_None. lia.
Qed.

Lemma blank_buffer_rejected_witness :
  parse Std.from_chars (lit " " ++ [ch_nl; ch_tab])
  = Ret (Err (mkError 3 "Expected value")).
Proof.
  apply (blank_buffer_rejected Std.from_chars (lit " " ++ [ch_nl; ch_tab])).
  reflexivity.
Defined.

(** X15. A first character after the white space that is no white space
    of [isWhitespace], no opening bracket or brace, no quotation mark and
    no character of the literal scan is answered with [Value must not be
    empty] at that character: a carriage return, a comma, a closing
    bracket, a lower-case k. *)
Theorem value_start_rejected : forall from_chars (ws rest : text) ch,
  forallb isWhitespace ws = true ->
  isWhitespace ch = false ->
  starts_value ch = false ->
  parse from_chars (ws ++ ch :: rest)
  = Ret (Err (mkError (length ws) "Value must not be empty")).
Proof.
  intros from_chars ws rest ch Hws Hch Hstart.
  apply (parse_of_parseValue from_chars _ 1 _ (length ws)).
  cbn [parseValue]. cbv zeta.
  rewrite (skipWhitespace_over ws (ch :: rest) Hws Hch).
  rewrite nth_error_middle.
  unfold starts_value in Hstart.
  apply orb_false_iff in Hstart as [Hstart Hscan].
  apply orb_false_iff in Hstart as [Hstart Hquote].
  apply orb_false_iff in Hstart as [Hbrace Hbracket].
  rewrite Hbrace, Hbracket, Hquote.
  rewrite parseLiteral_token. cbv zeta.
  unfold scan_end, find_first_not_of. rewrite skipn_after.
  cbn [find_not_of]. rewrite Hscan.
  now rewrite Nat.sub_diag.
Qed.

Lemma value_start_rejected_witness :
  parse Std.from_chars (lit " " ++ ch_cr :: ch_nl :: lit "[1]")
  = Ret (Err (mkError 1 "Value must not be empty")).
Proof.
  apply (value_start_rejected Std.from_chars (lit " ") (ch_nl :: lit "[1]")
           ch_cr); reflexivity.
Defined.



(** ** Strings are copied, not decoded *)

Lemma parseString_loop_copies : forall body fuel source start str r,
  skipn start source = body ++ ch_quote :: r ->
  escape_free body = true ->
  length body < fuel ->
  parseString_loop fuel source start str
  = Ret (Ok (str ++ body), start + length body + 1).
Proof.
  induction body as [|ch body IH]; intros fuel source start str r H Hp Hf.
  - destruct fuel as [|fuel]; [simpl in Hf; lia|]. cbn [parseString_loop].
    rewrite (skipn_head _ _ _ _ H). simpl.
    rewrite app_nil_r. do 2 f_equal. lia.
  - destruct fuel as [|fuel]; [simpl in Hf; lia|]. cbn [parseString_loop].
    rewrite (skipn_head _ _ _ _ H).
    cbn [escape_free forallb] in Hp. apply andb_prop in Hp as [Hch Hp].
    apply andb_prop in Hch as [Hb Hq].
    apply negb_true_iff in Hq, Hb. rewrite Hb, Hq.
    rewrite (IH fuel source (S start) (str ++ [ch]) r).
    + rewrite <- app_assoc. simpl. do 2 f_equal. lia.
    + apply (skipn_advance source start [ch]) in H.
      now replace (S start) with (start + length [ch]) by (simpl; lia).
    + exact Hp.
    + simpl in Hf. lia.
Qed.

Lemma parseString_copies : forall body fuel source start r,
  skipn start source = ch_quote :: body ++ ch_quote :: r ->
  escape_free body = true ->
  length body < fuel ->
  parseString fuel source start
  = Ret (Ok body, start + length body + 2).
Proof.
  intros body fuel source start r H Hp Hf. unfold parseString.
  rewrite (skipn_head _ _ _ _ H). simpl.
  rewrite (parseString_loop_copies body fuel source (S start) [] r); auto.
  - simpl. do 2 f_equal. lia.
  - apply (skipn_advance source start [ch_quote]) in H.
    now replace (S start) with (start + length [ch_quote]) by (simpl; lia).
Qed.

Lemma parseValue_string_token : forall from_chars (ws body rest : text),
  forallb isWhitespace ws = true ->
  escape_free body = true ->
  parseValue from_chars (S (S (length body)))
    (ws ++ ch_quote :: body ++ ch_quote :: rest) 0
  = Ret (Ok (String body), length ws + length body + 2).
Proof.
  intros from_chars ws body rest Hws Hbody.
  cbn [parseValue]. cbv zeta.
  rewrite (skipWhitespace_over ws _ Hws) by reflexivity.
  rewrite nth_error_middle.
  replace (Ascii.eqb ch_quote "{") with false by reflexivity.
  replace (Ascii.eqb ch_quote "[") with false by reflexivity.
  rewrite Ascii.eqb_refl.
  rewrite (parseString_copies body _ _ (length ws) rest);
    [reflexivity | apply skipn_after | exact Hbody | lia].
Qed.

(** X17. After optional white space, a quotation mark, characters that are
    neither quotation mark nor backslash, and a quotation mark are read as
    the string of exactly these characters, control characters and
    newlines included, whatever follows in the buffer. *)
Theorem string_token_copied : forall from_chars (ws body rest : text),
  forallb isWhitespace ws = true ->
  escape_free body = true ->
  parse from_chars (ws ++ ch_quote :: body ++ ch_quote :: rest)
  = Ret (Ok (String body)).
Proof.
  intros from_chars ws body rest Hws Hbody.
  eapply parse_of_parseValue.
  exact (parseValue_string_token from_chars ws body rest Hws Hbody).
Qed.

Lemma string_token_copied_witness :
  parse Std.from_chars (lit " " ++ ch_quote :: (lit "a" ++ [ch_nl; ch_tab])
                          ++ ch_quote :: lit "]")
  = Ret (Ok (String (lit "a" ++ [ch_nl; ch_tab]))).
Proof.
  apply (string_token_copied Std.from_chars (lit " ")
           (lit "a" ++ [ch_nl; ch_tab]) (lit "]")); reflexivity.
Defined.

(** X18. [dump] writes a string between quotation marks as it is, and
    [parse] reads the text back up to the first quotation mark of the
    string: a string without quotation mark and backslash comes back
    whole, a string with a quotation mark comes back cut before it. *)
Theorem dumped_string_reads_back :
  forall from_chars to_string indent level (kept cut : text),
  escape_free kept = true ->
  (cut = [] \/ exists dropped, cut = ch_quote :: dropped) ->
  exists d,
    dump to_string indent level (String (kept ++ cut)) = Ret d
    /\ parse from_chars d = Ret (Ok (String kept)).
Proof.
  intros from_chars to_string indent level kept cut Hkept Hcut.
  exists ([ch_quote] ++ (kept ++ cut) ++ [ch_quote]).
  split; [reflexivity|].
  destruct Hcut as [->|[dropped ->]].
  - rewrite app_nil_r. eapply parse_of_parseValue.
    exact (parseValue_string_token from_chars [] kept [] eq_refl Hkept).
  - replace ([ch_quote] ++ (kept ++ ch_quote :: dropped) ++ [ch_quote])
      with ([] ++ ch_quote :: kept ++ ch_quote :: (dropped ++ [ch_quote]))
      by (cbn [app]; now rewrite <- app_assoc).
    eapply parse_of_parseValue.
    exact (parseValue_string_token from_chars [] kept _ eq_refl Hkept).
Qed.

Lemma dumped_string_reads_back_witness :
  exists d,
    dump Std.to_string [] 0 (String (lit "say " ++ ch_quote :: lit "hi"))
    = Ret d
    /\ parse Std.from_chars d = Ret (Ok (String (lit "say "))).
Proof.
  apply (dumped_string_reads_back Std.from_chars Std.to_string [] 0
           (lit "say ") (ch_quote :: lit "hi")).
  - reflexivity.
  - right. now exists (lit "hi").
Defined.

(** ** Lookup in a tree without [Invalid] *)

Lemma find_of_key : forall key obj,
  In key (map fst obj) -> exists second, find key obj = Some second.
Proof.
  induction obj as [|[k x] rest IH]; simpl; intros H; [contradiction|].
  destruct (text_eqb k key) eqn:E; [eauto|].
  destruct H as [->|H]; [|now apply IH].
  rewrite (proj2 (text_eqb_eq key key) eq_refl) in E. discriminate.
Qed.

Lemma well_formed_isValid : forall v, well_formed v -> isValid v = true.
Proof. intros [ | | | | | | ] H; [destruct H | | | | | | ]; reflexivity. Qed.

(** X19. In a tree without [Invalid], as [parse] builds it, the validity
    of what a lookup returns tells whether the member or element is there:
    [v[index]] is valid exactly for an array and an index below its size,
    [v[key]] exactly for an object that holds the key; and what is found
    is again such a tree, so that lookups chain. *)
Theorem lookup_presence : forall v,
  well_formed v ->
  (forall index, exists r,
      index_pos v index = Ret r
      /\ (isValid r = true <-> isArray v = true /\ index < size v)
      /\ (isValid r = true -> well_formed r))
  /\ (forall key, exists r,
      index_key v key = Ret r
      /\ (isValid r = true
          <-> exists obj, v = Object obj /\ In key (map fst obj))
      /\ (isValid r = true -> well_formed r)).
Proof.
  intros v Hv. split.
  - intros index.
    assert (Hmiss : isArray v = false -> exists r,
              index_pos v index = Ret r
              /\ (isValid r = true <-> isArray v = true /\ index < size v)
              /\ (isValid r = true -> well_formed r)).
    { intros Hna. exists Invalid. unfold index_pos. rewrite Hna.
      split; [reflexivity|]. split; [|discriminate].
      split; [discriminate | intros [H _]; discriminate]. }
    destruct v as [ | | b | n | s | arr | obj]; try (apply Hmiss; reflexivity).
    apply well_formed_Array in Hv.
    unfold index_pos, size, vector_at. cbn [isArray isValid isNull negb orb
                                             andb asArray bind].
    destruct (Nat.ltb_spec index (length arr)) as [Hlt|Hge].
    + destruct (nth_error arr index) as [x|] eqn:E.
      2:{ apply nth_error_None in E. lia. }
      exists x. split; [reflexivity|].
      assert (Hx : well_formed x).
      { apply nth_error_In in E.
        exact (proj1 (Forall_forall well_formed arr) Hv x E). }
      split; [|intros _; exact Hx].
      split; [intros _; split; [reflexivity | exact Hlt]|].
      intros _. now apply well_formed_isValid.
    + exists Invalid. split; [reflexivity|]. split; [|discriminate].
      split; [discriminate | intros [_ H]; lia].
  - intros key.
    assert (Hmiss : isObject v = false -> exists r,
              index_key v key = Ret r
              /\ (isValid r = true
                  <-> exists obj, v = Object obj /\ In key (map fst obj))
              /\ (isValid r = true -> well_formed r)).
    { intros Hno. exists Invalid. unfold index_key. rewrite Hno.
      split; [reflexivity|]. split; [|discriminate].
      split; [discriminate|]. intros [obj [-> _]]. discriminate. }
    destruct v as [ | | b | n | s | arr | obj]; try (apply Hmiss; reflexivity).
    apply well_formed_Object in Hv as [_ Hv].
    unfold index_key. cbn [isObject asObject bind].
    destruct (find key obj) as [second|] eqn:E.
    + exists second. split; [reflexivity|].
      apply find_present in E.
      assert (Hx : well_formed second)
        by exact (proj1 (Forall_forall _ obj) Hv _ E).
      split; [|intros _; exact Hx].
      split.
      * intros _. exists obj. split; [reflexivity|].
        apply in_map_iff. now exists (key, second).
      * intros _. now apply well_formed_isValid.
    + exists Invalid. split; [reflexivity|]. split; [|discriminate].
      split; [discriminate|]. intros [obj' [Heq Hin]].
      injection Heq as <-. destruct (find_of_key key obj Hin) as [x Hx].
      congruence.
Qed.

Lemma lookup_presence_witness :
  exists r,
    index_key (Object [(lit "a", Array [Null])]) (lit "a") = Ret r
    /\ (isValid r = true
        <-> exists obj, Object [(lit "a", Array [Null])] = Object obj
                        /\ In (lit "a") (map fst obj))
    /\ (isValid r = true -> well_formed r).
Proof.
  apply (lookup_presence (Object [(lit "a", Array [Null])])).
  simpl. split; [|tauto].
  constructor; [constructor | constructor].
Defined.

(** ** The text of a container *)

Lemma repeat_text_nil : forall n, repeat_text [] n = [].
Proof. induction n as [|n IH]; [reflexivity | exact IH]. Qed.

Lemma dump_elements_ext : forall f g indentStr indent n rest,
  Forall (fun x => f x = g x) rest ->
  forall i ret,
  dump_elements f indentStr indent n i rest ret
  = dump_elements g indentStr indent n i rest ret.
Proof.
  intros f g indentStr indent n rest H.
  induction H as [|x rest Hx _ IH]; intros i ret; [reflexivity|].
  cbn [dump_elements]. rewrite Hx.
  destruct (g x) as [d|fl]; [|reflexivity]. cbn [bind]. apply IH.
Qed.

Lemma dump_members_ext : forall f g indentStr indent n rest,
  Forall (fun m => f (snd m) = g (snd m)) rest ->
  forall idx ret,
  dump_members f indentStr indent n idx rest ret
  = dump_members g indentStr indent n idx rest ret.
Proof.
  intros f g indentStr indent n rest H.
  induction H as [|[key x] rest Hx _ IH]; intros idx ret; [reflexivity|].
  cbn [dump_members]. cbn [snd] in Hx. rewrite Hx.
  destruct (g x) as [d|fl]; [|reflexivity]. cbn [bind]. apply IH.
Qed.

(** X20. The text of a container: the opening bracket or brace and a
    newline; one line per element or member, made of the indentation of
    the level, one more indent, the text of the element (after its key
    between quotation marks, a colon and a space, for a member) and a
    comma on every line but the last; the indentation of the level and the
    closing bracket or brace.  An empty container has the newline all the
    same. *)
Theorem dump_container_text : forall to_string indent level,
  (forall arr ds,
      Forall2 (fun x d => dump to_string indent (level + 1) x = Ret d)
              arr ds ->
      dump to_string indent level (Array arr)
      = Ret (lit "[" ++ [ch_nl]
             ++ lines_text (repeat_text indent level) indent ds
             ++ repeat_text indent level ++ lit "]"))
  /\ (forall obj ds,
      Forall2 (fun m d => dump to_string indent (level + 1) (snd m) = Ret d)
              obj ds ->
      dump to_string indent level (Object obj)
      = Ret (lit "{" ++ [ch_nl]
             ++ lines_text (repeat_text indent level) indent
                  (map (fun md => member_text (fst (fst md)) (snd md))
                       (combine obj ds))
             ++ repeat_text indent level ++ lit "}")).
Proof.
  intros to_string indent level. split.
  - intros arr ds H. cbn [dump]. rewrite dump_elements_acc.
    rewrite (dump_elements_text _ _ _ (length arr) arr ds H 0 eq_refl).
    cbn [bind]. now rewrite <- !app_assoc.
  - intros obj ds H. cbn [dump]. rewrite dump_members_acc.
    rewrite (dump_members_text _ _ _ (length obj) obj ds H 0 eq_refl).
    cbn [bind]. now rewrite <- !app_assoc.
Qed.

Lemma dump_container_text_witness :
  dump Std.to_string (lit "  ") 1 (Array [Null; Array []])
  = Ret (lit "[" ++ [ch_nl]
         ++ lines_text (repeat_text (lit "  ") 1) (lit "  ")
              [lit "null"; lit "[" ++ [ch_nl] ++ lit "    ]"]
         ++ repeat_text (lit "  ") 1 ++ lit "]").
Proof.
  apply (dump_container_text Std.to_string (lit "  ") 1).
  constructor; [reflexivity|]. constructor; [reflexivity|]. constructor.
Defined.

(** X21. With the empty indent, which is the default of [dump], the text
    does not depend on the indentation level. *)
Theorem dump_flat : forall to_string v level,
  dump to_string [] level v = dump to_string [] 0 v.
Proof.
  intros to_string.
  induction v as [ | | b | n | s | arr IHarr | obj IHobj]
    using JsonValue_tree_ind; intros level; try reflexivity.
  - cbn [dump]. rewrite !repeat_text_nil.
    rewrite (dump_elements_ext (dump to_string [] (level + 1))
               (dump to_string [] (0 + 1))); [reflexivity|].
    eapply Forall_impl; [|exact IHarr]. intros x Hx. cbn beta in Hx.
    now rewrite Hx, (Hx (0 + 1)).
  - cbn [dump]. rewrite !repeat_text_nil.
    rewrite (dump_members_ext (dump to_string [] (level + 1))
               (dump to_string [] (0 + 1))); [reflexivity|].
    eapply Forall_impl; [|exact IHobj]. intros m Hm. cbn beta in Hm.
    now rewrite Hm, (Hm (0 + 1)).
Qed.

(** ** After an element of an array *)

Lemma skipWhitespace_idem : forall source start,
  skipWhitespace source (skipWhitespace source start)
  = skipWhitespace source start.
Proof.
  intros source start.
  destruct (skipWhitespace_spec source start) as [_ [_ Hstop]].
  apply skipWhitespace_unique; [lia | intros i Hi; lia | exact Hstop].
Qed.

Lemma parseLiteral_not_scanned : forall from_chars source start ch,
  nth_error source start = Some ch ->
  in_chars ch valueChars = false ->
  parseLiteral from_chars source start
  = (Err (mkError start "Value must not be empty"), start).
Proof.
  intros from_chars source start ch Hnth Hch.
  rewrite parseLiteral_token. cbv zeta.
  unfold scan_end, find_first_not_of.
  rewrite (skipn_cons_nth _ _ _ Hnth). cbn [find_not_of]. rewrite Hch.
  now rewrite Nat.sub_diag.
Qed.

(** A value starts on a character that closes no container, and
    [parseValue] does the same from that character as from the white
    space before it. *)
Lemma parseValue_enters : forall from_chars fuel source start v stop,
  parseValue from_chars fuel source start = Ret (Ok v, stop) ->
  parseValue from_chars fuel source (skipWhitespace source start)
  = Ret (Ok v, stop)
  /\ exists ch,
       nth_error source (skipWhitespace source start) = Some ch
       /\ Ascii.eqb ch "]" = false /\ Ascii.eqb ch "}" = false.
Proof.
  intros from_chars fuel source start v stop H.
  destruct fuel as [|fuel]; [discriminate|].
  cbn [parseValue] in H |- *. cbv zeta in H |- *.
  rewrite skipWhitespace_idem. split; [exact H|].
  destruct (nth_error source (skipWhitespace source start)) as [ch|] eqn:E;
    [|discriminate].
  exists ch. split; [reflexivity|].
  split.
  - destruct (Ascii.eqb ch "]") eqn:Ec; [|reflexivity].
    apply Ascii.eqb_eq in Ec. subst ch. cbn [Ascii.eqb Bool.eqb] in H.
    change (Ascii.eqb "]" ch_quote) with false in H. cbv iota in H.
    rewrite (parseLiteral_not_scanned from_chars _ _ _ E eq_refl) in H.
    discriminate.
  - destruct (Ascii.eqb ch "}") eqn:Ec; [|reflexivity].
    apply Ascii.eqb_eq in Ec. subst ch. cbn [Ascii.eqb Bool.eqb] in H.
    change (Ascii.eqb "}" ch_quote) with false in H. cbv iota in H.
    rewrite (parseLiteral_not_scanned from_chars _ _ _ E eq_refl) in H.
    discriminate.
Qed.

Lemma skipSeparator_found : forall source start w1 w2 r,
  skipn start source = w1 ++ "," :: w2 ++ r ->
  forallb isWhitespace w1 = true ->
  forallb isWhitespace w2 = true ->
  not_ws_head r ->
  skipSeparator source start = (true, start + length w1 + 1 + length w2).
Proof.
  intros source start w1 w2 r H Hw1 Hw2 Hr. unfold skipSeparator. cbv zeta.
  rewrite (skipWhitespace_suffix _ _ _ _ H Hw1) by reflexivity.
  apply skipn_advance in H.
  rewrite (peek_is_head _ _ _ _ "," H). cbn [Ascii.eqb Bool.eqb].
  apply (skipn_advance _ _ [","%char]) in H. cbn [length] in H.
  replace (S (start + length w1)) with (start + length w1 + 1) by lia.
  now rewrite (skipWhitespace_suffix _ _ _ _ H Hw2 Hr).
Qed.

(** X22. A comma between the last element of an array and the closing
    bracket is accepted: with [values] read so far and the loop before an
    element that is followed by white space, a comma, white space and the
    closing bracket, [parseArray] returns the array of [values] and that
    element, as it does without the comma. *)
Theorem trailing_comma_accepted :
  forall from_chars fuel source start values v stop (ws1 ws2 rest : text),
  parseValue from_chars fuel source start = Ret (Ok v, stop) ->
  forallb isWhitespace ws1 = true ->
  forallb isWhitespace ws2 = true ->
  skipn stop source = ws1 ++ "," :: ws2 ++ "]" :: rest ->
  parseArray from_chars (S fuel) source start values
  = Ret (Ok (Array (values ++ [v])), stop + length ws1 + length ws2 + 2).
Proof.
  intros from_chars fuel source start values v stop ws1 ws2 rest
         H Hw1 Hw2 Hrest.
  pose proof (parse_progress from_chars source fuel) as [Hp _].
  specialize (Hp _ _ _ H).
  destruct (parseValue_enters _ _ _ _ _ _ H) as [Hv [ch [Hch [Hclose _]]]].
  pose proof (skipWhitespace_spec source start) as [Hge _].
  cbn [parseArray]. cbv zeta.
  replace (start <? length source) with true
    by (symmetry; apply Nat.ltb_lt; lia).
  rewrite Hch, Hclose, Hv. cbn [bind].
  rewrite (skipSeparator_found _ _ _ _ _ Hrest Hw1 Hw2) by reflexivity.
  assert (Hat : skipn (stop + length ws1 + 1 + length ws2) source
                = "]"%char :: rest).
  { apply skipn_advance in Hrest.
    apply (skipn_advance _ _ [","%char]) in Hrest. cbn [length] in Hrest.
    now apply skipn_advance in Hrest. }
  rewrite (peek_is_head _ _ _ _ "]" Hat). cbn [Ascii.eqb Bool.eqb].
  do 2 f_equal. lia.
Qed.

Lemma trailing_comma_accepted_witness :
  parseArray Std.from_chars 2 (lit "[1, 2 , ]") 3 [Num 1%float]
  = Ret (Ok (Array ([Num 1%float] ++ [Num 2%float])),
         5 + length (lit " ") + length (lit " ") + 2)
  /\ parse Std.from_chars (lit "[1, 2 , ]")
     = Ret (Ok (Array [Num 1%float; Num 2%float])).
Proof.
  split; [|vm_compute; reflexivity].
  apply (trailing_comma_accepted Std.from_chars 1 (lit "[1, 2 , ]") 3
           [Num 1%float] (Num 2%float) 5 (lit " ") (lit " ") []).
  - vm_compute. reflexivity.
  - reflexivity.
  - reflexivity.
  - reflexivity.
Defined.

(** X23. After an element of an array that is followed, past white space,
    neither by a comma nor by the closing bracket, [parseArray] answers
    [Expected separator] at what follows; this is also its answer when the
    buffer ends there. *)
Theorem missing_separator :
  forall from_chars fuel source start values v stop (ws rest : text),
  parseValue from_chars fuel source start = Ret (Ok v, stop) ->
  forallb isWhitespace ws = true ->
  skipn stop source = ws ++ rest ->
  not_ws_head rest ->
  (forall ch tail, rest = ch :: tail ->
                   Ascii.eqb ch "," = false /\ Ascii.eqb ch "]" = false) ->
  parseArray from_chars (S fuel) source start values
  = Ret (Err (mkError (stop + length ws) "Expected separator"),
         stop + length ws).
Proof.
  intros from_chars fuel source start values v stop ws rest
         H Hws Hrest Hhead Hsep.
  pose proof (parse_progress from_chars source fuel) as [Hp _].
  specialize (Hp _ _ _ H).
  destruct (parseValue_enters _ _ _ _ _ _ H) as [Hv [ch [Hch [Hclose _]]]].
  pose proof (skipWhitespace_spec source start) as [Hge _].
  cbn [parseArray]. cbv zeta.
  replace (start <? length source) with true
    by (symmetry; apply Nat.ltb_lt; lia).
  rewrite Hch, Hclose, Hv. cbn [bind].
  assert (Hskip : skipWhitespace source stop = stop + length ws)
    by exact (skipWhitespace_suffix _ _ _ _ Hrest Hws Hhead).
  apply skipn_advance in Hrest.
  unfold skipSeparator. cbv zeta. rewrite Hskip.
  destruct rest as [|x tail].
  - assert (Hend : nth_error source (stop + length ws) = None).
    { apply nth_error_None.
      assert (Hlen : length (skipn (stop + length ws) source) = 0)
        by now rewrite Hrest.
      rewrite length_skipn in Hlen. lia. }
    unfold peek_is. rewrite Hend. cbv iota. now rewrite Hend.
  - destruct (Hsep x tail eq_refl) as [Hcomma Hbracket].
    rewrite (peek_is_head _ _ _ _ "," Hrest), Hcomma.
    now rewrite (peek_is_head _ _ _ _ "]" Hrest), Hbracket.
Qed.

Lemma missing_separator_witness :
  parseArray Std.from_chars 2 (lit "[1 2]") 1 []
  = Ret (Err (mkError (2 + length (lit " ")) "Expected separator"),
         2 + length (lit " "))
  /\ parse Std.from_chars (lit "[1 2]")
     = Ret (Err (mkError 3 "Expected separator")).
Proof.
  split; [|vm_compute; reflexivity].
  apply (missing_separator Std.from_chars 1 (lit "[1 2]") 1 [] (Num 1%float)
           2 (lit " ") (lit "2]")).
  - vm_compute. reflexivity.
  - reflexivity.
  - reflexivity.
  - reflexivity.
  - intros ch tail E. injection E as <- _. split; reflexivity.
Defined.

(** ** A member of an object *)

Lemma emplace_present : forall key value obj,
  StronglySorted key_lt obj ->
  In key (map fst obj) ->
  emplace key value obj = obj.
Proof.
  intros key value obj Hs. induction Hs as [|[k x] rest Hrest IH Hk];
    intros Hin; [contradiction|].
  cbn [emplace]. destruct (key_compare key k) eqn:E.
  - reflexivity.
  - exfalso. destruct Hin as [Heq|Hin].
    + simpl in Heq. subst k.
      rewrite (proj2 (key_compare_eq key key) eq_refl) in E. discriminate.
    + apply in_map_iff in Hin as [[k' y] [Hk' Hy]]. simpl in Hk'. subst k'.
      pose proof (proj1 (Forall_forall _ rest) Hk _ Hy) as Hlt.
      unfold key_lt in Hlt. simpl in Hlt.
      rewrite key_compare_antisym, E in Hlt. discriminate.
  - f_equal. apply IH. destruct Hin as [Heq|Hin]; [|exact Hin].
    simpl in Heq. subst k.
    rewrite (proj2 (key_compare_eq key key) eq_refl) in E. discriminate.
Qed.

Lemma emplace_absent : forall key value obj,
  ~ In key (map fst obj) ->
  In (key, value) (emplace key value obj)
  /\ incl obj (emplace key value obj)
  /\ length (emplace key value obj) = S (length obj).
Proof.
  intros key value. induction obj as [|[k x] rest IH]; intros Hno.
  - simpl. split; [now left|]. split; [intros m Hm; contradiction | reflexivity].
  - cbn [emplace]. destruct (key_compare key k) eqn:E.
    + exfalso. apply Hno. left. simpl.
      symmetry. now apply key_compare_eq.
    + split; [now left|]. split; [|reflexivity].
      intros m Hm. now right.
    + destruct IH as [Hin [Hincl Hlen]].
      { intros Hin. apply Hno. now right. }
      split; [now right|]. split; [|simpl; now rewrite Hlen].
      intros m [Hm|Hm]; [now left | right; now apply Hincl].
Qed.

(** The loop of [parseObject] before a key that [parseString] reads. *)
Lemma parseObject_reads_key :
  forall from_chars fuel source start obj key after,
  parseString fuel source (skipWhitespace source start)
  = Ret (Ok key, after) ->
  parseObject from_chars (S fuel) source start obj
  = (let at_colon := skipWhitespace source after in
     if negb (peek_is source at_colon ":") then
       Ret (Err (mkError at_colon "Expected colon"), at_colon)
     else
       let at_value := skipWhitespace source (S at_colon) in
       if length source <=? at_value then
         Ret (Err (mkError at_value "Expected value"), at_value)
       else
         '(value, next) <- parseValue from_chars fuel source at_value ;;
         match value with
         | Err e => Ret (Err e, next)
         | Ok value =>
             let obj := emplace key value obj in
             let '(separatorFound, next) := skipSeparator source next in
             if peek_is source next "}" then Ret (Ok (Object obj), S next)
             else if separatorFound then
               parseObject from_chars fuel source next obj
             else Ret (Err (mkError next "Expected separator"), next)
         end).
Proof.
  intros from_chars fuel source start obj key after Hkey.
  pose proof (parseString_progress _ _ _ _ _ Hkey) as Hp.
  pose proof (skipWhitespace_spec source start) as [Hge _].
  cbn [parseObject]. cbv zeta.
  replace (start <? length source) with true
    by (symmetry; apply Nat.ltb_lt; lia).
  assert (Hq : nth_error source (skipWhitespace source start)
               = Some ch_quote).
  { unfold parseString in Hkey.
    destruct (nth_error source (skipWhitespace source start)) as [ch|];
      [|discriminate].
    destruct (Ascii.eqb ch ch_quote) eqn:E; [|discriminate].
    apply Ascii.eqb_eq in E. now subst ch. }
  rewrite Hq.
  replace (Ascii.eqb ch_quote "}") with false by reflexivity.
  rewrite Ascii.eqb_refl. cbn [negb]. rewrite Hkey. reflexivity.
Qed.

(** X1. Of two members with the same key the first is kept.  When the
    loop of [parseObject], with the members [obj] read so far, reads a key,
    a colon and a value, it goes on, or returns at the closing brace, with
    [obj] unchanged if [obj] holds that key already: the member just read
    is dropped.  If [obj] does not hold the key it goes on with the members
    of [obj] and the new member. *)
Theorem first_member_wins :
  forall from_chars fuel source start obj key after v stop,
  StronglySorted key_lt obj ->
  parseString fuel source (skipWhitespace source start)
  = Ret (Ok key, after) ->
  peek_is source (skipWhitespace source after) ":" = true ->
  parseValue from_chars fuel source (S (skipWhitespace source after))
  = Ret (Ok v, stop) ->
  exists obj',
    (In key (map fst obj) -> obj' = obj)
    /\ (~ In key (map fst obj) ->
        In (key, v) obj' /\ incl obj obj' /\ length obj' = S (length obj))
    /\ parseObject from_chars (S fuel) source start obj
       = (let '(separatorFound, next) := skipSeparator source stop in
          if peek_is source next "}" then Ret (Ok (Object obj'), S next)
          else if separatorFound then
            parseObject from_chars fuel source next obj'
          else Ret (Err (mkError next "Expected separator"), next)).
Proof.
  intros from_chars fuel source start obj key after v stop
         Hsorted Hkey Hcolon Hvalue.
  exists (emplace key v obj).
  split; [intros Hin; now apply emplace_present|].
  split; [intros Hno; now apply emplace_absent|].
  rewrite (parseObject_reads_key _ _ _ _ _ _ _ Hkey). cbv zeta.
  rewrite Hcolon. cbn [negb].
  destruct (parseValue_enters _ _ _ _ _ _ Hvalue) as [Hv [ch [Hch _]]].
  assert (Hin : skipWhitespace source (S (skipWhitespace source after))
                < length source) by (apply nth_error_Some; congruence).
  replace (length source
           <=? skipWhitespace source (S (skipWhitespace source after)))
    with false by (symmetry; apply Nat.leb_gt; exact Hin).
  rewrite Hv. reflexivity.
Qed.

Lemma first_member_wins_witness :
  parseObject Std.from_chars 4 (json "{'a':null,'a':true}") 10
    [(lit "a", Null)]
  = Ret (Ok (Object [(lit "a", Null)]), 19)
  /\ parse Std.from_chars (json "{'a':null,'a':true}")
     = Ret (Ok (Object [(lit "a", Null)])).
Proof.
  split; [|vm_compute; reflexivity].
  destruct (first_member_wins Std.from_chars 3 (json "{'a':null,'a':true}")
              10 [(lit "a", Null)] (lit "a") 13 (Bool true) 18)
    as [obj' [Hdup [_ Hrun]]].
  - repeat constructor.
  - vm_compute. reflexivity.
  - reflexivity.
  - vm_compute. reflexivity.
  - rewrite Hrun, (Hdup ltac:(now left)). reflexivity.
Defined.

(** X24. Keys are accepted between quotation marks only: when the loop of
    [parseObject], whatever members it has read, stands before white space
    and a character that is neither a quotation mark nor the closing brace,
    it answers [Expected key] at that character. *)
Theorem unquoted_key_rejected :
  forall from_chars fuel source start obj (ws rest : text) ch,
  skipn start source = ws ++ ch :: rest ->
  forallb isWhitespace ws = true ->
  isWhitespace ch = false ->
  Ascii.eqb ch "}" = false ->
  Ascii.eqb ch ch_quote = false ->
  parseObject from_chars (S fuel) source start obj
  = Ret (Err (mkError (start + length ws) "Expected key"),
         start + length ws).
Proof.
  intros from_chars fuel source start obj ws rest ch
         Hrest Hws Hch Hbrace Hquote.
  assert (Hin : start < length source).
  { apply skipn_nonempty_in_range. rewrite Hrest.
    now destruct ws. }
  cbn [parseObject]. cbv zeta.
  replace (start <? length source) with true
    by (symmetry; apply Nat.ltb_lt; exact Hin).
  rewrite (skipWhitespace_suffix _ _ _ _ Hrest Hws Hch).
  apply skipn_advance in Hrest.
  now rewrite (skipn_head _ _ _ _ Hrest), Hbrace, Hquote.
Qed.

Lemma unquoted_key_rejected_witness :
  parseObject Std.from_chars 1 (json "{'a':null, b:2}") 10 [(lit "a", Null)]
  = Ret (Err (mkError (10 + length (lit " ")) "Expected key"),
         10 + length (lit " "))
  /\ parse Std.from_chars (json "{'a':null, b:2}")
     = Ret (Err (mkError 11 "Expected key")).
Proof.
  split; [|vm_compute; reflexivity].
  apply (unquoted_key_rejected Std.from_chars 0 (json "{'a':null, b:2}") 10
           [(lit "a", Null)] (lit " ") (lit ":2}") "b"); reflexivity.
Defined.

(** X25. When the loop of [parseObject], whatever members it has read, has
    read a key that is followed, past white space, by a character other
    than a colon, or by the end of the buffer, it answers [Expected colon]
    at what follows. *)
Theorem missing_colon :
  forall from_chars fuel source start obj key after (ws rest : text),
  parseString fuel source (skipWhitespace source start)
  = Ret (Ok key, after) ->
  skipn after source = ws ++ rest ->
  forallb isWhitespace ws = true ->
  not_ws_head rest ->
  (forall ch tail, rest = ch :: tail -> Ascii.eqb ch ":" = false) ->
  parseObject from_chars (S fuel) source start obj
  = Ret (Err (mkError (after + length ws) "Expected colon"),
         after + length ws).
Proof.
  intros from_chars fuel source start obj key after ws rest
         Hkey Hrest Hws Hhead Hcolon.
  rewrite (parseObject_reads_key _ _ _ _ _ _ _ Hkey). cbv zeta.
  rewrite (skipWhitespace_suffix _ _ _ _ Hrest Hws Hhead).
  apply skipn_advance in Hrest.
  assert (Hpeek : peek_is source (after + length ws) ":" = false).
  { destruct rest as [|ch tail].
    - unfold peek_is.
      replace (nth_error source (after + length ws)) with (@None ascii);
        [reflexivity|].
      symmetry. apply nth_error_None.
      assert (Hlen : length (skipn (after + length ws) source) = 0)
        by now rewrite Hrest.
      rewrite length_skipn in Hlen. lia.
    - rewrite (peek_is_head _ _ _ _ ":" Hrest).
      exact (Hcolon ch tail eq_refl). }
  now rewrite Hpeek.
Qed.

Lemma missing_colon_witness :
  parseObject Std.from_chars 4 (json "{'a':null,'b' 2}") 10 [(lit "a", Null)]
  = Ret (Err (mkError (13 + length (lit " ")) "Expected colon"),
         13 + length (lit " "))
  /\ parse Std.from_chars (json "{'a':null,'b' 2}")
     = Ret (Err (mkError 14 "Expected colon")).
Proof.
  split; [|vm_compute; reflexivity].
  apply (missing_colon Std.from_chars 3 (json "{'a':null,'b' 2}") 10
           [(lit "a", Null)] (lit "b") 13 (lit " ") (lit "2}")).
  - vm_compute. reflexivity.
  - reflexivity.
  - reflexivity.
  - reflexivity.
  - intros ch tail E. injection E as <- _. reflexivity.
Defined.
